(** * Goldbach tail-replication scripts: a shallow embedding

    The numeric core of [scripts/replicate_tail.py],
    [scripts/harmonic_sum_phi.py], [scripts/per_q_envelope.py] and
    [scripts/major_arc_envelope.py]: the
    integer n-th root bisection, the totient sieve, the trial-division
    totient, the harmonic sum [S(Q)] of [1 / (q * phi(q))] in its float,
    decimal and exact fraction modes, the tail-margin evaluator, the exit
    status of the entry point, the diagnostics, and the table-driven and
    the uniform evaluation of the major-arc error.

    Python integers are unbounded, so they are [Z]; exceptions are an
    explicit [Raise] outcome; [while] loops run on fuel computed from their
    arguments, with a separate [Diverge] outcome that the theorems show is
    never reached.  Fractions are rationals in lowest terms, decimals are
    coefficient and exponent under a context precision that is a piece of
    state, and floats are an interface that the kernel's binary64 floats
    and the rationals both implement.  Euler's totient of reference is
    MathComp's [totient]. *)

From Stdlib Require Import ZArith Lia QArith Qabs Qpower Lqa String Uint63 Floats.
From mathcomp Require Import boot.

Set Implicit Arguments.
Unset Strict Implicit.
Unset Printing Implicit Defensive.

Close Scope Q_scope.
Close Scope string_scope.
Close Scope float_scope.
Close Scope uint63_scope.
Local Open Scope Z_scope.

(** ** Outcomes of a Python call *)

Inductive exn : Type :=
  | ValueError
  | AssertionError
  | IndexError
  | KeyError
  | ZeroDivisionError
  | OverflowError.

Inductive result (A : Type) : Type :=
  | Ok (a : A)
  | Raise (e : exn)
  | Diverge.

Arguments Ok {A} a.
Arguments Raise {A} e.
Arguments Diverge {A}.

Definition bind {A B : Type} (m : result A) (f : A -> result B) : result B :=
  match m with
  | Ok a => f a
  | Raise e => Raise e
  | Diverge => Diverge
  end.

Notation "x <- m ;; k" := (bind m (fun x => k))
  (at level 61, m at next level, right associativity).

(** [for x in xs: body], the body threading the loop-carried state. *)
Fixpoint for_each {A S : Type} (xs : seq A) (body : S -> A -> result S)
    (s : S) : result S :=
  match xs with
  | [::] => Ok s
  | x :: xs' => s' <- body s x ;; for_each xs' body s'
  end.

(** ** Python built-ins *)

(** [range(a, b)]. *)
Definition range (a b : Z) : seq Z :=
  [seq a + Z.of_nat i | i <- iota 0 (Z.to_nat (b - a))].

(** [range(start, stop, step)] for a positive [step]; Python raises on a
    zero step, and the scripts only ever step by a prime. *)
Definition range_step (start stop step : Z) : seq Z :=
  [seq start + Z.of_nat i * step
  | i <- iota 0 (Z.to_nat ((stop - start + step - 1) / step))].

(** Position designated by an index into a list of length [len]: negative
    indices count from the end, anything outside raises [IndexError]. *)
Definition py_index (len k : Z) : result nat :=
  let k' := if k <? 0 then k + len else k in
  if (0 <=? k') && (k' <? len) then Ok (Z.to_nat k') else Raise IndexError.

Definition getitem (l : seq Z) (k : Z) : result Z :=
  i <- py_index (Z.of_nat (size l)) k ;; Ok (nth 0 l i).

Definition setitem (l : seq Z) (k v : Z) : result (seq Z) :=
  i <- py_index (Z.of_nat (size l)) k ;; Ok (set_nth 0 l i v).

(** ** [replicate_tail.int_nth_root_floor] *)

(** [while hi ** k <= n: hi <<= 1] *)
Fixpoint root_double (fuel : nat) (n k hi : Z) : result Z :=
  if hi ^ k <=? n then
    match fuel with
    | O => Diverge
    | S fuel' => root_double fuel' n k (Z.shiftl hi 1)
    end
  else Ok hi.

(** [while hi - lo > 1: mid = (lo + hi) // 2; ...] *)
Fixpoint root_bisect (fuel : nat) (n k lo hi : Z) : result Z :=
  if hi - lo >? 1 then
    match fuel with
    | O => Diverge
    | S fuel' =>
        let mid := (lo + hi) / 2 in
        if mid ^ k <=? n then root_bisect fuel' n k mid hi
        else root_bisect fuel' n k lo mid
    end
  else Ok lo.

Definition int_nth_root_floor (n k : Z) : result Z :=
  if (n <? 0) || (k <=? 0) then Raise ValueError
  else if n <? 2 then Ok n
  else
    hi <- root_double (S (Z.to_nat (Z.log2 n))) n k 1 ;;
    root_bisect (S (Z.to_nat (Z.log2 hi))) n k 0 hi.

(** ** [replicate_tail.sieve_phi] *)

(** [for k in range(p, Q + 1, p): phi[k] -= phi[k] // p] *)
Definition sieve_strike (Q p : Z) (phi : seq Z) : result (seq Z) :=
  for_each (range_step p (Q + 1) p)
    (fun phi k => v <- getitem phi k ;; setitem phi k (v - v / p)) phi.

(** The body of [for p in range(2, Q + 1)]. *)
Definition sieve_body (Q : Z) (phi : seq Z) (p : Z) : result (seq Z) :=
  v <- getitem phi p ;;
  if v =? p then sieve_strike Q p phi else Ok phi.

(** [phi = list(range(Q + 1))] and the two nested loops, which
    [sieve_phi] and [sieve_phi_sum] both spell out. *)
Definition sieve_loops (Q : Z) : result (seq Z) :=
  for_each (range 2 (Q + 1)) (sieve_body Q) (range 0 (Q + 1)).

Definition sieve_phi (Q : Z) : result (seq Z) :=
  if Q <? 0 then Raise ValueError else sieve_loops Q.

(** ** [harmonic_sum_phi.phi]: the totient by trial division *)

(** [while x % p == 0: x //= p] *)
Fixpoint strip_factor (fuel : nat) (x p : Z) : result Z :=
  if x mod p =? 0 then
    match fuel with
    | O => Diverge
    | S fuel' => strip_factor fuel' (x / p) p
    end
  else Ok x.

(** [while p * p <= x: ...], on the state [(x, r, p)]. *)
Fixpoint phi_loop (fuel : nat) (x r p : Z) : result (Z * Z) :=
  if p * p <=? x then
    match fuel with
    | O => Diverge
    | S fuel' =>
        xr <- (if x mod p =? 0 then
                 x' <- strip_factor (Z.to_nat (Z.log2 x)) x p ;;
                 Ok (x', r - r / p)
               else Ok (x, r)) ;;
        phi_loop fuel' xr.1 xr.2 (p + (if p =? 2 then 1 else 2))
    end
  else Ok (x, r).

Definition phi (n : Z) : result Z :=
  xr <- phi_loop (Z.to_nat (Z.sqrt n)) n n 2 ;;
  let: (x, r) := xr in
  Ok (if x >? 1 then r - r / x else r).


(** ** [fractions.Fraction] *)

(** [Fraction(num, den)]: the rational in lowest terms with a positive
    denominator; a zero denominator raises. *)
Definition Fraction (num den : Z) : result Q :=
  if den =? 0 then Raise ZeroDivisionError
  else Ok (Qred (Qmake (Z.sgn den * num) (Z.to_pos (Z.abs den)))).

Definition Fraction_add (a b : Q) : Q := Qred (Qplus a b).

Definition Fraction_lt (a b : Q) : bool :=
  match Qcompare a b with Lt => true | _ => false end.

(** ** [replicate_tail.harmonic_sum_fraction] *)

Definition harmonic_sum_fraction (Qz : Z) : result Q :=
  if Qz <? 0 then Raise ValueError
  else
    phi <- sieve_phi Qz ;;
    for_each (range 2 (Qz + 1))
      (fun S q =>
         ph <- getitem phi q ;;
         t <- Fraction 1 (q * ph) ;;
         Ok (Fraction_add S t))
      (Qmake 0 1).

(** ** [decimal.Decimal] under a context of precision [prec]

    A finite decimal is a signed coefficient and an exponent; its value is
    [dcoeff * 10 ^ dexp].  The operations follow the reference
    implementation of Python's [decimal] module ([__mul__], [__add__],
    [__truediv__] and [_fix]) under the default rounding mode
    ROUND_HALF_EVEN; the exponent limits of the context (six digits) are far
    from anything these sums reach. *)

Record decimal : Type := Dec { dcoeff : Z; dexp : Z }.

(** [Decimal(n)] for an integer [n]: exact, whatever the context. *)
Definition Decimal (n : Z) : decimal := Dec n 0.

(** The least [n' >= n] with [c < 10 ^ n'], [p] being [10 ^ n]. *)
Fixpoint ndigits_up (fuel : nat) (c n p : Z) : Z :=
  match fuel with
  | O => n
  | S fuel' => if c <? p then n else ndigits_up fuel' c (n + 1) (10 * p)
  end.

(** Number of decimal digits of the coefficient, [len(str(abs(c)))]: the
    least [n >= 1] with [|c| < 10 ^ n], looked for from an estimate of it
    taken from the binary length. *)
Definition ndigits (c : Z) : Z :=
  let a := Z.abs c in
  let g := Z.log2 a * 1233 / 4096 in
  let p := 10 ^ g in
  let fuel := S (Z.to_nat (Z.log2 a)) in
  if p <=? a then ndigits_up fuel a (g + 1) (10 * p)
  else ndigits_up fuel a 1 10.

(** [c] without its last [drop] digits, rounded half to even. *)
Definition round_half_even (c drop : Z) : Z :=
  let: (q, r) := Z.div_eucl c (10 ^ drop) in
  let half := 5 * 10 ^ (drop - 1) in
  if (r >? half) || ((r =? half) && Z.odd q) then q + 1 else q.

(** [Decimal._fix]: round to at most [prec] significant digits. *)
Definition dfix (prec : Z) (d : decimal) : decimal :=
  let c := Z.abs (dcoeff d) in
  let n := ndigits c in
  if n <=? prec then d
  else
    let drop := n - prec in
    let q := round_half_even c drop in
    if ndigits q >? prec
    then Dec (Z.sgn (dcoeff d) * (q / 10)) (dexp d + drop + 1)
    else Dec (Z.sgn (dcoeff d) * q) (dexp d + drop).

Definition dmul (prec : Z) (a b : decimal) : decimal :=
  dfix prec (Dec (dcoeff a * dcoeff b) (dexp a + dexp b)).

Definition dadd (prec : Z) (a b : decimal) : decimal :=
  let e := Z.min (dexp a) (dexp b) in
  dfix prec (Dec (dcoeff a * 10 ^ (dexp a - e) + dcoeff b * 10 ^ (dexp b - e)) e).

(** [a / b]: the quotient to [prec + 1] digits and a sticky digit, then
    [_fix]; a zero divisor raises [decimal.DivisionByZero], a subclass of
    [ZeroDivisionError]. *)
Definition ddiv (prec : Z) (a b : decimal) : result decimal :=
  if dcoeff b =? 0 then Raise ZeroDivisionError
  else if dcoeff a =? 0 then Ok (dfix prec (Dec 0 (dexp a - dexp b)))
  else
    let ca := Z.abs (dcoeff a) in
    let cb := Z.abs (dcoeff b) in
    let shift := ndigits cb - ndigits ca + prec + 1 in
    let num := if 0 <=? shift then ca * 10 ^ shift else ca in
    let den := if 0 <=? shift then cb else cb * 10 ^ (- shift) in
    let: (q, r) := Z.div_eucl num den in
    let q' := if (r =? 0) || negb (q mod 5 =? 0) then q else q + 1 in
    Ok (dfix prec (Dec (Z.sgn (dcoeff a) * Z.sgn (dcoeff b) * q')
                       (dexp a - dexp b - shift))).

(** [a < b] on decimals compares the values. *)
Definition dlt (a b : decimal) : bool :=
  let e := Z.min (dexp a) (dexp b) in
  dcoeff a * 10 ^ (dexp a - e) <? dcoeff b * 10 ^ (dexp b - e).

(** The rational a decimal denotes. *)
Definition dval (d : decimal) : Q :=
  if 0 <=? dexp d then inject_Z (dcoeff d * 10 ^ dexp d)
  else Qmake (dcoeff d) (Z.to_pos (10 ^ (- dexp d))).

(** ** The decimal context, a process-wide mutable object *)

Record context : Type := Context { ctx_prec : Z }.

(** [MAX_PREC] of a 64-bit build. *)
Definition MAX_PREC : Z := 999999999999999999.

(** A computation that may read and write the current context. *)
Definition M (A : Type) : Type := context -> result A * context.

Definition retM {A : Type} (a : A) : M A := fun st => (Ok a, st).
Definition liftM {A : Type} (r : result A) : M A := fun st => (r, st).
Definition bindM {A B : Type} (m : M A) (f : A -> M B) : M B :=
  fun st =>
    match m st with
    | (Ok a, st') => f a st'
    | (Raise e, st') => (Raise e, st')
    | (Diverge, st') => (Diverge, st')
    end.

Notation "x <~ m ;; k" := (bindM m (fun x => k))
  (at level 61, m at next level, right associativity).

Fixpoint for_eachM {A S : Type} (xs : seq A) (body : S -> A -> M S)
    (s : S) : M S :=
  match xs with
  | [::] => retM s
  | x :: xs' => s' <~ body s x ;; for_eachM xs' body s'
  end.

(** [getcontext().prec = p], or [ctx.prec = p] on the current context:
    the setter refuses a precision outside [1, MAX_PREC]. *)
Definition set_prec (p : Z) : M unit :=
  fun st =>
    if (1 <=? p) && (p <=? MAX_PREC) then (Ok tt, Context p)
    else (Raise ValueError, st).

(** [with localcontext() as ctx: body]: the body runs on a copy of the
    current context, and the previous context is current again afterwards,
    whether the body returns or raises. *)
Definition with_localcontext {A : Type} (body : M A) : M A :=
  fun st => ((body st).1, st).

(** Arithmetic on the current context. *)
Definition ctx_mul (a b : decimal) : M decimal :=
  fun st => (Ok (dmul (ctx_prec st) a b), st).
Definition ctx_add (a b : decimal) : M decimal :=
  fun st => (Ok (dadd (ctx_prec st) a b), st).
Definition ctx_div (a b : decimal) : M decimal :=
  fun st => (ddiv (ctx_prec st) a b, st).

(** ** [replicate_tail.harmonic_sum_decimal] *)

Definition harmonic_sum_decimal (Qz prec : Z) : M decimal :=
  if Qz <? 0 then liftM (Raise ValueError)
  else
    _ <~ set_prec prec ;;
    phi <~ liftM (sieve_phi Qz) ;;
    for_eachM (range 2 (Qz + 1))
      (fun S q =>
         ph <~ liftM (getitem phi q) ;;
         d <~ ctx_mul (Decimal q) (Decimal ph) ;;
         t <~ ctx_div (Decimal 1) d ;;
         ctx_add S t)
      (Decimal 0).


(** ** Python dictionaries with integer keys *)

Fixpoint dict_get {V : Type} (d : seq (Z * V)) (k : Z) : option V :=
  match d with
  | [::] => None
  | (k', v) :: d' => if k' =? k then Some v else dict_get d' k
  end.

(** [d[k] = v] *)
Definition dict_set {V : Type} (d : seq (Z * V)) (k : Z) (v : V) : seq (Z * V) :=
  (k, v) :: filter (fun kv => negb (kv.1 =? k)) d.

(** [d[k]], raising [KeyError] on a missing key. *)
Definition dict_item {V : Type} (d : seq (Z * V)) (k : Z) : result V :=
  if dict_get d k is Some v then Ok v else Raise KeyError.

(** ** Python floats

    The scripts' floating-point arithmetic, as an interface: the type of
    floats with the operations the scripts use.  [binary64] further down
    instantiates it with the kernel's IEEE 754 double-precision floats. *)

Record float_ops : Type := FloatOps {
  flt :> Type;
  f_of_int : Z -> result flt;        (* float(n), OverflowError when too large *)
  f_lit : Q -> flt;                  (* a decimal literal of the source *)
  fadd : flt -> flt -> flt;
  fsub : flt -> flt -> flt;
  fmul : flt -> flt -> flt;
  fdiv : flt -> flt -> flt;          (* the quotient by a non-zero divisor *)
  f_is_zero : flt -> bool;
  flt_lt : flt -> flt -> bool;
  fabs : flt -> flt
}.

(** What the scripts take from [math], from [**] and from the conversions
    to [float]; their results depend on the platform's C library. *)
Record float_lib (F : float_ops) : Type := FloatLib {
  flog : F -> result F;              (* math.log(x) *)
  fpow : F -> F -> result F;         (* x ** y *)
  f_of_fraction : Q -> result F;     (* float(Fraction) *)
  f_of_decimal : decimal -> F;       (* float(Decimal) *)
  f_of_str : string -> result F      (* float("...") *)
}.

Section Floats.

Variable F : float_ops.
Variable Lb : float_lib F.

(** [a / b] on floats raises on a zero divisor. *)
Definition py_fdiv (a b : F) : result F :=
  if f_is_zero b then Raise ZeroDivisionError else Ok (fdiv a b).

(** [a / n] for a float [a] and an integer [n]. *)
Definition py_fdiv_int (a : F) (n : Z) : result F :=
  d <- f_of_int F n ;; py_fdiv a d.

(** ** [replicate_tail.sieve_phi_sum] *)

Definition sieve_phi_sum (Qz : Z) : result (seq Z * F) :=
  if Qz <? 1 then Ok ([:: 0; 1], f_lit F (0 # 1))
  else
    phi <- sieve_loops Qz ;;
    S <- for_each (range 2 (Qz + 1))
           (fun S q =>
              ph <- getitem phi q ;;
              t <- py_fdiv_int (f_lit F (1 # 1)) (q * ph) ;;
              Ok (fadd S t))
           (f_lit F (0 # 1)) ;;
    Ok (phi, S).

(** ** [harmonic_sum_phi.harmonic_sum_phi] *)

Definition harmonic_sum_phi (Qz : Z) : result F :=
  for_each (range 2 (Qz + 1))
    (fun s q =>
       ph <- phi q ;;
       if ph =? 0 then Ok s
       else t <- py_fdiv_int (f_lit F (1 # 1)) (q * ph) ;; Ok (fadd s t))
    (f_lit F (0 # 1)).

(** ** The envelopes *)

Definition E_trivial (N L : F) : F := fadd (fmul N L) N.

Definition E_uniform (N L : F) : result F :=
  py_fdiv N (fmul (f_lit F (160 # 1)) L).

(** ** [replicate_tail.compute_tail_margins] *)

Record tail_margins : Type := TailMargins {
  tm_N : F;
  tm_logN : F;
  tm_Q : Z;
  tm_R : F;
  tm_sum_q : F;
  tm_EMA_trivial : F;
  tm_EMA_uniform : F;
  tm_share : F;
  tm_ratio_trivial : F;
  tm_ratio_uniform : F
}.

(** The [method == "fraction"] branch up to [S_harm]. *)
Definition S_harm_fraction (Qz : Z) : result F :=
  S_Qm1 <- (if Qz >? 1 then harmonic_sum_fraction (Qz - 1)
            else Ok (Qmake 0 1)) ;;
  S_Q <- harmonic_sum_fraction Qz ;;
  S_Qp1 <- harmonic_sum_fraction (Qz + 1) ;;
  if negb (Fraction_lt S_Qm1 S_Q && Fraction_lt S_Q S_Qp1)
  then Raise AssertionError
  else f_of_fraction Lb S_Q.

(** The decimal branch up to [S_harm]. *)
Definition S_harm_decimal (Qz prec : Z) : M F :=
  sums <~ with_localcontext
            (_ <~ set_prec prec ;;
             S_Qm1 <~ (if Qz >? 1 then harmonic_sum_decimal (Qz - 1) prec
                       else retM (Decimal 0)) ;;
             S_Q <~ harmonic_sum_decimal Qz prec ;;
             S_Qp1 <~ harmonic_sum_decimal (Qz + 1) prec ;;
             retM (S_Qm1, S_Q, S_Qp1)) ;;
  let: (S_Qm1, S_Q, S_Qp1) := sums in
  if negb (dlt S_Qm1 S_Q && dlt S_Q S_Qp1)
  then liftM (Raise AssertionError)
  else retM (f_of_decimal Lb S_Q).

Definition compute_tail_margins (N_int : Z) (K S_floor C_W : F)
    (method : string) (prec : Z) : M tail_margins :=
  if N_int <=? 0 then liftM (Raise ValueError)
  else
    Qz <~ liftM (int_nth_root_floor N_int 5) ;;
    S_harm <~ (if String.eqb method "fraction"
               then liftM (S_harm_fraction Qz)
               else S_harm_decimal Qz prec) ;;
    liftM (
      N_float <- f_of_int F N_int ;;
      L <- flog Lb N_float ;;
      R <- fpow Lb N_float (f_lit F (6 # 10)) ;;
      let E_t := E_trivial N_float L in
      E_u <- E_uniform N_float L ;;
      cw_r <- py_fdiv C_W R ;;
      let EMA_t := fmul (fmul cw_r E_t) S_harm in
      cw_r' <- py_fdiv C_W R ;;
      let EMA_u := fmul (fmul cw_r' E_u) S_harm in
      sk <- py_fdiv S_floor (fmul (f_lit F (8 # 1)) K) ;;
      L2 <- fpow Lb L (f_lit F (2 # 1)) ;;
      share <- py_fdiv (fmul sk N_float) L2 ;;
      ratio_t <- py_fdiv EMA_t share ;;
      ratio_u <- py_fdiv EMA_u share ;;
      Ok (TailMargins N_float L Qz R S_harm EMA_t EMA_u share ratio_t ratio_u)).

(** ** [replicate_tail.strict_diagnostics]

    The record it returns holds the decimals and the fraction themselves
    rather than their renderings as strings. *)

Record diagnostics : Type := Diagnostics {
  dg_Q : Z;
  dg_S_decimal_base : decimal;
  dg_S_decimal_hi : decimal;
  dg_S_fraction_Q : Q;
  dg_S_decimal_minus_fraction_abs : decimal;
  dg_monotone_deltas_hi_prec : seq (Z * decimal)
}.

Definition dneg (d : decimal) : decimal := Dec (- dcoeff d) (dexp d).

Definition ctx_sub (a b : decimal) : M decimal := ctx_add a (dneg b).

Definition ctx_abs (a : decimal) : M decimal :=
  fun st => (Ok (dfix (ctx_prec st) (Dec (Z.abs (dcoeff a)) (dexp a))), st).

Definition strict_diagnostics (N_int base_prec hi_prec kmax : Z)
    : M diagnostics :=
  if N_int <=? 0 then liftM (Raise ValueError)
  else
    Qz <~ liftM (int_nth_root_floor N_int 5) ;;
    S_dec <~ for_eachM [:: base_prec; hi_prec]
      (fun S_dec prec =>
         at_prec <~ for_eachM (range (- kmax) (kmax + 1))
           (fun at_prec k =>
              let q := Qz + k in
              if q <? 1 then retM at_prec
              else v <~ harmonic_sum_decimal q prec ;;
                   retM (dict_set at_prec q v))
           [::] ;;
         retM (dict_set S_dec prec at_prec))
      [::] ;;
    S_frac_Q <~ liftM (harmonic_sum_fraction Qz) ;;
    deltas <~ for_eachM (range 1 (kmax + 1))
      (fun deltas k =>
         hi <~ liftM (dict_item S_dec hi_prec) ;;
         a <~ liftM (dict_item hi (Qz + k)) ;;
         hi' <~ liftM (dict_item S_dec hi_prec) ;;
         b <~ liftM (dict_item hi' (Qz + k - 1)) ;;
         d <~ ctx_sub a b ;;
         retM (dict_set deltas k d))
      [::] ;;
    base <~ liftM (dict_item S_dec base_prec) ;;
    S_base <~ liftM (dict_item base Qz) ;;
    hi <~ liftM (dict_item S_dec hi_prec) ;;
    S_hi <~ liftM (dict_item hi Qz) ;;
    quo <~ ctx_div (Decimal (Qnum S_frac_Q)) (Decimal (Zpos (Qden S_frac_Q))) ;;
    diff <~ ctx_sub S_hi quo ;;
    adiff <~ ctx_abs diff ;;
    retM (Diagnostics Qz S_base S_hi S_frac_Q adiff deltas).

(** ** [replicate_tail.main], from the parsed arguments on

    [argparse] and the reading of [constants.json] deliver the values of
    [main_args]; what [main] prints is not part of its outcome. *)

Record main_args : Type := MainArgs {
  a_N_int : Z;
  a_K : F;
  a_S_floor : F;
  a_C_W : F;
  a_method : string;
  a_prec : Z;
  a_strict : bool;
  a_assert_baseline : bool
}.

(** [if args.strict: ...] *)
Definition main_strict (a : main_args) : M unit :=
  if a_strict a then
    _ <~ strict_diagnostics (a_N_int a) (Z.max 50 (a_prec a))
           (Z.max 120 (a_prec a + 70)) 5 ;;
    retM tt
  else retM tt.

(** [if args.assert_baseline and abs(float(N_int) - 4.0e18) < 0.5e18: ...] *)
Definition main_baseline (a : main_args) : result unit :=
  if a_assert_baseline a then
    N_float <- f_of_int F (a_N_int a) ;;
    if flt_lt (fabs (fsub N_float (f_lit F (4000000000000000000 # 1))))
              (f_lit F (500000000000000000 # 1))
    then
      Qz <- int_nth_root_floor (a_N_int a) 5 ;;
      let S_baseline := f_lit F (120348665358 # 100000000000) in
      ps <- sieve_phi_sum Qz ;;
      if flt_lt (f_lit F (1 # 10000000000)) (fabs (fsub ps.2 S_baseline))
      then Raise AssertionError
      else Ok tt
    else Ok tt
  else Ok tt.

(** [ok = (result["ratio_trivial"] < 1e-3) and (result["ratio_uniform"] < 1e-8)] *)
Definition acceptance (r : tail_margins) : bool :=
  flt_lt (tm_ratio_trivial r) (f_lit F (1 # 1000)) &&
  flt_lt (tm_ratio_uniform r) (f_lit F (1 # 100000000)).

Definition main (a : main_args) : M Z :=
  r <~ compute_tail_margins (a_N_int a) (a_K a) (a_S_floor a) (a_C_W a)
         (a_method a) (a_prec a) ;;
  _ <~ main_strict a ;;
  _ <~ liftM (main_baseline a) ;;
  retM (if acceptance r then 0 else 2).

(** ** [per_q_envelope] *)

(** A row of [per_q_constants.csv], its fields as read: strings. *)
Record perq_row : Type := PerqRow {
  r_form : string;
  r_c1 : string;
  r_c2 : string
}.

(** [PerQ.rows], keyed by [int(row["q"])]. *)
Definition PerQ : Type := seq (Z * perq_row).

Definition PerQ_Eq (rows : PerQ) (q : Z) (N L : F) : result F :=
  match dict_get rows q with
  | None => Raise KeyError
  | Some r =>
      c1 <- f_of_str Lb (r_c1 r) ;;
      c2 <- f_of_str Lb (r_c2 r) ;;
      if String.eqb (r_form r) "cNoverlog" then py_fdiv (fmul c1 N) L
      else if String.eqb (r_form r) "cNlog" then Ok (fmul (fmul c1 N) L)
      else if String.eqb (r_form r) "affine"
           then Ok (fadd (fmul (fmul c1 N) L) (fmul c2 N))
      else py_fdiv (fmul c1 N) L
  end.

Record perq_args : Type := PerqArgs {
  ns_N : F;
  ns_K : F;
  ns_S : F;
  ns_Wsup : F;
  ns_CW : option F;
  ns_Rexp : F;
  ns_Qcap : Z;
  ns_rows : PerQ;          (* the rows of [ns.csv], none when it does not exist *)
  ns_fallback : string
}.

Record perq_report : Type := PerqReport {
  rp_N : F;
  rp_Qcap : Z;
  rp_Missing : Z;
  rp_EMA : F;
  rp_Share : F;
  rp_Ratio : F
}.

(** [try: Eq = perq.Eq(q, N, L)  except KeyError: ...], on [(ema, missing)]. *)
Definition perq_body (ns : perq_args) (N L : F) (st : F * Z) (q : Z)
    : result (F * Z) :=
  let: (ema, missing) := st in
  em <- match PerQ_Eq (ns_rows ns) q N L with
        | Raise KeyError =>
            E_q <- (if String.eqb (ns_fallback ns) "uniform"
                   then E_uniform N L else Ok (E_trivial N L)) ;;
            Ok (E_q, missing + 1)
        | Ok E_q => Ok (E_q, missing)
        | Raise e => Raise e
        | Diverge => Diverge
        end ;;
  ph <- phi q ;;
  t <- py_fdiv_int em.1 (q * ph) ;;
  Ok (fadd ema t, em.2).

Definition per_q_envelope_main (ns : perq_args) : result perq_report :=
  let N := ns_N ns in
  L <- flog Lb N ;;
  let Qcap := ns_Qcap ns in
  R <- fpow Lb N (ns_Rexp ns) ;;
  let CW := if ns_CW ns is Some cw then cw
            else fmul (f_lit F (2 # 1)) (ns_Wsup ns) in
  em <- for_each (range 2 (Qcap + 1)) (perq_body ns N L)
          (f_lit F (0 # 1), 0) ;;
  cw_r <- py_fdiv CW R ;;
  let ema := fmul em.1 cw_r in
  sk <- py_fdiv (ns_S ns) (fmul (f_lit F (8 # 1)) (ns_K ns)) ;;
  L2 <- fpow Lb L (f_lit F (2 # 1)) ;;
  share <- py_fdiv (fmul sk N) L2 ;;
  ratio <- py_fdiv ema share ;;
  Ok (PerqReport N Qcap em.2 ema share ratio).

End Floats.

(** ** IEEE 754 double precision, the floats of CPython *)

Definition binary64_of_int (n : Z) : result float :=
  let f := SF2Prim (binary_normalize prec emax n 0 false) in
  if PrimFloat.is_infinity f then Raise OverflowError else Ok f.

(** Exact for the scripts' literals, whose numerator and denominator are
    both doubles: the quotient of two doubles is correctly rounded. *)
Definition binary64_lit (q : Q) : float :=
  PrimFloat.div (SF2Prim (binary_normalize prec emax (Qnum q) 0 false))
                (SF2Prim (binary_normalize prec emax (Zpos (Qden q)) 0 false)).

Definition binary64 : float_ops :=
  FloatOps binary64_of_int binary64_lit
    PrimFloat.add PrimFloat.sub PrimFloat.mul PrimFloat.div
    (fun x => PrimFloat.eqb x PrimFloat.zero)
    PrimFloat.ltb PrimFloat.abs.

(** The rational a finite double denotes. *)
Definition fval (x : float) : option Q :=
  match Prim2SF x with
  | S754_zero _ => Some (Qmake 0 1)
  | S754_finite s m e =>
      let z := if s then Zneg m else Zpos m in
      Some (if 0 <=? e then inject_Z (z * 2 ^ e)
            else Qmake z (Z.to_pos (2 ^ (- e))))
  | _ => None
  end.

(** Exact arithmetic, the scripts' formulas read over the rationals. *)
Definition exact_arith : float_ops :=
  FloatOps (fun n => Ok (inject_Z n)) (fun q => q)
    Qplus Qminus Qmult Qdiv
    (fun x => Qeq_bool x (Qmake 0 1))
    (fun x y => match Qcompare x y with Lt => true | _ => false end)
    Qabs.

(** ** [major_arc_envelope], from the parsed arguments on *)

Section MajorArc.

Variable F : float_ops.
Variable Lb : float_lib F.

(** [int(x)] of a float: the truncation, [OverflowError] on an infinity and
    [ValueError] on a NaN. *)
Variable f_to_int : F -> result Z.

Record major_args : Type := MajorArgs {
  ma_N : F;
  ma_K : F;
  ma_S : F;
  ma_Wsup : F;
  ma_CW : option F;
  ma_Rexp : F;
  ma_Qcap : option Z;
  ma_model : string
}.

Record major_report : Type := MajorReport {
  mr_N : F;
  mr_Qcap : Z;
  mr_EMA : F;
  mr_Share : F;
  mr_Ratio : F
}.

Definition major_arc_envelope_main (ns : major_args) : result major_report :=
  let N := ma_N ns in
  L <- flog Lb N ;;
  Qcap <- (if ma_Qcap ns is Some c then Ok c
           else p <- fpow Lb N (f_lit F (2 # 10)) ;; f_to_int p) ;;
  R <- fpow Lb N (ma_Rexp ns) ;;
  let CW := if ma_CW ns is Some cw then cw
            else fmul (f_lit F (2 # 1)) (ma_Wsup ns) in
  s <- for_each (range 2 (Qcap + 1))
         (fun s q =>
            ph <- phi q ;;
            if ph =? 0 then Ok s
            else t <- py_fdiv_int (f_lit F (1 # 1)) (q * ph) ;; Ok (fadd s t))
         (f_lit F (0 # 1)) ;;
  E <- (if String.eqb (ma_model ns) "uniform" then E_uniform N L
        else Ok (E_trivial N L)) ;;
  cw_r <- py_fdiv CW R ;;
  let EMA := fmul (fmul cw_r E) s in
  sk <- py_fdiv (ma_S ns) (fmul (f_lit F (8 # 1)) (ma_K ns)) ;;
  L2 <- fpow Lb L (f_lit F (2 # 1)) ;;
  share <- py_fdiv (fmul sk N) L2 ;;
  ratio <- py_fdiv EMA share ;;
  Ok (MajorReport N Qcap EMA share ratio).

End MajorArc.

(** * Specification-level definitions *)

(** ** Partial totients

    [smooth P n] is the part of [n] made of the primes [<= P], [rough P n]
    the part made of the primes [> P], and [ptot P n] what both the sieve
    and trial division hold for [n] once every prime [<= P] has been
    accounted for. *)

Definition upto (P : nat) : nat_pred := [pred q | (q <= P)%N].

Definition smooth (P n : nat) : nat := (n`_(upto P))%N.
Definition rough (P n : nat) : nat := (n`_(upto P)^')%N.
Definition ptot (P n : nat) : nat := (totient (smooth P n) * rough P n)%N.

(** A list of length [Qn + 1] whose entry [n] is [e n]. *)
Definition table (Qn : nat) (e : nat -> Z) (A : seq Z) : Prop :=
  size A = Qn.+1 /\ forall n, (n <= Qn)%N -> nth 0 A n = e n.

(** Entry [n] of the sieve's table once every [p <= P] has been treated. *)
Definition entry (P n : nat) : Z := if n is O then 0 else Z.of_nat (ptot P n).

(** ** The sums, term by term *)

(** Euler's totient on the integers of the scripts. *)
Definition totZ (q : Z) : Z := Z.of_nat (totient (Z.to_nat q)).

(** One turn of each summation loop, [ph] being what the loop reads for
    the totient of [q]. *)
Definition fraction_step_at (ph : Z) (S : Q) (q : Z) : result Q :=
  t <- Fraction 1 (q * ph) ;; Ok (Fraction_add S t).

Definition decimal_step_at (prec ph : Z) (S : decimal) (q : Z)
    : result decimal :=
  t <- ddiv prec (Decimal 1) (dmul prec (Decimal q) (Decimal ph)) ;;
  Ok (dadd prec S t).

Definition float_step_at (F : float_ops) (ph : Z) (S : F) (q : Z) : result F :=
  t <- py_fdiv_int (f_lit F (1 # 1)) (q * ph) ;; Ok (fadd S t).

(** The same turns with the totient itself. *)
Definition fraction_step (S : Q) (q : Z) : result Q :=
  fraction_step_at (totZ q) S q.

Definition decimal_step (prec : Z) (S : decimal) (q : Z) : result decimal :=
  decimal_step_at prec (totZ q) S q.

Definition float_step (F : float_ops) (S : F) (q : Z) : result F :=
  float_step_at (totZ q) S q.

(** The precisions a context accepts. *)
Definition valid_prec (p : Z) : Prop := 1 <= p <= MAX_PREC.

(** ** The float sum beside a fixed-point floor of the exact sum

    The float sum is carried through the loop over [q] together with the
    sum of the integers [floor (10 ^ 30 / (q * phi q))], which encloses the
    exact sum: after the turns [q = 2 .. Q] the exact sum lies between
    [floor_sum / 10 ^ 30] and [(floor_sum + Q - 1) / 10 ^ 30]. *)

Record fsum : Type := FSum {
  fs_float : float;
  fs_floor : Z
}.

Definition fsum_scale : Z := 10 ^ 30.

Definition fsum_zero : fsum := FSum (f_lit binary64 (0 # 1)) 0.

Definition fsum_step_at (ph : Z) (s : fsum) (q : Z) : result fsum :=
  f <- float_step_at (F := binary64) ph (fs_float s) q ;;
  Ok (FSum f (fs_floor s + fsum_scale / (q * ph))).

(** The turn as it is computed, with the trial-division totient, and as it
    is specified, with the totient itself; they agree. *)
Definition fsum_run_step (s : fsum) (q : Z) : result fsum :=
  ph <- phi q ;; fsum_step_at ph s q.

Definition fsum_step (s : fsum) (q : Z) : result fsum :=
  fsum_step_at (totZ q) s q.

(** [|a - b| < eps], decided. *)
Definition Qlt_bool (a b : Q) : bool :=
  match Qcompare a b with Lt => true | _ => false end.

Definition near_lt (a b eps : Q) : bool :=
  Qlt_bool (a - b) eps && Qlt_bool (b - a) eps.

(** The fixed-point number [z / 10 ^ 30]. *)
Definition fsum_val (z : Z) : Q := Qmake z (Z.to_pos fsum_scale).

(** What one turn from [s] to [s'] at [q] must satisfy: the float sum is a
    finite double within [1e-11] of the floor sum, it grew strictly, and
    the upper end of the enclosure of the exact sum is below [2]. *)
Definition fsum_good (s s' : fsum) (q : Z) : bool :=
  match fval (fs_float s') with
  | Some v =>
      [&& near_lt v (fsum_val (fs_floor s')) (Qmake 1 (Z.to_pos (10 ^ 11))),
          flt_lt (f := binary64) (fs_float s) (fs_float s')
        & fs_floor s' + q <? 2 * fsum_scale]
  | None => false
  end.

(** [k] turns from [q] on, each of them checked. *)
Fixpoint scan {S : Type} (step : S -> Z -> result S)
    (good : S -> S -> Z -> bool) (k : nat) (q : Z) (s : S) : bool :=
  if k is k'.+1 then
    (if step s q is Ok s' then good s s' q && scan step good k' (q + 1) s'
     else false)
  else true.

(** The check of the turns [q = 2 .. k + 1]. *)
Definition fsum_checked (k : nat) : bool :=
  scan fsum_run_step fsum_good k 2 fsum_zero.

(** The run that is checked: the turns [q = 2 .. 10001]. *)
Definition checked_turns : nat := Z.to_nat 10000.

(** ** Rounding errors of the decimals *)

(** [10 ^ e] as a rational, for an exponent of either sign. *)
Definition pw (e : Z) : Q := Qpower (Qmake 10 1) e.

(** The bound on relative errors at precision [prec] is [1 / unit_inv]. *)
Definition unit_inv (prec : Z) : Q := inject_Z (10 ^ (prec - 1)).

(** The decimal sum [D] at precision [prec] and the exact sum [Fr], both at
    [Q = j + 1], with [D] within [6 * j / unit_inv prec] of [Fr]. *)
Definition dreach (prec : Z) (j : nat) (D : decimal) (Fr : Q) : Prop :=
  [/\ for_each (range 2 (2 + Z.of_nat j)) (decimal_step prec) (Decimal 0)
      = Ok D,
      harmonic_sum_fraction (1 + Z.of_nat j) = Ok Fr,
      0 <= dcoeff D,
      (unit_inv prec * (dval D - Fr) <= inject_Z (6 * Z.of_nat j))%Q
    & (unit_inv prec * (Fr - dval D) <= inject_Z (6 * Z.of_nat j))%Q].

(** The float sum and the floor sum after the turns [q = 2 .. j + 1], that
    is at [Q = j + 1]. *)
Definition reach (j : nat) (s : fsum) : Prop :=
  for_each (range 2 (2 + Z.of_nat j)) fsum_step fsum_zero = Ok s.

(** ** The per-q evaluation on an empty table *)

(** The envelope the [except KeyError] branch substitutes. *)
Definition fallback_envelope (F : float_ops) (fallback : string) (N L : F)
    : result F :=
  if String.eqb fallback "uniform" then E_uniform N L else Ok (E_trivial N L).

(** One turn of the loop when every [q] misses: [ema += E / (q * phi(q))]. *)
Definition fallback_step (F : float_ops) (E : F) (ema : F) (q : Z) : result F :=
  t <- py_fdiv_int E (q * totZ q) ;; Ok (fadd ema t).



(** ** What the scripts' libraries never raise *)

(** The conversions to [float], [math.log] and [**] raise [ValueError],
    [OverflowError] or [ZeroDivisionError], never [AssertionError]. *)
Definition no_assertion_error (F : float_ops) (Lb : float_lib F) : Prop :=
  [/\ forall n, f_of_int F n <> Raise AssertionError,
      forall x, flog Lb x <> Raise AssertionError,
      forall x y, fpow Lb x y <> Raise AssertionError
    & forall q, f_of_fraction Lb q <> Raise AssertionError].

(** A library over exact arithmetic: the logarithm and the powers return
    their first argument. *)
Definition plain_lib : float_lib exact_arith :=
  FloatLib (F := exact_arith) (fun x => Ok x) (fun x _ => Ok x)
    (fun q => Ok q) dval (fun _ => Raise ValueError).

(** ** The per-q table *)


(** A table with the one row [q = 3], and a conversion of strings that
    reads every string as [1]. *)
Definition perq_demo_lib : float_lib exact_arith :=
  FloatLib (F := exact_arith)
    (fun _ => Ok (Qmake 43 1)) (fun _ _ => Ok (Qmake 1000 1))
    (fun q => Ok q) dval (fun _ => Ok (Qmake 1 1)).


(** The arguments of [major_arc_envelope] that correspond to those of
    [per_q_envelope]. *)
Definition major_of_perq (F : float_ops) (ns : perq_args F) : major_args F :=
  MajorArgs (ns_N ns) (ns_K ns) (ns_S ns) (ns_Wsup ns) (ns_CW ns)
    (ns_Rexp ns) (Some (ns_Qcap ns)) (ns_fallback ns).

(** An empty table and [Qcap = 5]. *)
Definition perq_small_args : perq_args exact_arith :=
  PerqArgs (F := exact_arith) (Qmake 4000 1) (Qmake 10 1)
    (Qmake 12 10) (Qmake 1 1) None (Qmake 6 10) 5 [::] "uniform".

(** ** The diagnostics *)

(** The decimal sum at [q] and precision [prec], as a value. *)
Definition decimal_sum (prec q : Z) : decimal :=
  if for_each (range 2 (q + 1)) (decimal_step prec) (Decimal 0) is Ok s
  then s else Decimal 0.

(** The table [S_dec[prec]] after the turns [k] of [ks]: the sums at the
    [Q + k >= 1]. *)
Definition sums_around (Qr prec : Z) (ks : seq Z) (d : seq (Z * decimal))
    : seq (Z * decimal) :=
  foldl (fun d k => if Qr + k <? 1 then d
                    else dict_set d (Qr + k) (decimal_sum prec (Qr + k)))
        d ks.

(** The table [deltas] after the turns [k] of [ks]. *)
Definition deltas_of (Qr hi : Z) (ks : seq Z) (d : seq (Z * decimal))
    : seq (Z * decimal) :=
  foldl (fun d k => dict_set d k (dadd hi (decimal_sum hi (Qr + k))
                                          (dneg (decimal_sum hi (Qr + k - 1)))))
        d ks.

(** * Proofs *)

(** ** Partial totients *)

Section PartialTotient.

Local Open Scope nat_scope.


Lemma smooth_rough P n : 0 < n -> smooth P n * rough P n = n.
Proof. exact: partnC. Qed.

Lemma coprime_smooth_rough P n : coprime (smooth P n) (rough P n).
Proof. exact: coprime_partC. Qed.

Lemma smoothS P n : smooth P.+1 n = smooth P n * n`_P.+1.
Proof.
  case: (posnP n) => [->|n_gt0]; first by rw /smooth !partn0.
  rw /smooth -{1}(partnC (upto P) n_gt0) partnM ?part_gt0 //.
  rw -!partnI; congr (_ * _); apply: eq_partn => q; rw !inE.
  - by case: (leqP q P) => // /leqW ->.
  - by rw -ltnNge andbC eqn_leq.
Qed.

Lemma roughS P n : rough P n = n`_P.+1 * rough P.+1 n.
Proof.
  case: (posnP n) => [->|n_gt0]; first by rw /rough !partn0.
  rw /rough -{1}(partnC (upto P.+1) n_gt0) partnM ?part_gt0 //.
  rw -!partnI; congr (_ * _); apply: eq_partn => q; rw !inE.
  - by rw -ltnNge eqn_leq.
  - by rw -!ltnNge; case: (ltnP P.+1 q) => // /ltnW ->.
Qed.



Lemma upto_nat P n : 0 < n -> n <= P -> (upto P).-nat n.
Proof.
  move=> n_gt0 leq_nP; apply/pnatP => // q _ q_dvd.
  by rw inE; apply: leq_trans leq_nP; apply: dvdn_leq.
Qed.

Lemma smooth_id P n : 0 < n -> n <= P -> smooth P n = n.
Proof. by move=> n_gt0 leq_nP; apply: part_pnat_id; apply: upto_nat. Qed.

Lemma rough_id P n : 0 < n -> n <= P -> rough P n = 1.
Proof.
  move=> n_gt0 leq_nP; apply/eqP.
  by rw -(eqn_pmul2l n_gt0) muln1 -{1}(smooth_id n_gt0 leq_nP) smooth_rough.
Qed.

Lemma ptot_final P n : 0 < n -> n <= P -> ptot P n = totient n.
Proof. by move=> n_gt0 leq_nP; rw /ptot smooth_id // rough_id // muln1. Qed.

Lemma smooth1 n : smooth 1 n = 1.
Proof.
  case: (posnP n) => [->|n_gt0]; first by rw /smooth partn0.
  apply: part_p'nat; apply/pnatP => // q q_pr _.
  by rw !inE -ltnNge prime_gt1.
Qed.

Lemma ptot1 n : 0 < n -> ptot 1 n = n.
Proof.
  by move=> n_gt0; rw /ptot -{3}(@smooth_rough 1 n n_gt0) smooth1 mul1n.
Qed.

Lemma ptotS P n :
  0 < n ->
  ptot P.+1 n =
  if prime P.+1 && (P.+1 %| n) then ptot P n - ptot P n %/ P.+1 else ptot P n.
Proof.
  move=> n_gt0; rw /ptot smoothS (roughS P n) p_part.
  have := coprime_smooth_rough P n; rw (roughS P n) p_part coprimeMr.
  case/andP=> co_a_pe _.
  case: ifP => [/andP [p_pr p_dvd]|p_ndvd]; last first.
    by rw lognE n_gt0 p_ndvd expn0 muln1 mul1n.
  have: 0 < logn P.+1 n by rw logn_gt0 mem_primes p_pr n_gt0.
  case: (logn _ _) co_a_pe => // e co_a_pe _.
  rw totient_coprime // totient_pfactor //= expnS.
  set a := totient _; set b := rough _ _; set q := _ ^ _.
  have -> : a * (P.+1 * q * b) = P.+1 * (a * q * b).
    by rw -!mulnA; do !rw (mulnCA a).
  by rw mulKn //= mulSn addKn !mulnA (mulnC a).
Qed.

Lemma totient_ltn n : 1 < n -> totient n < n.
Proof.
  move=> n_gt1; rw totient_count_coprime big_ltn ?(ltnW n_gt1) //.
  rw /coprime gcdn0 (gtn_eqF n_gt1) add0n.
  have := @leq_sum _ (index_iota 1 n) predT (fun d => coprime n d : nat) (fun=> 1).
  rw sum_nat_const_nat muln1 subn1 => le_sum.
  have/le_sum: forall d, true -> coprime n d <= 1 by move=> d _; case: (coprime n d).
  by move/leq_ltn_trans; apply; rw prednK // ltnW.
Qed.

Lemma ptot_test P : 0 < P -> (ptot P P.+1 == P.+1) = prime P.+1.
Proof.
  move=> P_gt0; case p_pr: (prime P.+1).
    have sm1 : smooth P P.+1 = 1.
      by apply: part_p'nat; rw pnatE // !inE ltnn.
    by rw /ptot -{3}(@smooth_rough P P.+1 (ltn0Sn P)) sm1 mul1n eqxx.
  have sm : smooth P P.+1 = P.+1.
    apply: part_pnat_id; apply/pnatP => // q q_pr q_dvd.
    rw inE -ltnS ltn_neqAle dvdn_leq // andbT.
    by apply: contraFN p_pr => /eqP <-.
  have rg : rough P P.+1 = 1.
    by apply/eqP; rw -(@eqn_pmul2l P.+1) // muln1 -{1}sm smooth_rough.
  by rw /ptot sm rg muln1 ltn_eqF // totient_ltn.
Qed.

Lemma rough_nat P n : (upto P)^'.-nat (rough P n).
Proof. exact: part_pnat. Qed.

Lemma rough_gt0 P n : 0 < rough P n.
Proof. exact: part_gt0. Qed.

Lemma rough_prime_dvd P n q : prime q -> q %| rough P n -> P < q.
Proof.
  move=> q_pr q_dvd; have /pnatP := rough_nat P n.
  by move/(_ (rough_gt0 P n) q q_pr q_dvd); rw !inE -ltnNge.
Qed.

Lemma rough_test P n :
  0 < P -> 0 < n -> (P.+1 %| rough P n) = prime P.+1 && (P.+1 %| n).
Proof.
  move=> P_gt0 n_gt0; case p_pr: (prime P.+1) => /=; last first.
    apply/negP => p_dvd; have p_gt1 : 1 < P.+1 by [].
    have := rough_prime_dvd (pdiv_prime p_gt1) (dvdn_trans (pdiv_dvd _) p_dvd).
    have := pdiv_leq (ltn0Sn P); rw leq_eqVlt ltnS => /orP [/eqP pd_eq _|].
      by move: (pdiv_prime p_gt1); rw pd_eq p_pr.
    by move/leq_ltn_trans => lt /lt; rw ltnn.
  apply/idP/idP => [p_dvd|p_dvd].
    exact: dvdn_trans p_dvd (dvdn_part _ _).
  rw roughS p_part.
  have: 0 < logn P.+1 n by rw logn_gt0 mem_primes p_pr n_gt0.
  by case: (logn _ _) => // e _; rw expnS -mulnA dvdn_mulr.
Qed.

Lemma rough_strip P n : rough P.+1 n = rough P n %/ P.+1 ^ logn P.+1 n.
Proof. by rw (roughS P n) p_part mulKn // expn_gt0. Qed.

Lemma rough_small P n :
  rough P n < P.+1 ^ 2 -> rough P n = 1 \/ prime (rough P n).
Proof.
  move=> x_lt; case: (ltnP 1 (rough P n)) => [x_gt1|]; last first.
    by rw leq_eqVlt ltnS leqNgt rough_gt0 orbF => /eqP; left.
  right; apply: ltn_pdiv2_prime; first exact: rough_gt0.
  apply: leq_trans x_lt _; rw leq_exp2r //.
  by apply: rough_prime_dvd (pdiv_dvd _); apply: pdiv_prime.
Qed.

Lemma ptot_last P n :
  0 < n -> prime (rough P n) ->
  ptot P n - ptot P n %/ rough P n = totient n.
Proof.
  move=> n_gt0 x_pr; rw /ptot mulnK ?rough_gt0 //.
  rw -{4}(@smooth_rough P n n_gt0) totient_coprime ?coprime_smooth_rough //.
  by rw (totient_prime x_pr) -{1}(prednK (rough_gt0 P n)) mulnS addKn.
Qed.

Lemma ptot_last1 P n : 0 < n -> rough P n = 1 -> ptot P n = totient n.
Proof.
  by move=> n_gt0 x1; rw /ptot -{3}(@smooth_rough P n n_gt0) x1 !muln1.
Qed.


End PartialTotient.

(** ** Bridging [nat] and [Z] *)

Lemma Z_of_nat_muln (m n : nat) : Z.of_nat (m * n) = Z.of_nat m * Z.of_nat n.
Proof. by rw -multE Nat2Z.inj_mul. Qed.

Lemma Z_of_nat_addn (m n : nat) : Z.of_nat (m + n) = Z.of_nat m + Z.of_nat n.
Proof. by rw -plusE Nat2Z.inj_add. Qed.

Lemma Z_of_nat_subn (m n : nat) :
  (n <= m)%N -> Z.of_nat (m - n) = Z.of_nat m - Z.of_nat n.
Proof. by move/leP => le_nm; rw -minusE Nat2Z.inj_sub. Qed.

Lemma Z_of_nat_leq (m n : nat) : (m <= n)%N <-> Z.of_nat m <= Z.of_nat n.
Proof. by split=> [/leP /Nat2Z.inj_le|/Nat2Z.inj_le /leP]. Qed.

Lemma Z_of_nat_ltn (m n : nat) : (m < n)%N <-> Z.of_nat m < Z.of_nat n.
Proof. by split=> [/ltP /Nat2Z.inj_lt|/Nat2Z.inj_lt /ltP]. Qed.

Lemma Z_of_nat_divmod (m d : nat) :
  (0 < d)%N ->
  Z.of_nat (m %/ d) = Z.of_nat m / Z.of_nat d /\
  Z.of_nat (m %% d) = Z.of_nat m mod Z.of_nat d.
Proof.
  move=> d_gt0.
  have /Z_of_nat_ltn lt_r := ltn_pmod m d_gt0.
  have := congr1 Z.of_nat (divn_eq m d); rw Z_of_nat_addn Z_of_nat_muln => eq_m.
  have d_pos : 0 < Z.of_nat d by lia.
  have [] := Z.div_mod_unique (Z.of_nat d) (Z.of_nat (m %/ d))
      (Z.of_nat m / Z.of_nat d) (Z.of_nat (m %% d)) (Z.of_nat m mod Z.of_nat d).
  - left; lia.
  - left; apply: Z.mod_pos_bound; lia.
  - rw -Z.div_mod; lia.
  - by move=> -> ->.
Qed.

Lemma Z_of_nat_divn (m d : nat) :
  (0 < d)%N -> Z.of_nat (m %/ d) = Z.of_nat m / Z.of_nat d.
Proof. by case/(Z_of_nat_divmod m). Qed.

Lemma Z_of_nat_dvdn (m d : nat) :
  (0 < d)%N -> (Z.of_nat m mod Z.of_nat d =? 0) = (d %| m)%N.
Proof.
  move=> d_gt0; have [_ <-] := Z_of_nat_divmod m d_gt0.
  rw /dvdn; case: eqP => [->|ne0]; first exact/Z.eqb_eq.
  apply/Z.eqb_neq => /(Nat2Z.inj _ 0%N); exact: ne0.
Qed.

Lemma Z_of_nat_eqn (m n : nat) : (Z.of_nat m =? Z.of_nat n) = (m == n).
Proof.
  case: eqP => [->|ne]; first exact: Z.eqb_refl.
  by apply/Z.eqb_neq => /Nat2Z.inj.
Qed.

(** ** Loops over [range] *)

Lemma for_each_iota (A S : Type) (I : nat -> S -> Prop) (f : nat -> A)
    (m : nat) (body : S -> A -> result S) (s0 : S) :
  I 0%N s0 ->
  (forall i s, (i < m)%N -> I i s -> exists2 s', body s (f i) = Ok s' & I i.+1 s') ->
  exists2 s', for_each [seq f i | i <- iota 0 m] body s0 = Ok s' & I m s'.
Proof.
  move=> I0 step.
  suff gen : forall k a s, (a + k = m)%N -> I a s ->
      exists2 s', for_each [seq f i | i <- iota a k] body s = Ok s' & I m s'.
    exact: (gen m 0%N).
  elim=> [|k IH] a s /=; first by rw addn0 => <-; exists s.
  rw addnS => eq_m Ia.
  have [|s' -> Ia'] /= := step a s _ Ia; first by rw -eq_m ltnS leq_addr.
  exact: IH.
Qed.

(** ** The integer root *)

Lemma pow_ge_base (h k : Z) : 1 <= h -> 1 <= k -> h <= h ^ k.
Proof.
  move=> Hh Hk.
  have -> : k = Z.succ (k - 1) by lia.
  rw Z.pow_succ_r; first lia.
  have : 0 < h ^ (k - 1) by apply: Z.pow_pos_nonneg; lia.
  nia.
Qed.

Lemma root_doubleE (fuel : nat) (n k hi : Z) :
  root_double fuel n k hi =
  if hi ^ k <=? n then
    (if fuel is S fuel' then root_double fuel' n k (2 * hi) else Diverge)
  else Ok hi.
Proof.
  have E : Z.shiftl hi 1 = 2 * hi by rw Z.shiftl_mul_pow2; lia.
  by case: fuel => [|f]; rw /= -/(Z.shiftl hi 1) ?E.
Qed.

Lemma root_double_spec (fuel : nat) (n k hi : Z) :
  1 <= k -> 1 <= hi -> n < hi * 2 ^ Z.of_nat fuel ->
  exists hi', [/\ root_double fuel n k hi = Ok hi', 1 <= hi' & n < hi' ^ k].
Proof.
  move=> Hk; elim: fuel hi => [|f IH] hi Hhi Hn; rw root_doubleE.
  - case: Z.leb_spec => H; last by exists hi.
    have := pow_ge_base Hhi Hk. rw Z.pow_0_r in Hn. lia.
  - case: Z.leb_spec => H; last by exists hi.
    rw Nat2Z.inj_succ Z.pow_succ_r in Hn; first lia.
    apply: IH; lia.
Qed.

Lemma root_bisect_spec (fuel : nat) (n k lo hi : Z) :
  1 <= k -> 0 <= lo < hi -> lo ^ k <= n < hi ^ k -> hi - lo <= 2 ^ Z.of_nat fuel ->
  exists r, [/\ root_bisect fuel n k lo hi = Ok r, 0 <= r & r ^ k <= n < (r + 1) ^ k].
Proof.
  move=> Hk; elim: fuel lo hi => [|f IH] lo hi Hlh Hn Hw /=.
  - rw Z.pow_0_r in Hw.
    have -> : (hi - lo >? 1) = false by lia.
    exists lo; split=> //; first lia.
    by have -> : lo + 1 = hi by lia.
  - case E: (hi - lo >? 1); last first.
      exists lo; split=> //; first lia.
      by have -> : lo + 1 = hi by lia.
    rw Nat2Z.inj_succ Z.pow_succ_r in Hw; first lia.
    have Hm : lo < (lo + hi) / 2 < hi.
      have := Z_div_mod_eq_full (lo + hi) 2.
      have := Z.mod_pos_bound (lo + hi) 2. lia.
    have Hm2 : 2 * ((lo + hi) / 2) <= lo + hi <= 2 * ((lo + hi) / 2) + 1.
      have := Z_div_mod_eq_full (lo + hi) 2.
      have := Z.mod_pos_bound (lo + hi) 2. lia.
    case: Z.leb_spec => H; apply: IH; lia.
Qed.

Lemma root_unique (n k r r' : Z) :
  1 <= k -> 0 <= r -> 0 <= r' ->
  r ^ k <= n < (r + 1) ^ k -> r' ^ k <= n < (r' + 1) ^ k -> r' = r.
Proof.
  move=> Hk Hr Hr' H H'.
  case: (Z.lt_trichotomy r r') => [Hlt|[->//|Hlt]].
  - have : (r + 1) ^ k <= r' ^ k by apply: Z.pow_le_mono_l; lia.
    lia.
  - have : (r' + 1) ^ k <= r ^ k by apply: Z.pow_le_mono_l; lia.
    lia.
Qed.

Lemma int_nth_root_floor_correct (n k : Z) :
  0 <= n -> 1 <= k ->
  [/\ exists r, [/\ int_nth_root_floor n k = Ok r, 0 <= r,
                    r ^ k <= n < (r + 1) ^ k
                  & forall r', 0 <= r' -> r' ^ k <= n < (r' + 1) ^ k -> r' = r],
      int_nth_root_floor 0 k = Ok 0
    & int_nth_root_floor 1 k = Ok 1].
Proof.
  move=> Hn Hk.
  have Hg : (k <=? 0) = false by lia.
  split; last first.
  - by rw /int_nth_root_floor Hg.
  - by rw /int_nth_root_floor Hg.
  suff [r [E Hr Hb]] : exists r, [/\ int_nth_root_floor n k = Ok r, 0 <= r
                                   & r ^ k <= n < (r + 1) ^ k].
    exists r; split=> // r' Hr' Hb'; exact: (@root_unique n k).
  have Hg' : (n <? 0) || (k <=? 0) = false by rw Hg orbF; lia.
  rw /int_nth_root_floor Hg'.
  case: Z.ltb_spec => Hn2.
    exists n; split=> //.
    have [->|->] : n = 0 \/ n = 1 by lia.
    - rw Z.pow_0_l; first lia. split; first lia. have : 0 < 1 ^ k by apply: Z.pow_pos_nonneg; lia. rw Z.add_0_l. lia.
    - rw Z.pow_1_l; first lia. split; first lia.
      have := @pow_ge_base 2 k. rw -[1 + 1]/2. lia.
  have Hlog := Z.log2_spec n.
  have [hi [-> Hhi Hnhi]] : exists hi',
      [/\ root_double (S (Z.to_nat (Z.log2 n))) n k 1 = Ok hi', 1 <= hi' & n < hi' ^ k].
    apply: root_double_spec => //.
    rw Nat2Z.inj_succ Z2Nat.id; first exact: Z.log2_nonneg.
    rw Z.mul_1_l; lia.
  rw /bind; apply: root_bisect_spec => //; first lia.
  - rw Z.pow_0_l; lia.
  - rw Nat2Z.inj_succ Z2Nat.id; first exact: Z.log2_nonneg.
    have := Z.log2_spec hi. lia.
Qed.

(** ** The sieve *)

Lemma bind_Ok (A B : Type) (a : A) (f : A -> result B) : bind (Ok a) f = f a.
Proof. by []. Qed.


Lemma py_index_nat (len n : nat) :
  (n < len)%N -> py_index (Z.of_nat len) (Z.of_nat n) = Ok n.
Proof.
  move/Z_of_nat_ltn => lt_n; rw /py_index.
  have -> : (Z.of_nat n <? 0) = false by lia.
  have -> : (0 <=? Z.of_nat n) && (Z.of_nat n <? Z.of_nat len) = true by lia.
  by rw Nat2Z.id.
Qed.

Lemma getitem_table (Qn : nat) (e : nat -> Z) (A : seq Z) (n : nat) :
  table Qn e A -> (n <= Qn)%N -> getitem A (Z.of_nat n) = Ok (e n).
Proof.
  by case=> sz ent le_n; rw /getitem py_index_nat ?sz ?ltnS //= ent.
Qed.

Lemma setitem_table (Qn : nat) (e : nat -> Z) (A : seq Z) (n : nat) (v : Z) :
  table Qn e A -> (n <= Qn)%N ->
  exists2 A', setitem A (Z.of_nat n) v = Ok A'
            & table Qn (fun m => if m == n then v else e m) A'.
Proof.
  case=> sz ent le_n; exists (set_nth 0 A n v).
    by rw /setitem py_index_nat ?sz ?ltnS.
  split=> [|m le_m]; first by rw size_set_nth sz; apply/maxn_idPr.
  by rw nth_set_nth /=; case: eqP => // _; apply: ent.
Qed.

Lemma table_ext (Qn : nat) (e e' : nat -> Z) (A : seq Z) :
  (forall n, (n <= Qn)%N -> e n = e' n) -> table Qn e A -> table Qn e' A.
Proof. by move=> ee' [sz ent]; split=> // n le_n; rw ent // ee'. Qed.

Lemma range_step_multiples (Qn pn : nat) :
  (0 < pn)%N ->
  range_step (Z.of_nat pn) (Z.of_nat Qn + 1) (Z.of_nat pn)
  = [seq Z.of_nat (i.+1 * pn) | i <- iota 0 (Qn %/ pn)].
Proof.
  move=> p_gt0; rw /range_step.
  have -> : Z.of_nat Qn + 1 - Z.of_nat pn + Z.of_nat pn - 1 = Z.of_nat Qn by lia.
  rw -Z_of_nat_divn // Nat2Z.id; apply: eq_map => i.
  rw Z_of_nat_muln -addn1 Z_of_nat_addn; lia.
Qed.

Lemma sieve_strike_table (Qn pn : nat) (e : nat -> Z) (A : seq Z) :
  (0 < pn)%N -> table Qn e A ->
  exists2 A', sieve_strike (Z.of_nat Qn) (Z.of_nat pn) A = Ok A'
            & table Qn (fun n => if (pn %| n)%N && (0 < n)%N
                                 then e n - e n / Z.of_nat pn else e n) A'.
Proof.
  move=> p_gt0 tA; rw /sieve_strike range_step_multiples //.
  pose I (i : nat) := table Qn (fun n =>
    if [&& (pn %| n)%N, (0 < n)%N & (n <= i * pn)%N]
    then e n - e n / Z.of_nat pn else e n).
  have [||A' -> tA'] := @for_each_iota _ _ I (fun i => Z.of_nat (i.+1 * pn)%N)
      (Qn %/ pn)%N
      (fun phi k => v <- getitem phi k ;; setitem phi k (v - v / Z.of_nat pn)) A.
  - apply: table_ext tA => n _; rw mul0n leqn0.
    by case: n => [|n]; rw ?andbF //= andbF.
  - move=> i B lt_i tB.
    have le_k : (i.+1 * pn <= Qn)%N by rw -leq_divRL.
    rw (getitem_table tB le_k) /=.
    have -> : [&& (pn %| i.+1 * pn)%N, (0 < i.+1 * pn)%N
                 & (i.+1 * pn <= i * pn)%N] = false.
      by rw leq_pmul2r // ltnn !andbF.
    have [B' -> tB'] := setitem_table (e (i.+1 * pn)%N
        - e (i.+1 * pn)%N / Z.of_nat pn) tB le_k.
    exists B' => //; apply: table_ext tB' => n le_n.
    case: eqP => [->|ne_n]; first by rw dvdn_mull // muln_gt0 p_gt0 leqnn.
    case dv: (pn %| n)%N => //=; case n_gt0: (0 < n)%N => //=.
    rw [in RHS]leq_eqVlt.
    suff -> : (n < i.+1 * pn)%N = (n <= i * pn)%N.
      by case: eqP => // /ne_n.
    case/dvdnP: dv ne_n => j -> _.
    by rw ltn_pmul2r // leq_pmul2r.
  - exists A' => //; apply: table_ext tA' => n le_n.
    case dv: (pn %| n)%N => //=; case n_gt0: (0 < n)%N => //=.
    suff -> : (n <= Qn %/ pn * pn)%N by [].
    by case/dvdnP: dv le_n => j ->; rw leq_pmul2r // leq_divRL.
Qed.

Lemma range_from (a : Z) (m : nat) :
  range a (a + Z.of_nat m) = [seq a + Z.of_nat i | i <- iota 0 m].
Proof. by rw /range Z.add_simpl_l Nat2Z.id. Qed.

Lemma sieve_body_table (Qn P : nat) (A : seq Z) :
  (0 < P)%N -> (P < Qn)%N -> table Qn (entry P) A ->
  exists2 A', sieve_body (Z.of_nat Qn) A (Z.of_nat P.+1) = Ok A'
            & table Qn (entry P.+1) A'.
Proof.
  move=> P_gt0 lt_P tA; rw /sieve_body (getitem_table tA lt_P) bind_Ok.
  rw [entry _ _]/= Z_of_nat_eqn ptot_test //.
  case p_pr: (prime P.+1).
    have [//|A' -> tA'] := sieve_strike_table (pn := P.+1) _ tA.
    exists A' => //; apply: table_ext tA' => -[|n] _ //.
    rw andbT /entry ptotS // p_pr /=; case: ifP => // dv.
    rw -[Z.pos _]/(Z.of_nat P.+1) -Z_of_nat_divn // Z_of_nat_subn //; exact: leq_div.
  exists A => //; apply: table_ext tA => -[|n] _ //.
  by rw /entry ptotS // p_pr.
Qed.

Lemma sieve_loops_table (Qn : nat) :
  exists2 A, sieve_loops (Z.of_nat Qn) = Ok A
           & table Qn (fun n => Z.of_nat (totient n)) A.
Proof.
  rw /sieve_loops.
  have -> : range 0 (Z.of_nat Qn + 1) = [seq Z.of_nat i | i <- iota 0 Qn.+1].
    have -> : Z.of_nat Qn + 1 = 0 + Z.of_nat Qn.+1 by lia.
    by rw range_from.
  have -> : range 2 (Z.of_nat Qn + 1) = [seq Z.of_nat i.+2 | i <- iota 0 Qn.-1].
    rw /range; have -> : Z.to_nat (Z.of_nat Qn + 1 - 2) = Qn.-1.
      by case: Qn => [|Qn] //; rw -[RHS]Nat2Z.id; congr Z.to_nat; lia.
    by apply: eq_map => i; lia.
  have [||A -> tA] := @for_each_iota _ _ (fun i => table Qn (entry i.+1))
      (fun i => Z.of_nat i.+2) Qn.-1 (sieve_body (Z.of_nat Qn))
      [seq Z.of_nat i | i <- iota 0 Qn.+1].
  - split=> [|n le_n]; first by rw size_map size_iota.
    rw (nth_map 0%N) ?size_iota ?ltnS // nth_iota ?ltnS // add0n.
    by case: n le_n => // n _; rw /entry ptot1.
  - move=> i A lt_i; apply: sieve_body_table => //.
    by case: Qn lt_i.
  - exists A => //; apply: table_ext tA => -[|n] le_n //.
    rw /entry ptot_final //; apply: leq_trans le_n _.
    by case: Qn.
Qed.

Lemma sieve_phi_table (Qn : nat) :
  exists2 A, sieve_phi (Z.of_nat Qn) = Ok A
           & table Qn (fun n => Z.of_nat (totient n)) A.
Proof.
  rw /sieve_phi; have -> : (Z.of_nat Qn <? 0) = false by apply/Z.ltb_ge; lia.
  exact: sieve_loops_table.
Qed.

Lemma getitem_totient (Qn n : nat) (A : seq Z) :
  table Qn (fun n => Z.of_nat (totient n)) A -> (n <= Qn)%N ->
  getitem A (Z.of_nat n) = Ok (Z.of_nat (totient n)).
Proof. by move=> tA le_n; rw (getitem_table tA le_n). Qed.


(** ** Trial division *)

Lemma Z_of_nat_expn (m e : nat) : Z.of_nat (m ^ e) = Z.of_nat m ^ Z.of_nat e.
Proof.
  elim: e => [|e IH]; first by rw expn0.
  by rw expnS Z_of_nat_muln IH Nat2Z.inj_succ Z.pow_succ_r; first exact: Nat2Z.is_nonneg.
Qed.

Lemma logn_log2 (p x : nat) :
  (0 < x)%N -> (logn p x <= Z.to_nat (Z.log2 (Z.of_nat x)))%N.
Proof.
  move=> x_gt0; case p_pr: (prime p); last by rw lognE p_pr.
  have le_x : (2 ^ logn p x <= x)%N.
    apply: (@leq_trans (p ^ logn p x)).
      by case: (logn p x) => // e; rw leq_exp2r // prime_gt1.
    by apply: dvdn_leq => //; apply: pfactor_dvdnn.
  have x_pos : 0 < Z.of_nat x by apply/(Z_of_nat_ltn 0).
  have [_ lt_x] := Z.log2_spec _ x_pos.
  move/Z_of_nat_leq: le_x; rw Z_of_nat_expn => le_x.
  have lt_e : 2 ^ Z.of_nat (logn p x) < 2 ^ Z.succ (Z.log2 (Z.of_nat x)) by lia.
  apply/Z_of_nat_leq; rw Z2Nat.id; first exact: Z.log2_nonneg.
  have Hl := Z.log2_nonneg (Z.of_nat x).
  have H1 : 1 < 2 by [].
  have H2 : 0 <= Z.succ (Z.log2 (Z.of_nat x)) by lia.
  have := proj2 (Z.pow_lt_mono_r_iff 2 _ _ H1 H2) lt_e; lia.
Qed.

Lemma strip_factorE (fuel : nat) (x p : Z) :
  strip_factor fuel x p =
  if x mod p =? 0 then
    (if fuel is S fuel' then strip_factor fuel' (x / p) p else Diverge)
  else Ok x.
Proof. by case: fuel. Qed.

Lemma strip_factor_spec (fuel p x : nat) :
  prime p -> (0 < x)%N -> (logn p x <= fuel)%N ->
  strip_factor fuel (Z.of_nat x) (Z.of_nat p)
  = Ok (Z.of_nat (x %/ p ^ logn p x)).
Proof.
  move=> p_pr; have p_gt0 := prime_gt0 p_pr.
  elim: fuel x => [|f IH] x x_gt0.
    rw strip_factorE.
    rw lognE p_pr x_gt0.
    rw [true && _]/=.
    rw Z_of_nat_dvdn; first by [].
    case: ifP => [//|_ _].
    by rw expn0 divn1.
  rw strip_factorE lognE p_pr x_gt0 [true && _]/= Z_of_nat_dvdn; first by [].
  case: ifP => [dv|_ _]; last by rw expn0 divn1.
  rw ltnS => le_f.
  rw -Z_of_nat_divn; first by [].
  rw IH.
  - by rw divn_gt0 // dvdn_leq.
  - by [].
  by rw expnS divnMA.
Qed.

Lemma logn_rough P n :
  prime P.+1 -> (0 < n)%N -> logn P.+1 (rough P n) = logn P.+1 n.
Proof.
  move=> p_pr n_gt0; rw (roughS P n) p_part.
  rw lognM ?expn_gt0 ?rough_gt0 // pfactorK // [X in (_ + X)%N]logn_coprime ?addn0 //.
  rw prime_coprime //; apply/negP => /(rough_prime_dvd p_pr).
  by rw ltnn.
Qed.

Lemma not_prime_step P n :
  (0 < n)%N -> ~~ prime P.+1 ->
  rough P.+1 n = rough P n /\ ptot P.+1 n = ptot P n.
Proof.
  move=> n_gt0 /negbTE p_npr; rw ptotS // p_npr; split=> //.
  by rw (roughS P n) p_part lognE p_npr expn0 mul1n.
Qed.

Lemma phi_loopE (fuel : nat) (x r p : Z) :
  phi_loop fuel x r p =
  if p * p <=? x then
    (if fuel is S fuel' then
       xr <- (if x mod p =? 0 then
                x' <- strip_factor (Z.to_nat (Z.log2 x)) x p ;;
                Ok (x', r - r / p)
              else Ok (x, r)) ;;
       phi_loop fuel' xr.1 xr.2 (p + (if p =? 2 then 1 else 2))
     else Diverge)
  else Ok (x, r).
Proof. by case: fuel. Qed.

Lemma phi_body_spec (P n : nat) :
  (0 < n)%N -> (0 < P)%N ->
  (if Z.of_nat (rough P n) mod Z.of_nat P.+1 =? 0 then
     x' <- strip_factor (Z.to_nat (Z.log2 (Z.of_nat (rough P n))))
             (Z.of_nat (rough P n)) (Z.of_nat P.+1) ;;
     Ok (x', Z.of_nat (ptot P n) - Z.of_nat (ptot P n) / Z.of_nat P.+1)
   else Ok (Z.of_nat (rough P n), Z.of_nat (ptot P n)))
  = Ok (Z.of_nat (rough P.+1 n), Z.of_nat (ptot P.+1 n)).
Proof.
  move=> n_gt0 P_gt0; rw Z_of_nat_dvdn; first by [].
  rw rough_test; [by []|by []|]; rw ptotS; first by [].
  case: ifP => [/andP [p_pr dv]|pf]; last first.
    by rw (roughS P n) p_part lognE n_gt0 [true && _]/= pf expn0 mul1n.
  rw strip_factor_spec; [by []|exact: rough_gt0|exact/logn_log2/rough_gt0|].
  rw bind_Ok logn_rough; [by []|by []|]; rw -rough_strip.
  rw -Z_of_nat_divn; first by [].
  by rw Z_of_nat_subn; first exact: leq_div.
Qed.

Lemma rough_le (P n : nat) : (0 < n)%N -> Z.of_nat (rough P n) <= Z.of_nat n.
Proof.
  by move=> n_gt0; apply/Z_of_nat_leq; apply: dvdn_leq; last exact: dvdn_part.
Qed.

Lemma phi_loop_spec (fuel P n : nat) :
  (0 < n)%N -> (0 < P)%N -> (P == 1%N) || odd P.+1 ->
  Z.sqrt (Z.of_nat n) < Z.of_nat fuel + Z.of_nat P.+1 ->
  exists2 P', phi_loop fuel (Z.of_nat (rough P n)) (Z.of_nat (ptot P n))
                (Z.of_nat P.+1)
              = Ok (Z.of_nat (rough P' n), Z.of_nat (ptot P' n))
            & (rough P' n < P'.+1 ^ 2)%N.
Proof.
  move=> n_gt0; elim: fuel P => [|f IH] P P_gt0 P_odd Hf;
    have le_x := @rough_le P n n_gt0; rw phi_loopE;
    case: Z.leb_spec => Hpx.
  - have /Z.sqrt_le_square : Z.of_nat P.+1 * Z.of_nat P.+1 <= Z.of_nat n by lia.
    lia.
  - by exists P; last by apply/Z_of_nat_ltn; rw Z_of_nat_expn Z.pow_2_r.
  - rw phi_body_spec; [by []|by []|]; rw bind_Ok.
    have -> : (Z.of_nat P.+1 =? 2) = (P == 1%N).
      by rw -[2]/(Z.of_nat 2) Z_of_nat_eqn.
    case/orP: P_odd => [/eqP P1|P_odd].
      rw P1 eqxx -[Z.of_nat 2 + 1]/(Z.of_nat 3).
      by apply: IH; [| |rw P1 in Hf; lia].
    have P_ne1 : (P == 1%N) = false by case: eqP P_odd => // ->.
    rw P_ne1 -[2]/(Z.of_nat 2) -Z_of_nat_addn addn2.
    have [| <- <-] := @not_prime_step P.+1 n n_gt0.
      apply/negP => p_pr; have : ~~ odd P.+2 by rw /= negbK.
      by move/(prime_oddPn p_pr) => [P0]; rw P0 in P_gt0.
    apply: IH; [by []|by move: P_odd; rw /= negbK => ->|lia].
  - by exists P; last by apply/Z_of_nat_ltn; rw Z_of_nat_expn Z.pow_2_r.
Qed.
Lemma phi_totient (n : nat) : phi (Z.of_nat n) = Ok (Z.of_nat (totient n)).
Proof.
  case: (posnP n) => [->|n_gt0]; first by [].
  have [|P' E lt_x] :=
    @phi_loop_spec (Z.to_nat (Z.sqrt (Z.of_nat n))) 1 n n_gt0 isT isT.
    rw Z2Nat.id; first exact: Z.sqrt_nonneg. lia.
  have rough1 : rough 1 n = n.
    by rw -[RHS](@smooth_rough 1 n n_gt0) smooth1 mul1n.
  move: E; rw ptot1; first by [].
  rw rough1 /phi => ->; rw bind_Ok.
  case: (rough_small lt_x) => [x1|x_pr].
    by rw x1 ptot_last1.
  have /ltP/Nat2Z.inj_lt/Z.gtb_lt -> := prime_gt1 x_pr.
  rw -Z_of_nat_divn; first exact: rough_gt0.
  rw -Z_of_nat_subn; first exact: leq_div.
  by rw ptot_last.
Qed.

(** ** Loops, one turn more *)

Lemma for_each_range_ext (S : Type) (a b : Z) (body body' : S -> Z -> result S)
    (s : S) :
  (forall s x, a <= x < b -> body s x = body' s x) ->
  for_each (range a b) body s = for_each (range a b) body' s.
Proof.
  rw /range => ext.
  have: forall i, (0 <= i)%N -> (i < 0 + Z.to_nat (b - a))%N ->
      forall s, body s (a + Z.of_nat i) = body' s (a + Z.of_nat i).
    by move=> i _; rw add0n => /ltP lt_i s'; apply: ext; lia.
  move: (Z.to_nat _) 0%N s => m; elim: m => [|m IH] j s ext' //=.
  rw ext' ?leqnn ?addnS ?ltnS ?leq_addr //.
  case: (body' _ _) => //= s'; apply: IH => i le_i lt_i.
  by apply: ext'; [exact: ltnW|rw addnS -addSn].
Qed.

Lemma range_rcons (a b : Z) : a <= b -> range a (b + 1) = rcons (range a b) b.
Proof.
  move=> le_ab; rw /range.
  have -> : Z.to_nat (b + 1 - a) = (Z.to_nat (b - a)).+1 by lia.
  rw -[in LHS]addn1 iotaD map_cat /= add0n cats1; congr rcons.
  by rw Z2Nat.id; lia.
Qed.

Lemma for_each_rcons (A S : Type) (xs : seq A) (x : A)
    (body : S -> A -> result S) (s : S) :
  for_each (rcons xs x) body s = (s' <- for_each xs body s ;; body s' x).
Proof.
  elim: xs s => [|y xs IH] s /=; first by case: (body s x).
  by case: (body s y) => //= s'.
Qed.

Lemma range_empty (a b : Z) : b <= a -> range a b = [::].
Proof. by move=> le_ba; rw /range (_ : Z.to_nat _ = 0%N) //; lia. Qed.

Lemma totZ_pos (q : Z) : 1 <= q -> 0 < totZ q.
Proof.
  move=> q_ge1; apply/(Z_of_nat_ltn 0); rw totient_gt0; apply/ltP; lia.
Qed.

Lemma getitem_totZ (Qn : nat) (A : seq Z) (q : Z) :
  table Qn (fun n => Z.of_nat (totient n)) A -> 0 <= q <= Z.of_nat Qn ->
  getitem A q = Ok (totZ q).
Proof.
  move=> tA [q_ge0 q_le]; rw -{1}(Z2Nat.id q q_ge0).
  by apply: getitem_totient tA _; apply/leP; lia.
Qed.

(** ** The exact sum *)

Lemma harmonic_sum_fractionE (Qz : Z) :
  0 <= Qz ->
  harmonic_sum_fraction Qz
  = for_each (range 2 (Qz + 1)) fraction_step (Qmake 0 1).
Proof.
  move=> Q_ge0; rw /harmonic_sum_fraction.
  have -> : (Qz <? 0) = false by apply/Z.ltb_ge.
  rw -{1}(Z2Nat.id Qz Q_ge0); have [A -> tA] := sieve_phi_table (Z.to_nat Qz).
  rw bind_Ok; apply: for_each_range_ext => s q [q_ge2 q_lt].
  by rw (getitem_totZ tA); first lia.
Qed.

Lemma harmonic_sum_fractionS (Qz : Z) :
  1 <= Qz ->
  harmonic_sum_fraction (Qz + 1)
  = (s <- harmonic_sum_fraction Qz ;; fraction_step s (Qz + 1)).
Proof.
  move=> Q_ge1; rw !harmonic_sum_fractionE; [lia|lia|].
  by rw range_rcons ?for_each_rcons; first lia.
Qed.

Lemma fraction_step_spec (s : Q) (q : Z) :
  1 <= q ->
  exists s', [/\ fraction_step s q = Ok s',
                 (s' == s + Qmake 1 (Z.to_pos (q * totZ q)))%Q
               & (s < s')%Q].
Proof.
  move=> q_ge1; have tot_pos := totZ_pos q_ge1.
  have d_pos : 0 < q * totZ q by lia.
  rw /fraction_step /fraction_step_at /Fraction.
  have -> : (q * totZ q =? 0) = false by apply/Z.eqb_neq; lia.
  rw bind_Ok; eexists; split; first by [].
  - rw /Fraction_add Qred_correct Qred_correct Z.sgn_pos; first lia.
    by rw Z.abs_eq; first lia.
  - rw /Fraction_add Qred_correct Qred_correct Z.sgn_pos; first lia.
    by rw -{1}(Qplus_0_r s); apply/Qplus_lt_r.
Qed.

Lemma harmonic_sum_fraction_total (Qn : nat) :
  exists s, harmonic_sum_fraction (Z.of_nat Qn) = Ok s.
Proof.
  elim: Qn => [|[|Qn] [s IH]]; try by exists (Qmake 0 1); vm_compute.
  have [s' [E _ _]] := @fraction_step_spec s (Z.of_nat Qn.+1 + 1) ltac:(lia).
  exists s'; rw Nat2Z.inj_succ -Z.add_1_r harmonic_sum_fractionS; first lia.
  by rw IH bind_Ok E.
Qed.

Lemma harmonic_sum_fraction_step (Qz : Z) :
  1 <= Qz ->
  exists s s', [/\ harmonic_sum_fraction Qz = Ok s,
                   harmonic_sum_fraction (Qz + 1) = Ok s'
                 & (s < s')%Q].
Proof.
  move=> Q_ge1; have Q_ge0 : 0 <= Qz by lia.
  have [s Es] := harmonic_sum_fraction_total (Z.to_nat Qz).
  rw Z2Nat.id in Es; first by [].
  have [s' [E _ lt_s]] := @fraction_step_spec s (Qz + 1) ltac:(lia).
  by exists s, s'; split=> //; rw harmonic_sum_fractionS // Es bind_Ok.
Qed.

Lemma Fraction_ltP (a b : Q) : Fraction_lt a b = true <-> (a < b)%Q.
Proof. by rw /Fraction_lt Qlt_alt; case: Qcompare. Qed.

Lemma harmonic_sum_fraction_mono (Q1 : Z) (d : nat) :
  1 <= Q1 ->
  exists s1 s2, [/\ harmonic_sum_fraction Q1 = Ok s1,
                    harmonic_sum_fraction (Q1 + Z.of_nat d.+1) = Ok s2
                  & (s1 < s2)%Q].
Proof.
  move=> Q_ge1; elim: d => [|d [s1 [s2 [E1 E2 lt12]]]].
    exact: harmonic_sum_fraction_step.
  have [|s2' [s3 [E2' E3 lt23]]] := @harmonic_sum_fraction_step (Q1 + Z.of_nat d.+1).
    by lia.
  exists s1, s3; split=> //.
  - by rw -E3; congr harmonic_sum_fraction; lia.
  - move: E2'; rw E2 => -[eq_s]; rw -eq_s in lt23.
    exact: Qlt_trans lt12 lt23.
Qed.

(** ** Decimals *)

Lemma ndigits_upE (fuel : nat) (c n p : Z) :
  ndigits_up fuel c n p =
  if fuel is S fuel' then
    (if c <? p then n else ndigits_up fuel' c (n + 1) (10 * p))
  else n.
Proof. by case: fuel. Qed.

Lemma pow2_le_pow10 (n : Z) : 0 <= n -> 2 ^ n <= 10 ^ n.
Proof. by move=> n_ge0; apply: Z.pow_le_mono_l; lia. Qed.

Lemma ndigits_up_spec (fuel : nat) (c n : Z) :
  1 <= n -> 10 ^ (n - 1) <= c -> c < 2 ^ (Z.of_nat fuel + n) ->
  1 <= ndigits_up fuel c n (10 ^ n) /\
  10 ^ (ndigits_up fuel c n (10 ^ n) - 1) <= c
    < 10 ^ ndigits_up fuel c n (10 ^ n).
Proof.
  elim: fuel n => [|f IH] n n_ge1 c_lo c_hi; rw ndigits_upE.
    split=> //; split=> //.
    by have := @pow2_le_pow10 n ltac:(lia); rw Z.add_0_l in c_hi; lia.
  case: Z.ltb_spec => c_p; first by [].
  have -> : 10 * 10 ^ n = 10 ^ (n + 1) by rw Z.pow_add_r ?Z.pow_1_r; lia.
  apply: IH; first lia.
  - by rw Z.add_simpl_r.
  - by move: c_hi; rw Nat2Z.inj_succ (_ : Z.succ _ + n = Z.of_nat f + (n + 1)); lia.
Qed.

Lemma ndigits_spec (c : Z) :
  0 < c -> 1 <= ndigits c /\ 10 ^ (ndigits c - 1) <= c < 10 ^ ndigits c.
Proof.
  move=> c_pos; rw /ndigits Z.abs_eq; first lia.
  have [_ lt_c] := Z.log2_spec c c_pos.
  have log_ge0 := Z.log2_nonneg c.
  set g := Z.log2 c * 1233 / 4096.
  have g_ge0 : 0 <= g by apply: Z.div_pos; lia.
  have c_hi n : 1 <= n -> c < 2 ^ (Z.of_nat (Z.to_nat (Z.log2 c)).+1 + n).
    move=> n_ge1; apply: Z.lt_le_trans lt_c _.
    by apply: Z.pow_le_mono_r; lia.
  case: Z.leb_spec => le_p.
    have -> : 10 * 10 ^ g = 10 ^ (g + 1) by rw Z.pow_add_r ?Z.pow_1_r; lia.
    by apply: ndigits_up_spec; [lia|rw Z.add_simpl_r|apply: c_hi; lia].
  by apply: (@ndigits_up_spec _ c 1); [|rw Z.pow_0_r; lia|apply: c_hi].
Qed.

Lemma round_half_even_ge (c drop : Z) : c / 10 ^ drop <= round_half_even c drop.
Proof.
  rw /round_half_even /Z.div; case: (Z.div_eucl _ _) => q r.
  by case: ifP => _; lia.
Qed.

Lemma dfix_pos (prec : Z) (d : decimal) :
  1 <= prec -> 0 < dcoeff d -> 0 < dcoeff (dfix prec d).
Proof.
  case: d => c e /= prec_ge1 c_pos; rw /dfix /= Z.abs_eq; first lia.
  have [n_ge1 [c_lo c_hi]] := ndigits_spec c_pos.
  case: Z.leb_spec => // lt_prec.
  have sgn1 : Z.sgn c = 1 by rw Z.sgn_pos.
  set drop := ndigits c - prec.
  have q_lo : 10 ^ (prec - 1) <= round_half_even c drop.
    have := @round_half_even_ge c drop.
    suff : 10 ^ (prec - 1) <= c / 10 ^ drop by lia.
    apply: Z.div_le_lower_bound; first by apply: Z.pow_pos_nonneg; lia.
    rw -Z.pow_add_r; [lia|lia|].
    by rw (_ : drop + (prec - 1) = ndigits c - 1) // /drop; lia.
  have q_pos : 0 < round_half_even c drop.
    have : 0 < 10 ^ (prec - 1) by apply: Z.pow_pos_nonneg; lia.
    lia.
  case: Z.gtb_spec => [gt_prec|_] /=; rw sgn1 Z.mul_1_l //.
  have [_ [q10 _]] := ndigits_spec q_pos.
  have : 10 ^ 1 <= round_half_even c drop.
    by have : 10 ^ 1 <= 10 ^ (ndigits (round_half_even c drop) - 1);
      [apply: Z.pow_le_mono_r|]; lia.
  rw Z.pow_1_r => q_ge10.
  by apply: Z.div_str_pos; lia.
Qed.

Lemma decimal_step_total (prec : Z) (S : decimal) (q : Z) :
  1 <= prec -> 1 <= q -> exists S', decimal_step prec S q = Ok S'.
Proof.
  move=> prec_ge1 q_ge1; have tot_pos := totZ_pos q_ge1.
  have : 0 < dcoeff (dmul prec (Decimal q) (Decimal (totZ q))).
    by apply: dfix_pos => //=; lia.
  rw /decimal_step /decimal_step_at /ddiv; move: (dmul _ _ _) => b b_pos.
  have -> : (dcoeff b =? 0) = false by apply/Z.eqb_neq; lia.
  rw [dcoeff (Decimal 1) =? 0]/=; case: (Z.div_eucl _ _) => q0 r0.
  by rw bind_Ok; eexists.
Qed.

(** ** The decimal sum and the context *)

Lemma for_eachM_range (S : Type) (a b : Z) (bodyM : S -> Z -> M S)
    (body : S -> Z -> result S) (s : S) (st : context) :
  (forall s x, a <= x < b -> bodyM s x st = (body s x, st)) ->
  for_eachM (range a b) bodyM s st = (for_each (range a b) body s, st).
Proof.
  rw /range => ext.
  have: forall i, (0 <= i)%N -> (i < 0 + Z.to_nat (b - a))%N ->
      forall s, bodyM s (a + Z.of_nat i) st = (body s (a + Z.of_nat i), st).
    by move=> i _; rw add0n => /ltP lt_i s'; apply: ext; lia.
  move: (Z.to_nat _) 0%N s => m; elim: m => [|m IH] j s ext' //=.
  rw /bindM ext' ?leqnn ?addnS ?ltnS ?leq_addr //.
  case: (body _ _) => //= s'; apply: IH => i le_i lt_i.
  by apply: ext'; [exact: ltnW|rw addnS -addSn].
Qed.

Lemma set_prec_valid (prec : Z) (st : context) :
  valid_prec prec -> set_prec prec st = (Ok tt, Context prec).
Proof.
  case=> /Z.leb_le lo /Z.leb_le hi.
  by rw /set_prec lo hi.
Qed.

Lemma harmonic_sum_decimalE (Qz prec : Z) (st : context) :
  0 <= Qz -> valid_prec prec ->
  harmonic_sum_decimal Qz prec st
  = (for_each (range 2 (Qz + 1)) (decimal_step prec) (Decimal 0),
     Context prec).
Proof.
  move=> Q_ge0 prec_ok; rw /harmonic_sum_decimal.
  have -> : (Qz <? 0) = false by apply/Z.ltb_ge.
  rw /bindM set_prec_valid // /liftM.
  rw -{1}(Z2Nat.id Qz Q_ge0); have [A -> tA] := sieve_phi_table (Z.to_nat Qz).
  apply: for_eachM_range => s q [q_ge2 q_lt].
  rw (getitem_totZ tA); first lia.
  by rw /ctx_mul /ctx_div /ctx_add /decimal_step /decimal_step_at /=; case: (ddiv _ _ _).
Qed.

Lemma decimal_sum_total (prec : Z) (Qn : nat) :
  1 <= prec ->
  exists S, for_each (range 2 (Z.of_nat Qn + 1)) (decimal_step prec) (Decimal 0)
            = Ok S.
Proof.
  move=> prec_ge1; elim: Qn => [|[|Qn] [s IH]]; try by exists (Decimal 0).
  have [s' E] := @decimal_step_total prec s (Z.of_nat Qn.+1 + 1) prec_ge1 ltac:(lia).
  exists s'; rw Nat2Z.inj_succ -Z.add_1_r range_rcons; first lia.
  by rw for_each_rcons IH bind_Ok.
Qed.

(** ** Rounding errors of the decimal operations, on the integers *)

Lemma pow10_pos (k : Z) : 0 <= k -> 0 < 10 ^ k.
Proof. by move=> k_ge0; apply: Z.pow_pos_nonneg; lia. Qed.

Lemma pow10S (k : Z) : 0 <= k -> 10 ^ (k + 1) = 10 ^ k * 10.
Proof. by move=> k_ge0; rw Z.pow_add_r ?Z.pow_1_r; lia. Qed.

Lemma ndigits_le (c p : Z) : 0 < c -> c < 10 ^ p -> ndigits c <= p.
Proof.
  move=> c_pos c_lt; have [n_ge1 [c_lo _]] := ndigits_spec c_pos.
  have [le_p|lt_p] := Z.le_gt_cases (ndigits c) p; first exact: le_p.
  have : 10 ^ p <= 10 ^ (ndigits c - 1).
    have [p_neg|p_ge0] := Z.lt_ge_cases p 0; last by apply: Z.pow_le_mono_r; lia.
    by rw (Z.pow_neg_r 10 p p_neg); have := @pow10_pos (ndigits c - 1); lia.
  by lia.
Qed.

Lemma ndigits_gt (c p : Z) : 0 < c -> 10 ^ p <= c -> p < ndigits c.
Proof.
  move=> c_pos c_ge; have [n_ge1 [_ c_hi]] := ndigits_spec c_pos.
  have [le_p|lt_p] := Z.le_gt_cases (ndigits c) p; last exact: lt_p.
  have : 10 ^ ndigits c <= 10 ^ p by apply: Z.pow_le_mono_r; lia.
  by lia.
Qed.

Lemma round_half_even_spec (c drop : Z) :
  0 <= c -> 0 <= drop ->
  c / 10 ^ drop <= round_half_even c drop <= c / 10 ^ drop + 1 /\
  Z.abs (round_half_even c drop * 10 ^ drop - c) <= 10 ^ drop.
Proof.
  move=> c_ge0 d_ge0; have p_pos := pow10_pos d_ge0.
  have := Z_div_mod c (10 ^ drop) ltac:(lia).
  rw /round_half_even /Z.div; case: (Z.div_eucl _ _) => q r [Ec r_lt].
  by case: ifP => _; nia.
Qed.

Lemma dfix_shift (prec : Z) (d : decimal) :
  1 <= prec -> 0 <= dcoeff d ->
  exists k : Z,
    [/\ 0 <= k, dexp (dfix prec d) = dexp d + k, 0 <= dcoeff (dfix prec d)
      & Z.abs (dcoeff (dfix prec d) * 10 ^ k - dcoeff d) * 10 ^ (prec - 1)
        <= dcoeff d].
Proof.
  case: d => c e /= prec_ge1 c_ge0.
  have same : exists k : Z,
      [/\ 0 <= k, e = e + k, 0 <= c
        & Z.abs (c * 10 ^ k - c) * 10 ^ (prec - 1) <= c].
    exists 0; split; [lia|lia|lia|].
    by rw Z.pow_0_r Z.mul_1_r Z.sub_diag.
  rw /dfix; cbn [dcoeff dexp]; rw Z.abs_eq; first lia.
  have [c0|c_pos] : c = 0 \/ 0 < c by lia.
    move: same; rw c0 (_ : ndigits 0 = 1); first by [].
    by have -> : (1 <=? prec) = true by apply/Z.leb_le.
  have [n_ge1 [c_lo c_hi]] := ndigits_spec c_pos.
  case: Z.leb_spec => [_|lt_prec]; first exact: same.
  set drop := ndigits c - prec.
  have drop_ge1 : 1 <= drop by rw /drop; lia.
  have pd_pos := @pow10_pos drop ltac:(lia).
  have pp_pos := @pow10_pos (prec - 1) ltac:(lia).
  have Epow : 10 ^ (ndigits c - 1) = 10 ^ drop * 10 ^ (prec - 1).
    by rw -Z.pow_add_r; [lia|lia|congr (10 ^ _); rw /drop; lia].
  have Epow' : 10 ^ ndigits c = 10 ^ drop * (10 ^ (prec - 1) * 10).
    by rw -pow10S -?Z.pow_add_r; [lia|lia|lia|congr (10 ^ _); rw /drop; lia].
  have [[q_lo q_hi] q_err] := @round_half_even_spec c drop ltac:(lia) ltac:(lia).
  have q0_lo : 10 ^ (prec - 1) <= c / 10 ^ drop.
    by apply: Z.div_le_lower_bound; [lia|rw -Epow].
  have q0_hi : c / 10 ^ drop < 10 ^ (prec - 1) * 10.
    by apply: Z.div_lt_upper_bound; [lia|rw -Epow'].
  move: q_lo q_hi q_err; set q := round_half_even c drop => q_lo q_hi q_err.
  have sgn1 : Z.sgn c = 1 by rw Z.sgn_pos.
  have q_pos : 0 < q by lia.
  case: Z.gtb_spec => [gt_prec|le_prec]; cbn [dcoeff dexp]; rw sgn1 Z.mul_1_l.
    have q_ge : 10 ^ (prec - 1) * 10 <= q.
      have [_ [q10 _]] := ndigits_spec q_pos.
      have : 10 ^ (prec - 1 + 1) <= 10 ^ (ndigits q - 1).
        by apply: Z.pow_le_mono_r; lia.
      by rw pow10S; lia.
    have Eq : q = 10 ^ (prec - 1) * 10 by lia.
    have Eq10 : q / 10 = 10 ^ (prec - 1) by rw Eq Z.div_mul.
    exists (drop + 1); split; [lia|lia|rw Eq10; lia|].
    rw Eq10 pow10S; first lia.
    have -> : 10 ^ (prec - 1) * (10 ^ drop * 10) = q * 10 ^ drop by rw Eq; lia.
    by nia.
  exists drop; split; [lia|lia|lia|].
  by nia.
Qed.

(** [1 / n] to [prec + 1] digits and a sticky digit, before the rounding. *)
Lemma ddiv_one (prec n : Z) :
  1 <= prec -> 0 < n ->
  exists q' : Z,
    [/\ ddiv prec (Decimal 1) (Decimal n)
        = Ok (dfix prec (Dec q' (- (ndigits n + prec)))),
        0 <= q'
      & Z.abs (n * q' - 10 ^ (ndigits n + prec)) <= n].
Proof.
  move=> prec_ge1 n_pos; have [n_ge1 _] := ndigits_spec n_pos.
  rw /ddiv; cbn [Decimal dcoeff dexp].
  have -> : (n =? 0) = false by apply/Z.eqb_neq; lia.
  rw [1 =? 0]/= [Z.abs 1]/= (_ : ndigits 1 = 1); first by [].
  rw (Z.abs_eq n); first lia.
  have -> : ndigits n - 1 + prec + 1 = ndigits n + prec by lia.
  have -> : (0 <=? ndigits n + prec) = true by apply/Z.leb_le; lia.
  have := Z_div_mod (1 * 10 ^ (ndigits n + prec)) n ltac:(lia).
  case: (Z.div_eucl _ _) => q r [Ec r_lt].
  have p_pos := @pow10_pos (ndigits n + prec) ltac:(lia).
  have q_ge0 : 0 <= q by nia.
  rw [Z.sgn 1]/= Z.sgn_pos; first by [].
  rw !Z.mul_1_l (_ : 0 - 0 - (ndigits n + prec) = - (ndigits n + prec)); first lia.
  exists (if (r =? 0) || negb (q mod 5 =? 0) then q else q + 1).
  by split; [|case: ifP => _; lia|case: ifP => _; nia].
Qed.

(** ** Rounding errors of the decimal operations, on the rationals *)

Lemma pw_pos (e : Z) : (0 < pw e)%Q.
Proof. exact: Qpower_0_lt. Qed.

Lemma pw_add (a b : Z) : (pw (a + b) == pw a * pw b)%Q.
Proof. exact: Qpower_plus. Qed.

Lemma pw_inject (k : Z) : 0 <= k -> (pw k == inject_Z (10 ^ k))%Q.
Proof. by move=> k_ge0; rw /pw Zpower_Qpower. Qed.

Lemma dval_pw (d : decimal) :
  (dval d == inject_Z (dcoeff d) * pw (dexp d))%Q.
Proof.
  case: d => c e; rw /dval; cbn [dcoeff dexp].
  case: Z.leb_spec => e_sign; first by rw inject_Z_mult pw_inject.
  have p_pos := @pow10_pos (- e) ltac:(lia).
  have E1 : (pw e * pw (- e) == 1)%Q.
    by rw -pw_add (_ : e + - e = 0); [lia|].
  rw (@pw_inject (- e)) in E1; first lia.
  rw Qmake_Qdiv Z2Pos.id; first by [].
  have nz : ~ (inject_Z (10 ^ (- e)) == 0)%Q.
    by rw (_ : 0%Q = inject_Z 0) // inject_Z_injective; lia.
  move: E1 nz; move: (pw e) (inject_Z (10 ^ (- e))) (inject_Z c) => a b x E1 nz.
  field_simplify_eq; last exact: nz.
  have E2 : (x * b * a == x * (a * b))%Q by ring.
  by rw E2 E1 Qmult_1_r.
Qed.

Lemma Q_of_le (a b : Z) : a <= b -> (inject_Z a <= inject_Z b)%Q.
Proof. by rw -Zle_Qle. Qed.

Lemma Q_of_lt (a b : Z) : a < b -> (inject_Z a < inject_Z b)%Q.
Proof. by rw -Zlt_Qlt. Qed.

Lemma Q_of_abs_le (a b c r m : Z) :
  0 <= r -> Z.abs (a * b - c) * r <= m ->
  ((inject_Z a * inject_Z b - inject_Z c) * inject_Z r <= inject_Z m /\
   (inject_Z c - inject_Z a * inject_Z b) * inject_Z r <= inject_Z m)%Q.
Proof.
  move=> r_ge0 le_m.
  have /Q_of_le : (a * b + - c) * r <= m by nia.
  have /Q_of_le : (c + - (a * b)) * r <= m by nia.
  by rw !inject_Z_mult !inject_Z_plus !inject_Z_opp !inject_Z_mult.
Qed.

Lemma unit_inv_pos (prec : Z) : 1 <= prec -> (1 <= unit_inv prec)%Q.
Proof.
  move=> prec_ge1; have := @pow10_pos (prec - 1) ltac:(lia).
  by move=> p_pos; apply: (@Q_of_le 1); lia.
Qed.

Lemma dval_ge0 (d : decimal) : 0 <= dcoeff d -> (0 <= dval d)%Q.
Proof.
  move=> c_ge0; rw dval_pw; apply: Qmult_le_0_compat.
    exact: (@Q_of_le 0).
  exact/Qlt_le_weak/pw_pos.
Qed.

(** [_fix] moves a nonnegative decimal by at most the fraction
    [1 / unit_inv prec] of its value. *)
Lemma dfix_err (prec : Z) (d : decimal) :
  1 <= prec -> 0 <= dcoeff d ->
  [/\ 0 <= dcoeff (dfix prec d),
      (unit_inv prec * (dval (dfix prec d) - dval d) <= dval d)%Q
    & (unit_inv prec * (dval d - dval (dfix prec d)) <= dval d)%Q].
Proof.
  move=> prec_ge1 c_ge0.
  have [k [k_ge0 Ee c'_ge0 err]] := dfix_shift prec_ge1 c_ge0.
  have R_pos := @pow10_pos (prec - 1) ltac:(lia).
  have E_pos := pw_pos (dexp d).
  have [] := Q_of_abs_le (Z.lt_le_incl _ _ R_pos) err.
  have := dval_pw (dfix prec d); have := dval_pw d.
  rw Ee /unit_inv; move: (pw_add (dexp d) k) (pw_inject k_ge0).
  move: (dval _) (dval _) (pw (_ + _)) (pw k) => v' v Ek E'.
  move: (inject_Z (dcoeff _)) (inject_Z (10 ^ k)) (inject_Z (dcoeff d))
        (inject_Z (10 ^ (_ - 1))) (pw _) E_pos => c' p c R E E_pos.
  move=> EEk EE' Ev Ev' h1 h2.
  have Ev2 : (v' == c' * p * E)%Q by rw Ev' EEk EE'; ring.
  split; first by []; rw Ev2 Ev.
  - by have := Qmult_le_compat_r _ _ E h1 (Qlt_le_weak _ _ E_pos); lra.
  - by have := Qmult_le_compat_r _ _ E h2 (Qlt_le_weak _ _ E_pos); lra.
Qed.

Lemma dmul_exact (prec a b : Z) :
  0 < a * b < 10 ^ prec ->
  dmul prec (Decimal a) (Decimal b) = Decimal (a * b).
Proof.
  move=> [n_pos n_lt]; rw /dmul /dfix; cbn [Decimal dcoeff dexp].
  rw Z.abs_eq; first lia.
  by have /Z.leb_le -> := ndigits_le n_pos n_lt.
Qed.

Lemma Qinv_pos_mul (n : Z) :
  0 < n -> (inject_Z n * Qmake 1 (Z.to_pos n) == 1)%Q.
Proof.
  move=> n_pos; rw /Qeq /Qmult /inject_Z; cbn [Qnum Qden].
  by rw Pos.mul_1_l Z2Pos.id; lia.
Qed.

(** [1 / n] is computed up to the fraction [2 / unit_inv prec] of it. *)
Lemma ddiv_err (prec n : Z) :
  1 <= prec -> 0 < n ->
  exists t : decimal,
    [/\ ddiv prec (Decimal 1) (Decimal n) = Ok t, 0 <= dcoeff t,
        (unit_inv prec * (dval t - Qmake 1 (Z.to_pos n))
           <= 2 * Qmake 1 (Z.to_pos n))%Q
      & (unit_inv prec * (Qmake 1 (Z.to_pos n) - dval t)
           <= 2 * Qmake 1 (Z.to_pos n))%Q].
Proof.
  move=> prec_ge1 n_pos; have [q' [-> q'_ge0 err]] := ddiv_one prec_ge1 n_pos.
  have [n_ge1 [_ n_lt]] := ndigits_spec n_pos.
  set s := ndigits n + prec in err *.
  have [] := @dfix_err prec (Dec q' (- s)) prec_ge1 q'_ge0.
  move: (dfix _ _) => t t_ge0 t_hi t_lo; exists t.
  have R_ge1 := unit_inv_pos prec_ge1.
  have T_pos := pw_pos (- s).
  have x_pos : (0 < Qmake 1 (Z.to_pos n))%Q by [].
  have Ex := Qinv_pos_mul n_pos.
  have ET : (pw (- s) * inject_Z (10 ^ s) == 1)%Q.
    rw -(@pw_inject s); first by rw /s; lia.
    by rw -pw_add (_ : - s + s = 0); first lia.
  have ER : (unit_inv prec * 10 * inject_Z (10 ^ ndigits n)
             == inject_Z (10 ^ s))%Q.
    rw /unit_inv (_ : 10%Q = inject_Z 10) // -!inject_Z_mult.
    by rw -pow10S -?Z.pow_add_r; [lia|lia|lia|
         rw (_ : prec - 1 + 1 + ndigits n = s) // /s; lia].
  have [] := @Q_of_abs_le n q' (10 ^ s) 1 n ltac:(lia) ltac:(lia).
  have := Q_of_lt n_lt; have := dval_pw (Dec q' (- s)).
  cbn [dcoeff dexp]; move: t_hi t_lo ER ET Ex x_pos T_pos R_ge1.
  rw (_ : inject_Z 1 = 1%Q) //.
  move: (unit_inv prec) (dval t) (dval (Dec q' (- s))) (pw (- s))
        (Qmake 1 (Z.to_pos n)) (inject_Z n) (inject_Z (10 ^ s))
        (inject_Z (10 ^ ndigits n)) (inject_Z q')
    => R vt w T x N Ps Pn Q'.
  move=> t_hi t_lo ER ET Ex x_pos T_pos R_ge1 Ew N_lt e_hi e_lo.
  have N_pos : (0 < N)%Q by nra.
  have w_hi : (w - x <= T)%Q.
    have := Qmult_le_compat_r _ _ (T * x) e_hi ltac:(nra).
    have -> : ((N * Q' - Ps) * 1 * (T * x)
               == Q' * T * (N * x) - (T * Ps) * x)%Q by ring.
    have -> : (N * (T * x) == T * (N * x))%Q by ring.
    by rw Ex ET Ew; lra.
  have w_lo : (x - w <= T)%Q.
    have := Qmult_le_compat_r _ _ (T * x) e_lo ltac:(nra).
    have -> : ((Ps - N * Q') * 1 * (T * x)
               == (T * Ps) * x - Q' * T * (N * x))%Q by ring.
    have -> : (N * (T * x) == T * (N * x))%Q by ring.
    by rw Ex ET Ew; lra.
  have RT : (10 * (R * T) <= x)%Q.
    have h : (R * 10 * N * T <= 1)%Q.
      have := Qmult_le_compat_r _ _ (R * 10 * T) (Qlt_le_weak _ _ N_lt)
        ltac:(nra).
      have -> : (Pn * (R * 10 * T) == T * (R * 10 * Pn))%Q by ring.
      by rw ER ET; lra.
    have := Qmult_le_compat_r _ _ x h (Qlt_le_weak _ _ x_pos).
    have -> : (R * 10 * N * T * x == 10 * (R * T) * (N * x))%Q by ring.
    by rw Ex; lra.
  have T_le : (T <= R * T)%Q by nra.
  have := Qmult_le_compat_r _ _ R w_hi ltac:(lra).
  have := Qmult_le_compat_r _ _ R w_lo ltac:(lra).
  by split=> //; lra.
Qed.

(** The sum of two decimals before its rounding is exact. *)
Lemma dadd_exact (prec : Z) (a b : decimal) :
  0 <= dcoeff a -> 0 <= dcoeff b ->
  exists u : decimal,
    [/\ dadd prec a b = dfix prec u, 0 <= dcoeff u
      & (dval u == dval a + dval b)%Q].
Proof.
  case: a b => ca ea [cb eb]; cbn [dcoeff] => ca_ge0 cb_ge0.
  rw /dadd; cbn [dcoeff dexp]; set e := Z.min ea eb.
  have pa := @pow10_pos (ea - e) ltac:(lia).
  have pb := @pow10_pos (eb - e) ltac:(lia).
  eexists; split; [reflexivity|cbn [dcoeff]; nia|].
  rw !dval_pw; cbn [dcoeff dexp].
  rw inject_Z_plus !inject_Z_mult.
  rw -(@pw_inject (ea - e)); first lia.
  rw -(@pw_inject (eb - e)); first lia.
  have Ea : (pw (ea - e) * pw e == pw ea)%Q.
    by rw -pw_add (_ : ea - e + e = ea); [lia|].
  have Eb : (pw (eb - e) * pw e == pw eb)%Q.
    by rw -pw_add (_ : eb - e + e = eb); [lia|].
  rw -Ea -Eb; ring.
Qed.

Lemma dlt_val (a b : decimal) : (dval a < dval b)%Q -> dlt a b = true.
Proof.
  case: a b => ca ea [cb eb]; rw /dlt !dval_pw; cbn [dcoeff dexp].
  set e := Z.min ea eb => lt_ab; apply/Z.ltb_lt.
  have [//|/Q_of_le] := Z.lt_ge_cases (ca * 10 ^ (ea - e)) (cb * 10 ^ (eb - e)).
  rw !inject_Z_mult.
  rw -(@pw_inject (ea - e)); first lia.
  rw -(@pw_inject (eb - e)); first lia.
  have Ea : (pw (ea - e) * pw e == pw ea)%Q.
    by rw -pw_add (_ : ea - e + e = ea); [lia|].
  have Eb : (pw (eb - e) * pw e == pw eb)%Q.
    by rw -pw_add (_ : eb - e + e = eb); [lia|].
  move=> le_ba; have := Qmult_le_compat_r _ _ (pw e) le_ba
    (Qlt_le_weak _ _ (pw_pos e)).
  rw -!Qmult_assoc Ea Eb; lra.
Qed.

Lemma totZ_le (q : Z) : 2 <= q -> totZ q < q.
Proof.
  move=> q_ge2; rw -{2}(Z2Nat.id q); first lia.
  by apply/Z_of_nat_ltn/totient_ltn/ltP; lia.
Qed.

Lemma Qmul_le_reg (R a b : Q) : (0 < R -> R * a <= R * b -> a <= b)%Q.
Proof. by move=> R_pos /Qmult_le_l; apply. Qed.

Lemma Qmul_lt_reg (R a b : Q) : (0 < R -> R * a < R * b -> a < b)%Q.
Proof. by move=> R_pos /Qmult_lt_l; apply. Qed.

(** One turn of the decimal sum: from a sum [S] within [B / unit_inv prec]
    of [X] to a sum within [(B + 6) / unit_inv prec] of [X + 1 / n], and
    strictly above [S]. *)
Lemma decimal_step_err (prec : Z) (S : decimal) (X B : Q) (q : Z) :
  let x := Qmake 1 (Z.to_pos (q * totZ q)) in
  1 <= prec -> 2 <= q -> q * totZ q * 10 <= 10 ^ (prec - 1) ->
  0 <= dcoeff S ->
  (unit_inv prec * (dval S - X) <= B)%Q ->
  (unit_inv prec * (X - dval S) <= B)%Q ->
  (B <= unit_inv prec)%Q -> (X + x <= 2)%Q ->
  exists S' : decimal,
    [/\ decimal_step prec S q = Ok S', 0 <= dcoeff S',
        (unit_inv prec * (dval S' - (X + x)) <= B + 6)%Q,
        (unit_inv prec * (X + x - dval S') <= B + 6)%Q
      & (dval S < dval S')%Q].
Proof.
  move=> x prec_ge1 q_ge2 n_small S_ge0 S_hi S_lo B_le X_le.
  have tot_pos := @totZ_pos q ltac:(lia).
  have n_ge2 : 2 <= q * totZ q by nia.
  have n_lt : q * totZ q < 10 ^ prec.
    have := @pow10S (prec - 1) ltac:(lia).
    by rw (_ : prec - 1 + 1 = prec); lia.
  rw /decimal_step /decimal_step_at dmul_exact; first lia.
  have [t [-> t_ge0 t_hi t_lo]] :=
    @ddiv_err prec (q * totZ q) prec_ge1 ltac:(lia).
  rw bind_Ok; have [u [-> u_ge0 Eu]] := dadd_exact prec S_ge0 t_ge0.
  have [S'_ge0 u_hi u_lo] := dfix_err prec_ge1 u_ge0.
  exists (dfix prec u).
  have Ex := @Qinv_pos_mul (q * totZ q) ltac:(lia).
  have x_pos : (0 < x)%Q by [].
  have := Q_of_le n_small; have := @Q_of_le 2 _ n_ge2.
  rw (inject_Z_mult (q * totZ q) 10) -/(unit_inv prec).
  rw (_ : inject_Z 10 = 10%Q) // (_ : inject_Z 2 = 2%Q) //.
  move: u_hi u_lo t_hi t_lo S_hi S_lo B_le X_le x_pos Ex; rw -/x Eu.
  move: (unit_inv prec) (dval (dfix prec u)) (dval S) (dval t) x
        (inject_Z (q * totZ q)) => R s' s vt y N.
  move=> u_hi u_lo t_hi t_lo S_hi S_lo B_le X_le y_pos Ey N_ge2 N_small.
  have y_half : (2 * y <= 1)%Q.
    by have := Qmult_le_compat_r _ _ y N_ge2 ltac:(lra); lra.
  have Ry : (10 <= R * y)%Q.
    have := Qmult_le_compat_r _ _ y N_small ltac:(lra).
    have -> : (N * 10 * y == 10 * (N * y))%Q by ring.
    by rw Ey; lra.
  have R_pos : (0 < R)%Q by lra.
  have s_hi : (s - X <= 1)%Q by apply: (Qmul_le_reg R_pos); lra.
  have t_le : (vt - y <= 1)%Q by apply: (Qmul_le_reg R_pos); lra.
  split; [by []|by []|lra|lra|].
  by apply: (Qmul_lt_reg R_pos); lra.
Qed.

(** ** The decimal sum beside the exact sum *)

Section DecimalSum.

Variables (prec : Z) (K : nat).
Hypothesis prec_ge1 : 1 <= prec.
Hypothesis small : (Z.of_nat K + 2) ^ 2 * 10 <= 10 ^ (prec - 1).
Hypothesis bounded :
  forall (j : nat) (Fr : Q),
    (j <= K)%N -> harmonic_sum_fraction (1 + Z.of_nat j) = Ok Fr -> (Fr <= 2)%Q.

Lemma dreach0 : dreach prec 0 (Decimal 0) (Qmake 0 1).
Proof.
  split.
  - by rw range_empty.
  - by vm_compute.
  - by [].
  - by rw Qmult_0_r.
  - by rw Qmult_0_r.
Qed.

Lemma dreachS (j : nat) (D : decimal) (Fr : Q) :
  (j < K)%N -> dreach prec j D Fr ->
  exists (D' : decimal) (Fr' : Q), dreach prec j.+1 D' Fr' /\ dlt D D' = true.
Proof.
  move=> lt_j [ED EFr D_ge0 D_hi D_lo]; set q := 2 + Z.of_nat j.
  have le_K : Z.of_nat j < Z.of_nat K by apply/Z_of_nat_ltn.
  have [Fr' [EFr' EqFr' _]] := @fraction_step_spec Fr q ltac:(lia).
  have EFrS : harmonic_sum_fraction (1 + Z.of_nat j.+1) = Ok Fr'.
    rw (_ : 1 + Z.of_nat j.+1 = 1 + Z.of_nat j + 1); first lia.
    rw harmonic_sum_fractionS; first lia.
    by rw EFr bind_Ok (_ : 1 + Z.of_nat j + 1 = q); first lia.
  have Fr'_le := bounded lt_j EFrS.
  have tot_lt := @totZ_le q ltac:(lia).
  have tot_pos := @totZ_pos q ltac:(lia).
  have R_ge : 6 * Z.of_nat j <= 10 ^ (prec - 1) by nia.
  have [|D' [ED' D'_ge0 D'_hi D'_lo lt_D]] :=
    @decimal_step_err prec D Fr (inject_Z (6 * Z.of_nat j)) q prec_ge1
      ltac:(lia) ltac:(nia) D_ge0 D_hi D_lo (Q_of_le R_ge).
    by rw -EqFr'.
  exists D', Fr'; split; last exact: dlt_val.
  have E6 : (inject_Z (6 * Z.of_nat j.+1) == inject_Z (6 * Z.of_nat j) + 6)%Q.
    rw Nat2Z.inj_succ (_ : 6 * Z.succ (Z.of_nat j) = 6 * Z.of_nat j + 6).
      by lia.
    by rw inject_Z_plus.
  split=> //.
  - rw (_ : 2 + Z.of_nat j.+1 = q + 1); first lia.
    rw range_rcons; first lia.
    by rw for_each_rcons ED bind_Ok.
  - by rw E6 EqFr'.
  - by rw E6 EqFr'.
Qed.

Lemma dreach_total (j : nat) :
  (j <= K)%N -> exists (D : decimal) (Fr : Q), dreach prec j D Fr.
Proof.
  elim: j => [_|j IH lt_j]; first by exists (Decimal 0), (Qmake 0 1); exact: dreach0.
  have [D [Fr R]] := IH (ltnW lt_j).
  by have [D' [Fr' [R' _]]] := dreachS lt_j R; exists D', Fr'.
Qed.

Lemma dreach_increase (j : nat) :
  (j < K)%N ->
  exists (D D' : decimal) (Fr Fr' : Q),
    [/\ dreach prec j D Fr, dreach prec j.+1 D' Fr' & dlt D D' = true].
Proof.
  move=> lt_j; have [D [Fr R]] := dreach_total (ltnW lt_j).
  have [D' [Fr' [R' lt_D]]] := dreachS lt_j R.
  by exists D, D', Fr, Fr'.
Qed.

End DecimalSum.

(** ** Checking a run of turns *)

Lemma range_cons (a : Z) (j : nat) :
  range a (a + Z.of_nat j.+1) = a :: range (a + 1) (a + 1 + Z.of_nat j).
Proof.
  rw !range_from /= Z.add_0_r; congr cons.
  rw -[1%N]/(1 + 0)%N iotaDl -map_comp; apply: eq_map => i /=.
  by rw -[Z.pos _]/(Z.of_nat (0 + i).+1) add0n Nat2Z.inj_succ; lia.
Qed.

Lemma scan_sound (S : Type) (step : S -> Z -> result S)
    (good : S -> S -> Z -> bool) (k : nat) (q0 : Z) (s0 : S) :
  scan step good k q0 s0 = true ->
  forall j, (j < k)%N ->
  exists s s',
    [/\ for_each (range q0 (q0 + Z.of_nat j)) step s0 = Ok s,
        step s (q0 + Z.of_nat j) = Ok s'
      & good s s' (q0 + Z.of_nat j) = true].
Proof.
  elim: k q0 s0 => [|k IH] q0 s0 //=.
  case E: (step s0 q0) => [s1| |] // /andP [g1 sc] [|j] lt_j.
    exists s0, s1; rw Z.add_0_r; split=> //.
    by rw range_empty; [lia|].
  have [s [s' [R St G]]] := IH _ _ sc j lt_j.
  exists s, s'; rw range_cons /= E /=.
  by rw (_ : q0 + Z.of_nat j.+1 = q0 + 1 + Z.of_nat j); [lia|].
Qed.

Lemma phi_totZ (q : Z) : 0 <= q -> phi q = Ok (totZ q).
Proof. by move=> q_ge0; rw -{1}(Z2Nat.id q q_ge0) phi_totient. Qed.

Lemma fsum_run_stepE (s : fsum) (q : Z) :
  0 <= q -> fsum_run_step s q = fsum_step s q.
Proof. by move=> q_ge0; rw /fsum_run_step phi_totZ. Qed.

Lemma fsum_stepP (s s' : fsum) (q : Z) :
  fsum_step s q = Ok s' ->
  float_step (F := binary64) (fs_float s) q = Ok (fs_float s')
  /\ fs_floor s' = fs_floor s + fsum_scale / (q * totZ q).
Proof.
  rw /fsum_step /fsum_step_at /float_step.
  by case: (float_step_at _ _ _) => [f| |] //= [<-].
Qed.

Lemma harmonic_sum_phiE (F : float_ops) (Qz : Z) :
  harmonic_sum_phi F Qz
  = for_each (range 2 (Qz + 1)) (@float_step F) (f_lit F (0 # 1)).
Proof.
  apply: for_each_range_ext => s q [q_ge2 _].
  rw phi_totZ; first lia.
  have tot_pos := @totZ_pos q ltac:(lia).
  by rw bind_Ok (_ : (totZ q =? 0) = false) //; apply/Z.eqb_neq; lia.
Qed.

(** ** Rationals *)

Lemma Qlt_boolP (a b : Q) : Qlt_bool a b = true -> (a < b)%Q.
Proof. by rw /Qlt_bool Qlt_alt; case: Qcompare. Qed.

Lemma near_ltP (a b eps : Q) : near_lt a b eps = true -> (Qabs (a - b) < eps)%Q.
Proof.
  case/andP=> /Qlt_boolP lt1 /Qlt_boolP lt2.
  by apply/Qabs_Qlt_condition; split; lra.
Qed.

Lemma fsum_val_le (a b : Z) : a <= b -> (fsum_val a <= fsum_val b)%Q.
Proof.
  by move=> le_ab; rw /fsum_val /Qle; cbn [Qnum Qden]; apply: Z.mul_le_mono_nonneg_r.
Qed.

Lemma fsum_val_add (a b : Z) : (fsum_val (a + b) == fsum_val a + fsum_val b)%Q.
Proof. by rw /fsum_val /Qeq /Qplus; cbn [Qnum Qden]; rw Pos2Z.inj_mul; ring. Qed.

(** The floor of a term encloses the term. *)
Lemma fsum_floor (n : Z) :
  0 < n ->
  (fsum_val (fsum_scale / n) <= Qmake 1 (Z.to_pos n)
   /\ Qmake 1 (Z.to_pos n) <= fsum_val (fsum_scale / n + 1))%Q.
Proof.
  move=> n_pos; rw /fsum_val /Qle; cbn [Qnum Qden]; rw !Z2Pos.id //.
  have s_pos : 0 < fsum_scale by [].
  have := Z_div_mod fsum_scale n ltac:(lia).
  rw /Z.div; case: (Z.div_eucl _ _) => d r [Es r_lt].
  by move: fsum_scale Es s_pos => sc Es s_pos; nia.
Qed.

(** ** What a checked run establishes *)

Section Checked.

Variable K : nat.
Hypothesis checked : fsum_checked K = true.

Lemma reach_fun (j : nat) (s s' : fsum) : reach j s -> reach j s' -> s = s'.
Proof. by rw /reach => -> [->]. Qed.

Lemma reach0 : reach 0 fsum_zero.
Proof. by rw /reach range_empty. Qed.

Lemma turn (j : nat) :
  (j < K)%N ->
  exists s s',
    [/\ reach j s, reach j.+1 s', fsum_step s (2 + Z.of_nat j) = Ok s'
      & fsum_good s s' (2 + Z.of_nat j) = true].
Proof.
  move=> lt_j; have [s [s' [R St G]]] := scan_sound checked lt_j.
  have R' : reach j s.
    rw /reach -R; apply: for_each_range_ext => s1 q [q_ge2 _].
    by rw fsum_run_stepE; first lia.
  rw fsum_run_stepE in St; first lia.
  exists s, s'; split=> //; rw /reach.
  rw (_ : 2 + Z.of_nat j.+1 = 2 + Z.of_nat j + 1); first lia.
  rw range_rcons; first lia.
  by rw for_each_rcons R' bind_Ok.
Qed.

Lemma reach_total (j : nat) : (j <= K)%N -> exists s, reach j s.
Proof.
  case: j => [|j] lt_j; last by have [s [s' [_ R _ _]]] := turn lt_j; exists s'.
  by exists fsum_zero; exact: reach0.
Qed.

Lemma reach_float (j : nat) (s : fsum) :
  reach j s ->
  for_each (range 2 (2 + Z.of_nat j)) (@float_step binary64)
    (f_lit binary64 (0 # 1)) = Ok (fs_float s).
Proof.
  rw /reach; elim: j s => [|j IH] s.
    by rw range_empty; [lia|case=> <-].
  rw (_ : 2 + Z.of_nat j.+1 = 2 + Z.of_nat j + 1); first lia.
  rw range_rcons; first lia.
  rw !for_each_rcons; case E: (for_each _ _ _) => [s1| |] //=.
  by rw (IH _ E) bind_Ok => /fsum_stepP [].
Qed.

(** The floor sum encloses the exact sum. *)
Lemma exact_enclosed (j : nat) :
  (j <= K)%N ->
  exists s Fr,
    [/\ reach j s, harmonic_sum_fraction (1 + Z.of_nat j) = Ok Fr,
        (fsum_val (fs_floor s) <= Fr)%Q
      & (Fr <= fsum_val (fs_floor s + Z.of_nat j))%Q].
Proof.
  elim: j => [_|j IH lt_j].
    by exists fsum_zero, (Qmake 0 1); split; [exact: reach0|vm_compute| |].
  have [s [Fr [R EFr lo hi]]] := IH (ltnW lt_j).
  have [s1 [s' [R1 R' St _]]] := turn lt_j.
  rw -(reach_fun R R1) in St; have [_ Efl] := fsum_stepP St.
  have [Fr' [EFr' EqFr' _]] := @fraction_step_spec Fr (2 + Z.of_nat j) ltac:(lia).
  have tot_pos := @totZ_pos (2 + Z.of_nat j) ltac:(lia).
  have [t_lo t_hi] := @fsum_floor ((2 + Z.of_nat j) * totZ (2 + Z.of_nat j))
    ltac:(nia).
  exists s', Fr'; split; first exact: R'.
  - rw (_ : 1 + Z.of_nat j.+1 = 1 + Z.of_nat j + 1); first lia.
    rw harmonic_sum_fractionS; first lia.
    by rw EFr bind_Ok (_ : 1 + Z.of_nat j + 1 = 2 + Z.of_nat j); first lia.
  - by rw Efl fsum_val_add EqFr'; lra.
  - rw Efl Nat2Z.inj_succ.
    rw (_ : fs_floor s + _ + Z.succ (Z.of_nat j)
            = fs_floor s + Z.of_nat j + (fsum_scale / ((2 + Z.of_nat j)
                * totZ (2 + Z.of_nat j)) + 1)); first lia.
    by rw fsum_val_add EqFr'; lra.
Qed.

Lemma fsum_goodP (s s' : fsum) (q : Z) :
  fsum_good s s' q = true ->
  exists vf',
    [/\ fval (fs_float s') = Some vf',
        (Qabs (vf' - fsum_val (fs_floor s')) < Qmake 1 (Z.to_pos (10 ^ 11)))%Q,
        flt_lt (f := binary64) (fs_float s) (fs_float s') = true
      & fs_floor s' + q < 2 * fsum_scale].
Proof.
  rw /fsum_good; case: (fval _) => // vf' /and3P [/near_ltP near lt_f /Z.ltb_lt lt2].
  by exists vf'.
Qed.

(** The exact sum stays below [2]. *)
Lemma exact_bounded (j : nat) (Fr : Q) :
  (j <= K)%N -> harmonic_sum_fraction (1 + Z.of_nat j) = Ok Fr -> (Fr <= 2)%Q.
Proof.
  case: j => [_|j lt_j]; first by vm_compute; case=> <-.
  have [s [Fr' [R -> _ hi]]] := exact_enclosed lt_j => -[<-].
  have [s1 [s' [_ R' _ /fsum_goodP [vf' [_ _ _ lt2]]]]] := turn lt_j.
  rw -(reach_fun R R') in lt2.
  apply: (@Qle_trans _ (fsum_val (2 * fsum_scale))); last by vm_compute.
  by apply: Qle_trans hi _; apply: fsum_val_le; lia.
Qed.

(** The float sum is a finite double beside the exact sum. *)
Lemma float_near_exact (j : nat) :
  (j <= K)%N ->
  exists s Fr vf,
    [/\ reach j s, harmonic_sum_fraction (1 + Z.of_nat j) = Ok Fr,
        fval (fs_float s) = Some vf
      & (Qabs (vf - Fr) < Qmake 1 (Z.to_pos (10 ^ 11))
                           + fsum_val (Z.of_nat j))%Q].
Proof.
  move=> le_j; have [s [Fr [R EFr lo hi]]] := exact_enclosed le_j.
  have [vf [Ev near]] : exists vf, fval (fs_float s) = Some vf /\
      (Qabs (vf - fsum_val (fs_floor s)) < Qmake 1 (Z.to_pos (10 ^ 11)))%Q.
    case: j le_j R {EFr lo hi} => [_|j lt_j] R.
      by rw -(reach_fun reach0 R); exists (Qmake 0 1).
    have [s1 [s' [_ R' _ /fsum_goodP [vf' [Ev near _ _]]]]] := turn lt_j.
    by rw (reach_fun R R'); exists vf'.
  exists s, Fr, vf; split=> //.
  move: hi; rw fsum_val_add => hi.
  move/Qabs_Qlt_condition: near => [n1 n2].
  by apply/Qabs_Qlt_condition; split; lra.
Qed.

Lemma float_increase (j : nat) :
  (j < K)%N ->
  exists s s',
    [/\ reach j s, reach j.+1 s'
      & flt_lt (f := binary64) (fs_float s) (fs_float s') = true].
Proof.
  move=> lt_j.
  have [s [s' [R R' _ /fsum_goodP [vf' [_ _ lt_f _]]]]] := turn lt_j.
  by exists s, s'.
Qed.

End Checked.

(** ** The checked run *)

Lemma fsum_checked_run : fsum_checked checked_turns = true.
Proof. by vm_compute. Qed.

Lemma checked_small (prec : Z) :
  50 <= prec -> (Z.of_nat checked_turns + 2) ^ 2 * 10 <= 10 ^ (prec - 1).
Proof.
  move=> prec_ge; apply: (@Z.le_trans _ (10 ^ 49)); first by vm_compute.
  by apply: Z.pow_le_mono_r; lia.
Qed.

(** The sums of the scripts at [Q = j + 1 <= 10001], with the bounds that
    the checked run and the rounding errors give. *)
Lemma modes_at (prec : Z) (j : nat) (st : context) :
  50 <= prec <= MAX_PREC -> (j <= checked_turns)%N ->
  exists (Sf : float) (vf : Q) (D : decimal) (Fr : Q),
    [/\ harmonic_sum_phi binary64 (1 + Z.of_nat j) = Ok Sf /\ fval Sf = Some vf,
        (harmonic_sum_decimal (1 + Z.of_nat j) prec st).1 = Ok D,
        harmonic_sum_fraction (1 + Z.of_nat j) = Ok Fr,
        (Qabs (vf - Fr) < Qmake 1 (Z.to_pos (10 ^ 11)) + fsum_val 10000)%Q
      & (Qabs (dval D - Fr) <= 60000 / unit_inv prec)%Q].
Proof.
  move=> [prec_ge prec_le] le_j.
  have [s [Fr [vf [R EFr Ev near]]]] := float_near_exact fsum_checked_run le_j.
  have [D [Fr' [ED EFr' _ D_hi D_lo]]] :=
    @dreach_total prec checked_turns ltac:(lia) (checked_small prec_ge)
      (exact_bounded fsum_checked_run) j le_j.
  move: EFr'; rw EFr => -[EqFr]; rw -{}EqFr in D_hi D_lo.
  have Eb : 1 + Z.of_nat j + 1 = 2 + Z.of_nat j by lia.
  have j_le : Z.of_nat j <= 10000 by move/leP: le_j; rw /checked_turns; lia.
  exists (fs_float s), vf, D, Fr; split=> //.
  - by rw harmonic_sum_phiE Eb (reach_float R).
  - by rw harmonic_sum_decimalE; [lia|rw /valid_prec; lia|rw Eb].
  - have := fsum_val_le j_le.
    move/Qabs_Qlt_condition: near => [n1 n2] le_v.
    by apply/Qabs_Qlt_condition; split; lra.
  - have R_pos : (0 < unit_inv prec)%Q.
      by have := @unit_inv_pos prec ltac:(lia); lra.
    have /Q_of_le : 6 * Z.of_nat j <= 60000 by lia.
    rw (_ : inject_Z 60000 = 60000%Q) // => le_B.
    have := @Qmult_div_r 60000 (unit_inv prec) ltac:(lra).
    move: (60000 / _)%Q => z Ez.
    by apply/Qabs_Qle_condition; split; apply: (Qmul_le_reg R_pos); lra.
Qed.

(** The float sum and the decimal sum grow at every turn [q <= 10001]. *)
Lemma modes_increase (prec : Z) (j : nat) (st : context) :
  50 <= prec <= MAX_PREC -> (j < checked_turns)%N ->
  exists (a b : float) (c d : decimal),
    [/\ harmonic_sum_phi binary64 (1 + Z.of_nat j) = Ok a,
        harmonic_sum_phi binary64 (1 + Z.of_nat j + 1) = Ok b,
        (harmonic_sum_decimal (1 + Z.of_nat j) prec st).1 = Ok c,
        (harmonic_sum_decimal (1 + Z.of_nat j + 1) prec st).1 = Ok d
      & flt_lt (f := binary64) a b = true /\ dlt c d = true].
Proof.
  move=> [prec_ge prec_le] lt_j.
  have [s [s' [R R' lt_f]]] := float_increase fsum_checked_run lt_j.
  have [D [D' [Fr [Fr' [[ED _ _ _ _] [ED' _ _ _ _] lt_D]]]]] :=
    @dreach_increase prec checked_turns ltac:(lia) (checked_small prec_ge)
      (exact_bounded fsum_checked_run) j lt_j.
  have Eb : 1 + Z.of_nat j + 1 = 2 + Z.of_nat j by lia.
  have Eb' : 1 + Z.of_nat j + 1 + 1 = 2 + Z.of_nat j.+1 by lia.
  exists (fs_float s), (fs_float s'), D, D'; split=> //.
  - by rw harmonic_sum_phiE Eb (reach_float R).
  - by rw harmonic_sum_phiE Eb' (reach_float R').
  - by rw harmonic_sum_decimalE; [lia|rw /valid_prec; lia|rw Eb].
  - by rw harmonic_sum_decimalE; [lia|rw /valid_prec; lia|rw Eb'].
Qed.

(** ** The integer root *)

(** Claim C2.  For a non-negative [n] and a positive [k],
    [int_nth_root_floor n k] returns the unique [r >= 0] with
    [r ^ k <= n < (r + 1) ^ k]; on [0] it returns [0] and on [1] it returns
    [1], whatever [k >= 1]. *)
Theorem int_nth_root_floor_spec (n k : Z) :
  0 <= n -> 1 <= k ->
  [/\ exists r, [/\ int_nth_root_floor n k = Ok r, 0 <= r,
                    r ^ k <= n < (r + 1) ^ k
                  & forall r', 0 <= r' -> r' ^ k <= n < (r' + 1) ^ k -> r' = r],
      int_nth_root_floor 0 k = Ok 0
    & int_nth_root_floor 1 k = Ok 1].
Proof. exact: int_nth_root_floor_correct. Qed.

Lemma int_nth_root_floor_spec_witness :
  (0 <= 4000000000000000000 /\ 1 <= 5) /\
  [/\ exists r, [/\ int_nth_root_floor 4000000000000000000 5 = Ok r, 0 <= r,
                    r ^ 5 <= 4000000000000000000 < (r + 1) ^ 5
                  & forall r', 0 <= r' ->
                      r' ^ 5 <= 4000000000000000000 < (r' + 1) ^ 5 -> r' = r],
      int_nth_root_floor 0 5 = Ok 0
    & int_nth_root_floor 1 5 = Ok 1].
Proof.
  split; first by split; lia.
  apply: (@int_nth_root_floor_spec 4000000000000000000 5); lia.
Defined.

(** ** The totient table and the two totients *)

(** MathComp's [totient] is the totient of reference: it satisfies the
    laws that characterise Euler's function, and counts the residues
    coprime to [n]. *)
Lemma totient_reference_laws :
  [/\ totient 0 = 0%N /\ totient 1 = 1%N,
      forall p, prime p -> totient p = (p - 1)%N,
      forall p k, prime p -> (0 < k)%N ->
        totient (p ^ k) = (p ^ k - p ^ (k - 1))%N,
      forall m n, coprime m n -> totient (m * n) = (totient m * totient n)%N
    & forall n, totient n = (\sum_(0 <= d < n) coprime n d)%N].
Proof.
  split=> //.
  - by move=> p p_pr; rw totient_prime // subn1.
  - move=> p [|k] // p_pr _.
    by rw totient_pfactor //= expnS subn1 /= -subn1 mulnBl mul1n.
  - exact: totient_coprime.
  - exact: totient_count_coprime.
Qed.

Lemma sieve_phi_entries (Q : Z) :
  0 <= Q ->
  exists phi_tab,
    [/\ sieve_phi Q = Ok phi_tab,
        Z.of_nat (size phi_tab) = Q + 1,
        getitem phi_tab 0 = Ok 0
      & forall n, 0 <= n <= Q ->
          getitem phi_tab n = Ok (Z.of_nat (totient (Z.to_nat n)))].
Proof.
  move=> Q_ge0; rw -(Z2Nat.id Q Q_ge0).
  have [A -> tA] := sieve_phi_table (Z.to_nat Q).
  exists A; split=> //.
  - by case: tA => -> _; lia.
  - exact: (getitem_totient (n := 0) tA).
  - move=> n [n_ge0 n_le]; rw -{1}(Z2Nat.id n n_ge0).
    by apply: getitem_totient tA _; apply/Z_of_nat_leq; rw Z2Nat.id.
Qed.

(** Claim C1.  For every [Q >= 0], [sieve_phi Q] returns a list of length
    [Q + 1] whose entry [n] is Euler's totient of [n] for every [n] in
    [0, Q]; entry [0] is [0].  The totient is MathComp's, which
    [totient_reference_laws] shows to be the function of the reference
    definition. *)
Theorem sieve_phi_totient (Q : Z) :
  0 <= Q ->
  exists phi_tab,
    [/\ sieve_phi Q = Ok phi_tab,
        Z.of_nat (size phi_tab) = Q + 1,
        getitem phi_tab 0 = Ok 0
      & forall n, 0 <= n <= Q ->
          getitem phi_tab n = Ok (Z.of_nat (totient (Z.to_nat n)))].
Proof. exact: sieve_phi_entries. Qed.

Lemma sieve_phi_totient_witness :
  0 <= 12 /\
  exists phi_tab,
    [/\ sieve_phi 12 = Ok phi_tab,
        Z.of_nat (size phi_tab) = 12 + 1,
        getitem phi_tab 0 = Ok 0
      & forall n, 0 <= n <= 12 ->
          getitem phi_tab n = Ok (Z.of_nat (totient (Z.to_nat n)))].
Proof. by split; [|apply: sieve_phi_totient]. Defined.

(** ** Invalid arguments *)

(** Claim C6.  [int_nth_root_floor n k] raises [ValueError] exactly when
    [n < 0] or [k <= 0], and [sieve_phi Q] exactly when [Q < 0]; neither
    raises anything else, the test comes before any other step, and the
    error goes through whatever the caller does next. *)
Theorem invalid_argument_errors (n k Q : Z) :
  [/\ int_nth_root_floor n k = Raise ValueError <-> (n < 0 \/ k <= 0),
      forall e, int_nth_root_floor n k = Raise e -> e = ValueError
    & forall (B : Type) (f : Z -> result B), n < 0 \/ k <= 0 ->
        (r <- int_nth_root_floor n k ;; f r) = Raise ValueError] /\
  [/\ sieve_phi Q = Raise ValueError <-> Q < 0,
      forall e, sieve_phi Q = Raise e -> e = ValueError
    & forall (B : Type) (f : seq Z -> result B), Q < 0 ->
        (t <- sieve_phi Q ;; f t) = Raise ValueError].
Proof.
  have root_bad : n < 0 \/ k <= 0 -> int_nth_root_floor n k = Raise ValueError.
    by rw /int_nth_root_floor => -[/Z.ltb_lt ->|/Z.leb_le ->]; rw ?orbT.
  have root_good e : int_nth_root_floor n k = Raise e -> n < 0 \/ k <= 0.
    move=> E; case: (Z.lt_ge_cases n 0) => [|n_ge0]; first by left.
    case: (Z.le_gt_cases k 0) => [|k_gt0]; first by right.
    have [[r [Er _ _ _]] _ _] := @int_nth_root_floor_correct n k n_ge0 ltac:(lia).
    by rw Er in E.
  have sieve_bad : Q < 0 -> sieve_phi Q = Raise ValueError.
    by move=> /Z.ltb_lt bad; rw /sieve_phi bad.
  have sieve_good e : sieve_phi Q = Raise e -> Q < 0.
    move=> E; case: (Z.lt_ge_cases Q 0) => // Q_ge0.
    have [A [EA _ _ _]] := sieve_phi_entries Q_ge0.
    by rw EA in E.
  split; split.
  - by split=> [/root_good|/root_bad].
  - by move=> e E; move: (E); rw (root_bad (root_good e E)) => -[].
  - by move=> B f /root_bad ->.
  - by split=> [/sieve_good|/sieve_bad].
  - by move=> e E; move: (E); rw (sieve_bad (sieve_good e E)) => -[].
  - by move=> B f /sieve_bad ->.
Qed.

(** ** Trial division against the sieve *)

Lemma phi_sieve_entry (Q n : Z) :
  0 <= n <= Q ->
  exists phi_tab v,
    [/\ sieve_phi Q = Ok phi_tab, getitem phi_tab n = Ok v, phi n = Ok v
      & v = Z.of_nat (totient (Z.to_nat n))].
Proof.
  move=> [n_ge0 n_le].
  have [A [EA _ _ ent]] := @sieve_phi_entries Q ltac:(lia).
  exists A, (Z.of_nat (totient (Z.to_nat n))); split=> //; first exact: ent.
  by rw -{1}(Z2Nat.id n n_ge0) phi_totient.
Qed.

Lemma harmonic_sum_phi_sieve (F : float_ops) (Q : Z) :
  harmonic_sum_phi F Q = (ps <- sieve_phi_sum F Q ;; Ok ps.2).
Proof.
  rw /harmonic_sum_phi /sieve_phi_sum; case: Z.ltb_spec => Q_lt.
    by rw /range (_ : Z.to_nat _ = 0%N) //; lia.
  have Q_ge0 : 0 <= Q by lia.
  rw -(Z2Nat.id Q Q_ge0); have [A -> tA] := sieve_loops_table (Z.to_nat Q).
  rw bind_Ok (@for_each_range_ext _ _ _ _
       (fun S q => ph <- getitem A q ;;
                   t <- py_fdiv_int (f_lit F (1 # 1)) (q * ph) ;;
                   Ok (fadd S t))); last by case: (@for_each _ _ _ _ _).
  move=> s x [x_ge2 x_lt]; have x_ge0 : 0 <= x by lia.
  rw -(Z2Nat.id x x_ge0) phi_totient (getitem_totient tA); first by apply/leP; lia.
  rw !bind_Ok.
  have tot_pos : 0 < Z.of_nat (totient (Z.to_nat x)).
    by apply/(Z_of_nat_ltn 0); rw totient_gt0; apply/ltP; lia.
  by have -> : (Z.of_nat (totient (Z.to_nat x)) =? 0) = false by apply/Z.eqb_neq; lia.
Qed.

(** Claim C9.  The trial-division [phi] of the float-mode script agrees
    with the sieve: for [0 <= n <= Q], [phi n] is entry [n] of
    [sieve_phi Q], Euler's totient of [n]; so [harmonic_sum_phi] adds up the
    very terms of the sieve-based float sum, whatever the floats are. *)
Theorem phi_agrees_with_sieve :
  (forall Q n : Z, 0 <= n <= Q ->
     exists phi_tab v,
       [/\ sieve_phi Q = Ok phi_tab, getitem phi_tab n = Ok v, phi n = Ok v
         & v = Z.of_nat (totient (Z.to_nat n))]) /\
  (forall (F : float_ops) (Q : Z),
     harmonic_sum_phi F Q = (ps <- sieve_phi_sum F Q ;; Ok ps.2)).
Proof. by split; [exact: phi_sieve_entry|exact: harmonic_sum_phi_sieve]. Qed.

Lemma phi_agrees_with_sieve_witness :
  0 <= 10 <= 12 /\
  exists phi_tab v,
    [/\ sieve_phi 12 = Ok phi_tab, getitem phi_tab 10 = Ok v, phi 10 = Ok v
      & v = Z.of_nat (totient (Z.to_nat 10))].
Proof. by split; [lia|apply: (proj1 phi_agrees_with_sieve); lia]. Defined.

(** ** The decimal context *)

Lemma compute_tail_margins_frame (F : float_ops) (Lb : float_lib F)
    (N_int : Z) (K S_floor C_W : F) (method : string) (prec : Z)
    (st : context) :
  (compute_tail_margins Lb N_int K S_floor C_W method prec st).2 = st.
Proof.
  rw /compute_tail_margins; case: (N_int <=? 0) => //.
  rw /bindM /liftM; case: (int_nth_root_floor N_int 5) => // Qz.
  case: (String.eqb method "fraction").
    by case: (S_harm_fraction Lb Qz).
  rw /S_harm_decimal /bindM /with_localcontext /=.
  case: (_.1) => // -[[a b] c].
  by case: (negb _).
Qed.

(** Claim C10.  A direct call [harmonic_sum_decimal Q prec] leaves the
    process-wide context at precision [prec]: it returns, the context after
    it has precision [prec], and an operation that follows rounds at [prec],
    whatever the precision before the call.  [compute_tail_margins] runs its
    calls inside [localcontext] and leaves the context as it found it. *)
Theorem harmonic_sum_decimal_sets_precision (Qz prec : Z) (st : context) :
  0 <= Qz -> valid_prec prec ->
  [/\ exists S, harmonic_sum_decimal Qz prec st = (Ok S, Context prec),
      forall a b : decimal,
        (_ <~ harmonic_sum_decimal Qz prec ;; ctx_add a b) st
        = (Ok (dadd prec a b), Context prec)
    & forall (F : float_ops) (Lb : float_lib F) (N_int : Z) (K S_floor C_W : F)
        (method : string) (prec' : Z),
        (compute_tail_margins Lb N_int K S_floor C_W method prec' st).2 = st].
Proof.
  move=> Q_ge0 prec_ok; have prec_ge1 : 1 <= prec by case: prec_ok.
  have [S ES] := decimal_sum_total (Z.to_nat Qz) prec_ge1.
  rw Z2Nat.id in ES; first by [].
  have E : harmonic_sum_decimal Qz prec st = (Ok S, Context prec).
    by rw harmonic_sum_decimalE // ES.
  split; first by exists S.
  - by move=> a b; rw /bindM E.
  - by move=> F Lb *; apply: compute_tail_margins_frame.
Qed.

Lemma harmonic_sum_decimal_sets_precision_witness :
  (0 <= 12 /\ valid_prec 50) /\
  [/\ exists S, harmonic_sum_decimal 12 50 (Context 28) = (Ok S, Context 50),
      forall a b : decimal,
        (_ <~ harmonic_sum_decimal 12 50 ;; ctx_add a b) (Context 28)
        = (Ok (dadd 50 a b), Context 50)
    & forall (F : float_ops) (Lb : float_lib F) (N_int : Z) (K S_floor C_W : F)
        (method : string) (prec' : Z),
        (compute_tail_margins Lb N_int K S_floor C_W method prec' (Context 28)).2
        = Context 28].
Proof.
  have ok : 0 <= 12 /\ valid_prec 50 by rw /valid_prec /MAX_PREC; lia.
  by split=> //; apply: harmonic_sum_decimal_sets_precision; case: ok.
Defined.

(** ** Small [N] *)

Lemma fifth_root_small (N : Z) : 1 <= N <= 31 -> int_nth_root_floor N 5 = Ok 1.
Proof.
  move=> N_small.
  have [[r [-> r_ge0 r_bounds uniq]] _ _] :=
    @int_nth_root_floor_correct N 5 ltac:(lia) ltac:(lia).
  by rw (uniq 1) //; lia.
Qed.

(** Claim C8.  For [1 <= N <= 31] the fifth root is [1], the sums at [Q - 1]
    and at [Q] are both zero, and [compute_tail_margins] raises
    [AssertionError] on the monotonicity check: in fraction mode, and in
    decimal mode at every precision the context accepts. *)
Theorem compute_tail_margins_small_N (F : float_ops) (Lb : float_lib F)
    (N : Z) (K S_floor C_W : F) (prec : Z) (st : context) :
  1 <= N <= 31 ->
  (compute_tail_margins Lb N K S_floor C_W "fraction" prec st).1
    = Raise AssertionError /\
  (valid_prec prec ->
   forall method : string, String.eqb method "fraction" = false ->
     (compute_tail_margins Lb N K S_floor C_W method prec st).1
     = Raise AssertionError).
Proof.
  move=> N_small; rw /compute_tail_margins.
  have -> : (N <=? 0) = false by apply/Z.leb_gt; lia.
  rw /bindM /liftM fifth_root_small //; split=> [|prec_ok method ->].
    by rw [String.eqb _ _]/=; vm_compute.
  rw /S_harm_decimal /bindM /with_localcontext set_prec_valid //.
  have -> : (1 >? 1) = false by [].
  rw /retM /= harmonic_sum_decimalE //= harmonic_sum_decimalE //.
  have [S2 -> /=] : exists S,
      for_each (range 2 (1 + 1 + 1)) (decimal_step prec) (Decimal 0) = Ok S.
    by apply: (@decimal_sum_total prec 2); case: prec_ok.
  by [].
Qed.

Lemma compute_tail_margins_small_N_witness :
  1 <= 31 <= 31 /\
  (compute_tail_margins (F := exact_arith)
     (FloatLib (F := exact_arith) (fun x => Ok x) (fun x _ => Ok x)
        (fun q => Ok q) dval (fun _ => Raise ValueError))
     31 (10 # 1)%Q (12 # 10)%Q (2 # 1)%Q "fraction" 50 (Context 28)).1
    = Raise AssertionError /\
  (valid_prec 50 ->
   forall method : string, String.eqb method "fraction" = false ->
     (compute_tail_margins (F := exact_arith)
        (FloatLib (F := exact_arith) (fun x => Ok x) (fun x _ => Ok x)
           (fun q => Ok q) dval (fun _ => Raise ValueError))
        31 (10 # 1)%Q (12 # 10)%Q (2 # 1)%Q method 50 (Context 28)).1
     = Raise AssertionError).
Proof.
  by split; [lia|apply: compute_tail_margins_small_N; lia].
Defined.

(** ** Monotonicity of the harmonic sum *)

(** Against claim C3 as stated: in decimal mode at precision 1 the sums at
    [Q = 4] and [Q = 5] are both [0.8], and [compute_tail_margins], run at
    [N = 1024] (so [Q = 4]) in decimal mode at that precision, fails its own
    monotonicity check. *)
Lemma decimal_sum_not_strictly_increasing :
  exists S4 S5 : decimal,
    [/\ (harmonic_sum_decimal 4 1 (Context 28)).1 = Ok S4,
        (harmonic_sum_decimal 5 1 (Context 28)).1 = Ok S5,
        dlt S4 S5 = false
      & forall (F : float_ops) (Lb : float_lib F) (K S_floor C_W : F),
          (compute_tail_margins Lb 1024 K S_floor C_W "decimal" 1
             (Context 28)).1 = Raise AssertionError].
Proof. by exists (Dec 8 (-1)), (Dec 8 (-1)); split=> //; vm_compute. Qed.

(** Claim C3, amended.  In exact fraction mode the sum is strictly
    increasing on [Q >= 1]: every added term [1 / (q * phi q)] is positive,
    so [S Q1 < S Q2] whenever [1 <= Q1 < Q2], and in particular
    [S (Q - 1) < S Q < S (Q + 1)] for [Q >= 2].  In decimal mode at the
    default precision of 50 digits and in float mode the three sums at
    [Q - 1], [Q], [Q + 1] increase strictly for every [2 <= Q <= 10000]. *)
Theorem harmonic_sum_increasing :
  [/\ forall Q1 Q2 : Z, 1 <= Q1 < Q2 ->
        exists s1 s2 : Q,
          [/\ harmonic_sum_fraction Q1 = Ok s1,
              harmonic_sum_fraction Q2 = Ok s2
            & Fraction_lt s1 s2 = true],
      forall (Qz : Z) (st : context), 2 <= Qz <= 10000 ->
        exists a b c : decimal,
          [/\ (harmonic_sum_decimal (Qz - 1) 50 st).1 = Ok a,
              (harmonic_sum_decimal Qz 50 st).1 = Ok b,
              (harmonic_sum_decimal (Qz + 1) 50 st).1 = Ok c
            & dlt a b && dlt b c = true]
    & forall Qz : Z, 2 <= Qz <= 10000 ->
        exists a b c : float,
          [/\ harmonic_sum_phi binary64 (Qz - 1) = Ok a,
              harmonic_sum_phi binary64 Qz = Ok b,
              harmonic_sum_phi binary64 (Qz + 1) = Ok c
            & flt_lt (f := binary64) a b && flt_lt (f := binary64) b c = true]].
Proof.
  have vp50 : 50 <= 50 <= MAX_PREC by [].
  split.
  - move=> Q1 Q2 [Q1_ge1 lt_Q].
    have [s1 [s2 [E1 E2 lt_s]]] :=
      @harmonic_sum_fraction_mono Q1 (Z.to_nat (Q2 - Q1 - 1)) Q1_ge1.
    exists s1, s2; split=> //; last exact/Fraction_ltP.
    by rw -E2; congr harmonic_sum_fraction; lia.
  - move=> Qz st Q_in.
    have [|_ [_ [a [b [_ _ Ea Eb [_ lt_ab]]]]]] :=
      @modes_increase 50 (Z.to_nat (Qz - 2)) st vp50.
      by apply/ltP; rw /checked_turns; lia.
    have [|_ [_ [b' [c [_ _ Eb' Ec [_ lt_bc]]]]]] :=
      @modes_increase 50 (Z.to_nat (Qz - 1)) st vp50.
      by apply/ltP; rw /checked_turns; lia.
    have E1 : 1 + Z.of_nat (Z.to_nat (Qz - 2)) = Qz - 1 by lia.
    have E2 : 1 + Z.of_nat (Z.to_nat (Qz - 1)) = Qz by lia.
    move: Ea Eb Eb' Ec; rw E1 E2 (_ : Qz - 1 + 1 = Qz); first lia.
    move=> Ea Eb Eb' Ec; move: Eb' lt_bc; rw Eb => -[<-] lt_bc.
    by exists a, b, c; split=> //; rw lt_ab lt_bc.
  - move=> Qz Q_in.
    have [|a [b [_ [_ [Ea Eb _ _ [lt_ab _]]]]]] :=
      @modes_increase 50 (Z.to_nat (Qz - 2)) (Context 28) vp50.
      by apply/ltP; rw /checked_turns; lia.
    have [|b' [c [_ [_ [Eb' Ec _ _ [lt_bc _]]]]]] :=
      @modes_increase 50 (Z.to_nat (Qz - 1)) (Context 28) vp50.
      by apply/ltP; rw /checked_turns; lia.
    have E1 : 1 + Z.of_nat (Z.to_nat (Qz - 2)) = Qz - 1 by lia.
    have E2 : 1 + Z.of_nat (Z.to_nat (Qz - 1)) = Qz by lia.
    move: Ea Eb Eb' Ec; rw E1 E2 (_ : Qz - 1 + 1 = Qz); first lia.
    move=> Ea Eb Eb' Ec; move: Eb' lt_bc; rw Eb => -[<-] lt_bc.
    by exists a, b, c; split=> //; rw lt_ab lt_bc.
Qed.

Lemma harmonic_sum_increasing_witness :
  1 <= 5252 < 5253 /\
  exists s1 s2 : Q,
    [/\ harmonic_sum_fraction 5252 = Ok s1,
        harmonic_sum_fraction 5253 = Ok s2
      & Fraction_lt s1 s2 = true].
Proof.
  split; first lia.
  by have [exact_mode _ _] := harmonic_sum_increasing; apply: exact_mode; lia.
Defined.

(** ** Agreement of the three modes *)

(** Claim C5.  For every [0 <= Q <= 10000] the float sum is a finite double
    within [1e-10] of the decimal sum at 50 digits, and the decimal sum at
    120 digits is within [1e-20] of the exact fraction; the float sum is
    that of [harmonic_sum_phi], which is also that of [sieve_phi_sum]. *)
Theorem cross_mode_agreement (Qz : Z) (st : context) :
  0 <= Qz <= 10000 ->
  exists (Sf : float) (vf : Q) (Sd50 Sd120 : decimal) (Sq : Q),
    [/\ [/\ harmonic_sum_phi binary64 Qz = Ok Sf,
            (ps <- sieve_phi_sum binary64 Qz ;; Ok ps.2) = Ok Sf
          & fval Sf = Some vf],
        (harmonic_sum_decimal Qz 50 st).1 = Ok Sd50,
        (harmonic_sum_decimal Qz 120 st).1 = Ok Sd120,
        harmonic_sum_fraction Qz = Ok Sq
      & (Qabs (vf - dval Sd50) < Qmake 1 (Z.to_pos (10 ^ 10)))%Q /\
        (Qabs (dval Sd120 - Sq) < Qmake 1 (Z.to_pos (10 ^ 20)))%Q].
Proof.
  move=> [Q_ge0 Q_le].
  have [Q0|Q_ge1] : Qz = 0 \/ 1 <= Qz by lia.
    rw Q0; exists (f_lit binary64 (0 # 1)), (Qmake 0 1), (Decimal 0),
      (Decimal 0), (Qmake 0 1).
    have vp50 : valid_prec 50 by rw /valid_prec /MAX_PREC; lia.
    have vp120 : valid_prec 120 by rw /valid_prec /MAX_PREC; lia.
    split; [by []| | |by []|by []].
    - by rw harmonic_sum_decimalE; [lia|exact: vp50|].
    - by rw harmonic_sum_decimalE; [lia|exact: vp120|].
  have le_j : (Z.to_nat (Qz - 1) <= checked_turns)%N.
    by apply/leP; rw /checked_turns; lia.
  have [Sf [vf [D50 [Fr [[Ef Ev] E50 EFr near d50]]]]] :=
    @modes_at 50 _ st ltac:(by []) le_j.
  have [_ [_ [D120 [Fr' [_ E120 EFr' _ d120]]]]] :=
    @modes_at 120 _ st ltac:(by []) le_j.
  move: EFr' d120; rw EFr => -[<-] d120.
  have EQ : 1 + Z.of_nat (Z.to_nat (Qz - 1)) = Qz by lia.
  rw EQ in EFr Ef E50 E120.
  exists Sf, vf, D50, D120, Fr; split=> //.
    by split=> //; rw -harmonic_sum_phi_sieve.
  have n50 : (Qmake 1 (Z.to_pos (10 ^ 11)) + fsum_val 10000
              + 60000 / unit_inv 50 < Qmake 1 (Z.to_pos (10 ^ 10)))%Q.
    by vm_compute.
  have n120 : (60000 / unit_inv 120 < Qmake 1 (Z.to_pos (10 ^ 20)))%Q.
    by vm_compute.
  move: n50 n120 near d50 d120.
  move: (Qmake 1 (Z.to_pos (10 ^ 11))) (fsum_val 10000) (60000 / _)%Q
        (60000 / _)%Q (Qmake 1 (Z.to_pos (10 ^ 10)))
        (Qmake 1 (Z.to_pos (10 ^ 20))) => e11 fl c50 c120 e10 e20.
  move=> n50 n120 /Qabs_Qlt_condition [f1 f2] /Qabs_Qle_condition [a1 a2].
  move=> /Qabs_Qle_condition [b1 b2].
  by split; apply/Qabs_Qlt_condition; split; lra.
Qed.

Lemma cross_mode_agreement_witness :
  0 <= 5253 <= 10000 /\
  exists (Sf : float) (vf : Q) (Sd50 Sd120 : decimal) (Sq : Q),
    [/\ [/\ harmonic_sum_phi binary64 5253 = Ok Sf,
            (ps <- sieve_phi_sum binary64 5253 ;; Ok ps.2) = Ok Sf
          & fval Sf = Some vf],
        (harmonic_sum_decimal 5253 50 (Context 28)).1 = Ok Sd50,
        (harmonic_sum_decimal 5253 120 (Context 28)).1 = Ok Sd120,
        harmonic_sum_fraction 5253 = Ok Sq
      & (Qabs (vf - dval Sd50) < Qmake 1 (Z.to_pos (10 ^ 10)))%Q /\
        (Qabs (dval Sd120 - Sq) < Qmake 1 (Z.to_pos (10 ^ 20)))%Q].
Proof. by split; [lia|apply: cross_mode_agreement; lia]. Defined.

(** ** The exit status of [main] *)


(** ** The per-q evaluation on an empty table *)

Lemma perq_body_empty (F : float_ops) (Lb : float_lib F) (ns : perq_args F)
    (N L E : F) (ema : F) (missing q : Z) :
  ns_rows ns = [::] -> 0 <= q ->
  fallback_envelope (ns_fallback ns) N L = Ok E ->
  perq_body Lb ns N L (ema, missing) q
  = (ema' <- fallback_step E ema q ;; Ok (ema', missing + 1)).
Proof.
  move=> rows0 q_ge0; rw /fallback_envelope /perq_body /PerQ_Eq rows0 /= => ->.
  rw bind_Ok phi_totZ // bind_Ok /fallback_step /=.
  by case: (py_fdiv_int _ _).
Qed.

Lemma perq_loop_empty (F : float_ops) (Lb : float_lib F) (ns : perq_args F)
    (N L E : F) (ema0 : F) (m : nat) :
  ns_rows ns = [::] -> fallback_envelope (ns_fallback ns) N L = Ok E ->
  for_each (range 2 (2 + Z.of_nat m)) (perq_body Lb ns N L) (ema0, 0)
  = (ema <- for_each (range 2 (2 + Z.of_nat m)) (fallback_step E) ema0 ;;
     Ok (ema, Z.of_nat m)).
Proof.
  move=> rows0 fb; elim: m => [|m IH].
    by rw Z.add_0_r range_empty.
  rw (_ : 2 + Z.of_nat m.+1 = 2 + Z.of_nat m + 1); first lia.
  rw range_rcons; first lia.
  rw !for_each_rcons IH; case: (for_each _ _ _) => [ema| |]; [|by []|by []].
  rw !bind_Ok (perq_body_empty Lb _ _ rows0 _ fb); first lia.
  case: (fallback_step _ _ _) => [ema'| |]; [|by []|by []].
  by rw !bind_Ok (_ : Z.of_nat m + 1 = Z.of_nat m.+1) //; lia.
Qed.


Lemma inject_Z_nonzero (n : Z) :
  0 < n -> Qeq_bool (inject_Z n) (Qmake 0 1) = false.
Proof.
  move=> n_pos; case E: (Qeq_bool _ _) => //.
  by move/Qeq_bool_eq: E; rw /Qeq /=; lia.
Qed.

(** Exact arithmetic: the loop adds up [E / (q * phi q)], that is [E] times
    the exact harmonic sum. *)
Lemma exact_fallback_sum (E : Q) (m : nat) :
  exists s S : Q,
    [/\ for_each (range 2 (2 + Z.of_nat m)) (fallback_step (F := exact_arith) E)
          (Qmake 0 1) = Ok s,
        harmonic_sum_fraction (1 + Z.of_nat m) = Ok S
      & (s == E * S)%Q].
Proof.
  elim: m => [|m [s [S [Es ES eq_s]]]].
    exists (Qmake 0 1), (Qmake 0 1); split.
    - by rw Z.add_0_r range_empty.
    - by [].
    - by rw /Qeq /=; ring.
  have q_ge1 : 1 <= 2 + Z.of_nat m by lia.
  have tot_pos := totZ_pos q_ge1.
  have n_pos : 0 < (2 + Z.of_nat m) * totZ (2 + Z.of_nat m) by nia.
  have [S' [ES' eq_S' _]] := @fraction_step_spec S (2 + Z.of_nat m) q_ge1.
  exists (s + E / inject_Z ((2 + Z.of_nat m) * totZ (2 + Z.of_nat m)))%Q, S'.
  split.
  - rw (_ : 2 + Z.of_nat m.+1 = 2 + Z.of_nat m + 1); first lia.
    rw range_rcons; first lia.
    rw for_each_rcons Es bind_Ok /fallback_step /py_fdiv_int /py_fdiv /=.
    by rw inject_Z_nonzero.
  - rw (_ : 1 + Z.of_nat m.+1 = 1 + Z.of_nat m + 1); first lia.
    rw harmonic_sum_fractionS; first lia.
    by rw ES bind_Ok (_ : 1 + Z.of_nat m + 1 = 2 + Z.of_nat m) //; lia.
  - have x_ne0 : ~ (inject_Z ((2 + Z.of_nat m) * totZ (2 + Z.of_nat m)) == 0)%Q.
      by move: (_ * _) n_pos => n n_pos; rw /Qeq /=; lia.
    rw eq_S' eq_s (Qmake_Qdiv 1) Z2Pos.id //.
    move: (inject_Z _) x_ne0 => x x_ne0.
    by field.
Qed.

Lemma bind_inv (A B : Type) (m : result A) (f : A -> result B) (b : B) :
  (x <- m ;; f x) = Ok b -> exists2 a, m = Ok a & f a = Ok b.
Proof. by case: m => // a; exists a. Qed.






(** ** More on the integer root *)

(** Property X1.  The root of a perfect power is its base:
    [int_nth_root_floor (r ^ k) k] returns [r] for every [r >= 0] and
    [k >= 1]; with [k = 1] the function is the identity. *)
Theorem int_nth_root_floor_power (r k : Z) :
  0 <= r -> 1 <= k ->
  int_nth_root_floor (r ^ k) k = Ok r /\ int_nth_root_floor r 1 = Ok r.
Proof.
  move=> r_ge0 k_ge1.
  have root_pow (b e : Z) : 0 <= b -> 1 <= e ->
      int_nth_root_floor (b ^ e) e = Ok b.
    move=> b_ge0 e_ge1.
    have [|[r' [-> _ _ uniq]] _ _] := @int_nth_root_floor_correct (b ^ e) e _ e_ge1.
      by apply: Z.pow_nonneg.
    congr Ok; symmetry; apply: uniq => //; split; first lia.
    by apply: Z.pow_lt_mono_l; lia.
  split; first exact: root_pow.
  by rw -{1}(Z.pow_1_r r); apply: root_pow.
Qed.

Lemma int_nth_root_floor_power_witness :
  (0 <= 5253 /\ 1 <= 5) /\
  int_nth_root_floor (5253 ^ 5) 5 = Ok 5253 /\ int_nth_root_floor 5253 1 = Ok 5253.
Proof. by split; [lia|apply: int_nth_root_floor_power; lia]. Defined.

(** Property X2.  The root is monotone in its argument: for
    [0 <= n <= m] and [k >= 1] both roots are returned and the root of [n]
    is at most the root of [m]. *)
Theorem int_nth_root_floor_mono (n m k : Z) :
  0 <= n <= m -> 1 <= k ->
  exists r s : Z,
    [/\ int_nth_root_floor n k = Ok r, int_nth_root_floor m k = Ok s
      & r <= s].
Proof.
  move=> [n_ge0 le_nm] k_ge1.
  have [[r [Er r_ge0 [r_lo _] _]] _ _] := int_nth_root_floor_correct n_ge0 k_ge1.
  have [|[s [Es s_ge0 [_ s_hi] _]] _ _] := @int_nth_root_floor_correct m k _ k_ge1.
    by lia.
  exists r, s; split=> //.
  have [//|lt_sr] := Z.le_gt_cases r s.
  have : (s + 1) ^ k <= r ^ k by apply: Z.pow_le_mono_l; lia.
  by lia.
Qed.

Lemma int_nth_root_floor_mono_witness :
  (0 <= 31 <= 32 /\ 1 <= 5) /\
  exists r s : Z,
    [/\ int_nth_root_floor 31 5 = Ok r, int_nth_root_floor 32 5 = Ok s
      & r <= s].
Proof. by split; [lia|apply: int_nth_root_floor_mono; lia]. Defined.

(** ** More on the sums *)

(** Property X3.  When [sieve_phi_sum Q] returns a table and a sum, the
    sum is the one of [harmonic_sum_phi Q], and the table is that of
    [sieve_phi Q] exactly when [Q >= 1]: below [1] the table is [[0, 1]]
    and the sum is zero, also for a negative [Q], where [sieve_phi]
    raises. *)
Theorem sieve_phi_sum_table (F : float_ops) (Q : Z) (tab : seq Z) (S : F) :
  sieve_phi_sum F Q = Ok (tab, S) ->
  [/\ harmonic_sum_phi F Q = Ok S,
      sieve_phi Q = Ok tab <-> 1 <= Q
    & Q < 1 -> tab = [:: 0; 1] /\ S = f_lit F (0 # 1)].
Proof.
  move=> E; split; first by rw harmonic_sum_phi_sieve E.
  - move: E; rw /sieve_phi_sum /sieve_phi; case: Z.ltb_spec => Q_lt.
      case=> <- _; split; last lia.
      case: Z.ltb_spec => // Q_ge0.
      by have -> : Q = 0 by lia.
    have -> : (Q <? 0) = false by apply/Z.ltb_ge; lia.
    case: (sieve_loops Q) => [t| |] //=.
    by case: (for_each _ _ _) => [s| |] //= [<- _].
  - move=> Q_lt; move: E; rw /sieve_phi_sum.
    have -> : (Q <? 1) = true by apply/Z.ltb_lt.
    by case=> <- <-.
Qed.

Lemma sieve_phi_sum_table_witness :
  sieve_phi_sum exact_arith 0 = Ok ([:: 0; 1], Qmake 0 1) /\
  [/\ harmonic_sum_phi exact_arith 0 = Ok (Qmake 0 1),
      sieve_phi 0 = Ok [:: 0; 1] <-> 1 <= 0
    & 0 < 1 -> [:: 0; 1] = [:: 0; 1] /\ Qmake 0 1 = f_lit exact_arith (0 # 1)].
Proof. by split; [|apply: (@sieve_phi_sum_table exact_arith 0)]. Defined.

Lemma harmonic_sum_fraction_small (Q : Z) :
  0 <= Q <= 1 -> harmonic_sum_fraction Q = Ok (Qmake 0 1).
Proof.
  move=> Q_in; have [->|->] : Q = 0 \/ Q = 1 by lia.
  - by vm_compute.
  - by vm_compute.
Qed.

(** Property X4.  The exact sum starts at zero ([Q = 0] and [Q = 1]) and
    each further [Q + 1] adds exactly [1 / ((Q + 1) * phi (Q + 1))]; the
    fraction returned is positive and in lowest terms. *)
Theorem harmonic_sum_fraction_terms (Qz : Z) :
  1 <= Qz ->
  exists s s' : Q,
    [/\ harmonic_sum_fraction Qz = Ok s,
        harmonic_sum_fraction (Qz + 1) = Ok s',
        (s' == s + Qmake 1 (Z.to_pos ((Qz + 1) * totZ (Qz + 1))))%Q,
        0 < Qnum s' /\ Z.gcd (Qnum s') (Zpos (Qden s')) = 1
      & harmonic_sum_fraction 0 = Ok (Qmake 0 1)
        /\ harmonic_sum_fraction 1 = Ok (Qmake 0 1)].
Proof.
  move=> Q_ge1.
  have [s Es] := harmonic_sum_fraction_total (Z.to_nat Qz).
  rw Z2Nat.id in Es; first lia.
  have [s' [Es' Eq lt_s]] := @fraction_step_spec s (Qz + 1) ltac:(lia).
  have ES : harmonic_sum_fraction (Qz + 1) = Ok s'.
    by rw harmonic_sum_fractionS // Es bind_Ok.
  exists s, s'; split=> //; split.
  - have [z [s2 [Ez E2 lt_z]]] :=
      @harmonic_sum_fraction_mono 1 (Z.to_nat (Qz - 1)) ltac:(lia).
    move: Ez E2; rw harmonic_sum_fraction_small; first lia.
    rw (_ : 1 + Z.of_nat _ = Qz + 1); first lia.
    rw ES => -[Ez] [E2]; move: lt_z; rw -Ez -E2 /Qlt /=; lia.
  - move: Es'; rw /fraction_step /fraction_step_at.
    case: (Fraction _ _) => [t| |]; [rw bind_Ok|by []|by []].
    have Ok_inj (a b : Q) : Ok a = Ok b -> a = b by case.
    by move/Ok_inj=> <-; exact: gcd_Qred.
Qed.

Lemma harmonic_sum_fraction_terms_witness :
  1 <= 11 /\
  exists s s' : Q,
    [/\ harmonic_sum_fraction 11 = Ok s,
        harmonic_sum_fraction (11 + 1) = Ok s',
        (s' == s + Qmake 1 (Z.to_pos ((11 + 1) * totZ (11 + 1))))%Q,
        0 < Qnum s' /\ Z.gcd (Qnum s') (Zpos (Qden s')) = 1
      & harmonic_sum_fraction 0 = Ok (Qmake 0 1)
        /\ harmonic_sum_fraction 1 = Ok (Qmake 0 1)].
Proof. by split; [lia|apply: harmonic_sum_fraction_terms; lia]. Defined.


(** ** The three modes beyond the default precisions *)

(** Property X6.  At every precision from 50 digits on, the decimal sum
    at [1 <= Q <= 10001] is within [60000 / 10 ^ (prec - 1)] of the exact
    sum. *)
Theorem harmonic_sum_decimal_accuracy (prec Qz : Z) (st : context) :
  50 <= prec <= MAX_PREC -> 1 <= Qz <= 10001 ->
  exists (D : decimal) (Fr : Q),
    [/\ (harmonic_sum_decimal Qz prec st).1 = Ok D,
        harmonic_sum_fraction Qz = Ok Fr
      & (Qabs (dval D - Fr) <= 60000 / inject_Z (10 ^ (prec - 1)))%Q].
Proof.
  move=> prec_in Q_in.
  have [|_ [_ [D [Fr [_ ED EFr _ near]]]]] :=
    @modes_at prec (Z.to_nat (Qz - 1)) st prec_in.
    by apply/leP; rw /checked_turns; lia.
  have EQ : 1 + Z.of_nat (Z.to_nat (Qz - 1)) = Qz by lia.
  by exists D, Fr; rw -{1 2}EQ.
Qed.

Lemma harmonic_sum_decimal_accuracy_witness :
  (50 <= 80 <= MAX_PREC /\ 1 <= 5253 <= 10001) /\
  exists (D : decimal) (Fr : Q),
    [/\ (harmonic_sum_decimal 5253 80 (Context 28)).1 = Ok D,
        harmonic_sum_fraction 5253 = Ok Fr
      & (Qabs (dval D - Fr) <= 60000 / inject_Z (10 ^ (80 - 1)))%Q].
Proof.
  by split; [|apply: harmonic_sum_decimal_accuracy].
Defined.

(** Property X7.  At every precision from 50 digits on, the decimal sum
    grows strictly from [Q] to [Q + 1] for [1 <= Q <= 10000]. *)
Theorem harmonic_sum_decimal_increasing (prec Qz : Z) (st : context) :
  50 <= prec <= MAX_PREC -> 1 <= Qz <= 10000 ->
  exists c d : decimal,
    [/\ (harmonic_sum_decimal Qz prec st).1 = Ok c,
        (harmonic_sum_decimal (Qz + 1) prec st).1 = Ok d
      & dlt c d = true].
Proof.
  move=> prec_in Q_in.
  have [|_ [_ [c [d [_ _ Ec Ed [_ lt_cd]]]]]] :=
    @modes_increase prec (Z.to_nat (Qz - 1)) st prec_in.
    by apply/ltP; rw /checked_turns; lia.
  have EQ : 1 + Z.of_nat (Z.to_nat (Qz - 1)) = Qz by lia.
  by exists c, d; rw -{1 2}EQ.
Qed.

Lemma harmonic_sum_decimal_increasing_witness :
  (50 <= 80 <= MAX_PREC /\ 1 <= 5253 <= 10000) /\
  exists c d : decimal,
    [/\ (harmonic_sum_decimal 5253 80 (Context 28)).1 = Ok c,
        (harmonic_sum_decimal (5253 + 1) 80 (Context 28)).1 = Ok d
      & dlt c d = true].
Proof.
  by split; [|apply: harmonic_sum_decimal_increasing].
Defined.

(** Property X8.  For [1 <= Q <= 10001] the float sum is a finite double
    within [2e-11] of the exact sum, which is at most [2]; it is also the
    sum that [sieve_phi_sum] returns beside its table. *)
Theorem harmonic_sum_phi_accuracy (Qz : Z) :
  1 <= Qz <= 10001 ->
  exists (Sf : float) (vf Fr : Q) (tab : seq Z),
    [/\ harmonic_sum_phi binary64 Qz = Ok Sf,
        sieve_phi_sum binary64 Qz = Ok (tab, Sf),
        fval Sf = Some vf,
        harmonic_sum_fraction Qz = Ok Fr
      & (Qabs (vf - Fr) < Qmake 2 (Z.to_pos (10 ^ 11)))%Q /\ (Fr <= 2)%Q].
Proof.
  move=> Q_in.
  have le_j : (Z.to_nat (Qz - 1) <= checked_turns)%N.
    by apply/leP; rw /checked_turns; lia.
  have [Sf [vf [_ [Fr [[Ef Ev] _ EFr near _]]]]] :=
    @modes_at 50 _ (Context 28) ltac:(by []) le_j.
  have EQ : 1 + Z.of_nat (Z.to_nat (Qz - 1)) = Qz by lia.
  have le2 := exact_bounded fsum_checked_run le_j EFr.
  rw EQ in Ef EFr.
  have [tab Et] : exists tab, sieve_phi_sum binary64 Qz = Ok (tab, Sf).
    move: Ef; rw harmonic_sum_phi_sieve.
    case: (sieve_phi_sum _ _) => [[tab S]| |] //=.
    have Ok_inj (a b : float) : Ok a = Ok b -> a = b by case.
    by move/Ok_inj=> ->; exists tab.
  exists Sf, vf, Fr, tab; split=> //; split=> //.
  apply: Qlt_le_trans near _.
  by vm_compute.
Qed.

Lemma harmonic_sum_phi_accuracy_witness :
  1 <= 5253 <= 10001 /\
  exists (Sf : float) (vf Fr : Q) (tab : seq Z),
    [/\ harmonic_sum_phi binary64 5253 = Ok Sf,
        sieve_phi_sum binary64 5253 = Ok (tab, Sf),
        fval Sf = Some vf,
        harmonic_sum_fraction 5253 = Ok Fr
      & (Qabs (vf - Fr) < Qmake 2 (Z.to_pos (10 ^ 11)))%Q /\ (Fr <= 2)%Q].
Proof. by split; [lia|apply: harmonic_sum_phi_accuracy; lia]. Defined.

(** ** The monotonicity guard of [compute_tail_margins] *)

Lemma bind_quiet (A B : Type) (m : result A) (f : A -> result B) :
  m <> Raise AssertionError -> (forall a, f a <> Raise AssertionError) ->
  (x <- m ;; f x) <> Raise AssertionError.
Proof.
  case: m => [a _ quiet|e quiet _|_ _].
  - exact: quiet.
  - by move=> /= [E]; apply: quiet; rw E.
  - by [].
Qed.

Lemma py_fdiv_quiet (F : float_ops) (a b : F) :
  py_fdiv a b <> Raise AssertionError.
Proof. by rw /py_fdiv; case: (f_is_zero b). Qed.

Lemma fifth_root_large (N : Z) :
  32 <= N ->
  exists Qr, [/\ int_nth_root_floor N 5 = Ok Qr, 2 <= Qr
               & Qr ^ 5 <= N < (Qr + 1) ^ 5].
Proof.
  move=> N_ge.
  have [[Qr [-> Qr_ge0 Qr_in _]] _ _] :=
    @int_nth_root_floor_correct N 5 ltac:(lia) ltac:(lia).
  exists Qr; split=> //.
  have [//|lt_Q] := Z.le_gt_cases 2 Qr.
  have : (Qr + 1) ^ 5 <= 2 ^ 5 by apply: Z.pow_le_mono_l; lia.
  by lia.
Qed.

(** The fraction branch passes its check from [Q = 2] on. *)
Lemma S_harm_fraction_passes (F : float_ops) (Lb : float_lib F) (Qr : Z) :
  2 <= Qr ->
  exists2 S : Q, harmonic_sum_fraction Qr = Ok S
    & S_harm_fraction Lb Qr = f_of_fraction Lb S.
Proof.
  move=> Q_ge2; rw /S_harm_fraction.
  have [a [b [Ea Eb lt_ab]]] := @harmonic_sum_fraction_step (Qr - 1) ltac:(lia).
  have [b' [c [Eb' Ec lt_bc]]] := @harmonic_sum_fraction_step Qr ltac:(lia).
  rw (_ : Qr - 1 + 1 = Qr) in Eb; first lia.
  move: Eb' lt_bc; rw Eb => -[<-] lt_bc.
  have -> : (Qr >? 1) = true by apply/Z.gtb_lt; lia.
  rw Ea bind_Ok bind_Ok Ec bind_Ok.
  have /Fraction_ltP -> := lt_ab; have /Fraction_ltP -> := lt_bc.
  by exists b.
Qed.

(** The decimal branch passes its check for [2 <= Q <= 10000] at 50 digits
    or more. *)
Lemma S_harm_decimal_passes (F : float_ops) (Lb : float_lib F) (Qr prec : Z)
    (st : context) :
  2 <= Qr <= 10000 -> 50 <= prec <= MAX_PREC ->
  exists2 D : decimal, (harmonic_sum_decimal Qr prec st).1 = Ok D
    & S_harm_decimal Lb Qr prec st = (Ok (f_of_decimal Lb D), st).
Proof.
  move=> Q_in prec_in.
  have vp : valid_prec prec by rw /valid_prec; lia.
  have [|_ [_ [a [b [_ _ Ea Eb [_ lt_ab]]]]]] :=
    @modes_increase prec (Z.to_nat (Qr - 2)) st prec_in.
    by apply/ltP; rw /checked_turns; lia.
  have [|_ [_ [b' [c [_ _ Eb' Ec [_ lt_bc]]]]]] :=
    @modes_increase prec (Z.to_nat (Qr - 1)) st prec_in.
    by apply/ltP; rw /checked_turns; lia.
  have E1 : 1 + Z.of_nat (Z.to_nat (Qr - 2)) = Qr - 1 by lia.
  have E2 : 1 + Z.of_nat (Z.to_nat (Qr - 1)) = Qr by lia.
  move: Ea Eb Eb' Ec; rw E1 E2 (_ : Qr - 1 + 1 = Qr); first lia.
  move=> Ea Eb Eb' Ec; move: Eb' lt_bc; rw Eb => -[<-] lt_bc.
  exists b; first by [].
  move: Ea Eb Ec; rw !harmonic_sum_decimalE; try lia; try by [].
  move=> /= Ea Eb Ec.
  rw /S_harm_decimal /bindM /with_localcontext set_prec_valid //.
  have -> : (Qr >? 1) = true by apply/Z.gtb_lt; lia.
  rw !harmonic_sum_decimalE; try lia; try by [].
  by rw Ea Eb Ec /retM /= lt_ab lt_bc.
Qed.

Lemma tail_floats_quiet (F : float_ops) (Lb : float_lib F) (N Qr : Z)
    (K S_floor C_W S_harm : F) :
  no_assertion_error Lb ->
  (N_float <- f_of_int F N ;;
   L <- flog Lb N_float ;;
   R <- fpow Lb N_float (f_lit F (6 # 10)) ;;
   let E_t := E_trivial N_float L in
   E_u <- E_uniform N_float L ;;
   cw_r <- py_fdiv C_W R ;;
   let EMA_t := fmul (fmul cw_r E_t) S_harm in
   cw_r' <- py_fdiv C_W R ;;
   let EMA_u := fmul (fmul cw_r' E_u) S_harm in
   sk <- py_fdiv S_floor (fmul (f_lit F (8 # 1)) K) ;;
   L2 <- fpow Lb L (f_lit F (2 # 1)) ;;
   share <- py_fdiv (fmul sk N_float) L2 ;;
   ratio_t <- py_fdiv EMA_t share ;;
   ratio_u <- py_fdiv EMA_u share ;;
   Ok (TailMargins N_float L Qr R S_harm EMA_t EMA_u share ratio_t ratio_u))
  <> Raise AssertionError.
Proof.
  move=> [q_int q_log q_pow q_frac].
  do !(apply: bind_quiet; [by []||exact: py_fdiv_quiet|move=> ?]).
  by [].
Qed.

(** Property X9.  From [N = 32] on, the monotonicity check of
    [compute_tail_margins] does not fire in fraction mode, and for
    [N < 10001 ^ 5] it does not fire in decimal mode at 50 digits or more:
    the call does not raise [AssertionError], given that the conversions,
    the logarithm and the powers do not. *)
Theorem compute_tail_margins_guard (F : float_ops) (Lb : float_lib F)
    (N : Z) (K S_floor C_W : F) (prec : Z) (st : context) :
  32 <= N -> no_assertion_error Lb ->
  (compute_tail_margins Lb N K S_floor C_W "fraction" prec st).1
    <> Raise AssertionError /\
  (N < 10001 ^ 5 -> 50 <= prec <= MAX_PREC ->
   forall method : string, String.eqb method "fraction" = false ->
     (compute_tail_margins Lb N K S_floor C_W method prec st).1
     <> Raise AssertionError).
Proof.
  move=> N_ge quiet; rw /compute_tail_margins.
  have -> : (N <=? 0) = false by apply/Z.leb_gt; lia.
  have [Qr [-> Q_ge2 [Q_lo Q_hi]]] := fifth_root_large N_ge.
  rw /bindM /liftM; split=> [|N_lt prec_in method ->].
    rw [String.eqb _ _]/=.
    have [S _ ->] := S_harm_fraction_passes Lb Q_ge2.
    have [_ _ _ q_frac] := quiet.
    case E: (f_of_fraction Lb S) => [x|e|] /=.
    - exact: tail_floats_quiet.
    - by move=> [Ee]; apply: (q_frac S); rw E Ee.
    - by [].
  have Q_le : Qr <= 10000.
    have [//|lt_Q] := Z.le_gt_cases Qr 10000.
    have : 10001 ^ 5 <= Qr ^ 5 by apply: Z.pow_le_mono_l; lia.
    by lia.
  have [D _ ->] := @S_harm_decimal_passes F Lb Qr prec st ltac:(lia) prec_in.
  exact: tail_floats_quiet.
Qed.

Lemma compute_tail_margins_guard_witness :
  (32 <= 32 /\ no_assertion_error plain_lib) /\
  (compute_tail_margins plain_lib 32 (10 # 1)%Q (12 # 10)%Q (2 # 1)%Q
     "fraction" 50 (Context 28)).1 <> Raise AssertionError /\
  (32 < 10001 ^ 5 -> 50 <= 50 <= MAX_PREC ->
   forall method : string, String.eqb method "fraction" = false ->
     (compute_tail_margins plain_lib 32 (10 # 1)%Q (12 # 10)%Q (2 # 1)%Q
        method 50 (Context 28)).1 <> Raise AssertionError).
Proof.
  have quiet : no_assertion_error plain_lib by split.
  by split; [split; [lia|]|apply: compute_tail_margins_guard; [lia|]].
Defined.

(** ** The per-q table in general *)


Ltac unbind H x E := case: (bind_inv H) => {H} x E H.





(** ** The float formula over exact arithmetic *)

Lemma range_nat (a b : Z) : range a b = range a (a + Z.of_nat (Z.to_nat (b - a))).
Proof.
  rw /range.
  by have -> : Z.to_nat (a + Z.of_nat (Z.to_nat (b - a)) - a) = Z.to_nat (b - a)
    by lia.
Qed.

Lemma exact_float_sum (m : nat) :
  exists s S : Q,
    [/\ for_each (range 2 (2 + Z.of_nat m)) (@float_step exact_arith)
          (Qmake 0 1) = Ok s,
        harmonic_sum_fraction (1 + Z.of_nat m) = Ok S
      & (s == S)%Q].
Proof.
  have [s [S [Es ES eq_s]]] := exact_fallback_sum (Qmake 1 1) m.
  by exists s, S; split=> //; rw eq_s; ring.
Qed.

(** Property X11.  Read over exact arithmetic, the float-mode sum
    [harmonic_sum_phi Q] is the exact sum [harmonic_sum_fraction Q], for
    every [Q >= 0]. *)
Theorem harmonic_sum_phi_exact (Qz : Z) :
  0 <= Qz ->
  exists s S : Q,
    [/\ harmonic_sum_phi exact_arith Qz = Ok s,
        harmonic_sum_fraction Qz = Ok S
      & (s == S)%Q].
Proof.
  move=> Q_ge0; have [Q0|Q_ge1] : Qz = 0 \/ 1 <= Qz by lia.
    by rw Q0; exists (Qmake 0 1), (Qmake 0 1).
  have [s [S [Es ES eq_s]]] := exact_float_sum (Z.to_nat (Qz - 1)).
  exists s, S; split=> //.
  - by rw harmonic_sum_phiE -Es (_ : Qz + 1 = 2 + Z.of_nat (Z.to_nat (Qz - 1))); [lia|].
  - by rw -ES; congr harmonic_sum_fraction; lia.
Qed.

Lemma harmonic_sum_phi_exact_witness :
  0 <= 12 /\
  exists s S : Q,
    [/\ harmonic_sum_phi exact_arith 12 = Ok s,
        harmonic_sum_fraction 12 = Ok S
      & (s == S)%Q].
Proof. by split; [lia|apply: harmonic_sum_phi_exact; lia]. Defined.

(** ** [major_arc_envelope] beside [per_q_envelope] *)

Lemma Ok_inj (A : Type) (a b : A) : Ok a = Ok b -> a = b.
Proof. by case. Qed.

(** Property X12.  Read over exact arithmetic and run on the same
    arguments, [major_arc_envelope] with the model [m] and [per_q_envelope]
    with an empty table and the fallback [m] report the same [Qcap] and
    share and equal EMA and ratio; every [q] of [2 .. Qcap] is counted as
    missing. *)
Theorem major_arc_matches_perq (Lb : float_lib exact_arith)
    (f_to_int : Q -> result Z) (ns : perq_args exact_arith)
    (rp : perq_report exact_arith) (mp : major_report exact_arith) :
  ns_rows ns = [::] ->
  per_q_envelope_main Lb ns = Ok rp ->
  major_arc_envelope_main Lb f_to_int (major_of_perq ns) = Ok mp ->
  [/\ mr_Qcap mp = rp_Qcap rp,
      mr_Share mp = rp_Share rp,
      (mr_EMA mp == rp_EMA rp)%Q,
      (mr_Ratio mp == rp_Ratio rp)%Q
    & rp_Missing rp = Z.max 0 (ns_Qcap ns - 1)].
Proof.
  move=> rows0; rw /per_q_envelope_main /major_arc_envelope_main.
  move=> H; unbind H L EL; unbind H R ER; unbind H em Eem.
  unbind H cw_r Ecw; unbind H sk Esk; unbind H L2 EL2.
  unbind H share Esh; unbind H ratio Era; case: H => <- {rp}.
  cbn [major_of_perq ma_N ma_K ma_S ma_Wsup ma_CW ma_Rexp ma_Qcap ma_model].
  rw EL !bind_Ok ER bind_Ok.
  move=> H; unbind H s Es; unbind H E EE; move: H.
  rw Ecw bind_Ok Esk bind_Ok EL2 bind_Ok Esh bind_Ok.
  move=> H; unbind H ratio' Era'; case: H => <- {mp}.
  cbn [mr_Qcap mr_Share mr_EMA mr_Ratio rp_Qcap rp_Share rp_EMA rp_Ratio
       rp_Missing].
  set m := Z.to_nat (ns_Qcap ns + 1 - 2).
  have [s1 [S [Es1 ES eq_s1]]] := exact_fallback_sum E m.
  have [s2 [S' [Es2 ES' eq_s2]]] := exact_float_sum m.
  move: ES' eq_s2; rw ES => -[<-] eq_s2.
  move: Eem; rw range_nat -/m (@perq_loop_empty _ Lb ns _ _ E _ m rows0 EE) Es1 bind_Ok.
  move=> Eem; have {}Eem := Ok_inj Eem; rw -{}Eem /= in Era *.
  have {Es2}Es : s = s2.
    have := harmonic_sum_phiE exact_arith (ns_Qcap ns).
    by rw /harmonic_sum_phi Es range_nat -/m Es2; exact: Ok_inj.
  rw {}Es in Era' *.
  have eq_ema : (cw_r * E * s2 == s1 * cw_r)%Q by rw eq_s1 eq_s2; ring.
  split; [by []|by []|exact: eq_ema| |by rw /m; lia].
  move: Era Era'; rw /py_fdiv /=; case: (Qeq_bool share (Qmake 0 1)) => //.
  by move=> Er Er'; rw -(Ok_inj Er) -(Ok_inj Er') eq_ema.
Qed.

Lemma major_arc_matches_perq_witness :
  exists (rp : perq_report exact_arith) (mp : major_report exact_arith),
    [/\ ns_rows perq_small_args = [::],
        per_q_envelope_main perq_demo_lib perq_small_args = Ok rp
      & major_arc_envelope_main perq_demo_lib (fun _ => Raise ValueError)
          (major_of_perq perq_small_args) = Ok mp] /\
    [/\ mr_Qcap mp = rp_Qcap rp,
        mr_Share mp = rp_Share rp,
        (mr_EMA mp == rp_EMA rp)%Q,
        (mr_Ratio mp == rp_Ratio rp)%Q
      & rp_Missing rp = Z.max 0 (ns_Qcap perq_small_args - 1)].
Proof.
  case Ep: (per_q_envelope_main perq_demo_lib perq_small_args) => [rp| |].
  - case Em: (major_arc_envelope_main perq_demo_lib (fun _ => Raise ValueError)
               (major_of_perq perq_small_args)) => [mp| |].
    + exists rp, mp; split; first by [].
      exact: (@major_arc_matches_perq perq_demo_lib (fun _ => Raise ValueError)
                perq_small_args rp mp (erefl _) Ep Em).
    + by vm_compute in Em.
    + by vm_compute in Em.
  - by vm_compute in Ep.
  - by vm_compute in Ep.
Defined.

(** ** The diagnostics *)

Lemma dict_get_set (V : Type) (d : seq (Z * V)) (k k' : Z) (v : V) :
  dict_get (dict_set d k v) k' = if k =? k' then Some v else dict_get d k'.
Proof.
  rw /dict_set /=; case: Z.eqb_spec => // ne_k.
  elim: d => [|[k1 v1] d IH] //=.
  case: Z.eqb_spec => [->|ne1] /=.
    by rw IH; case: Z.eqb_spec.
  by rw IH.
Qed.

Lemma dict_item_set (V : Type) (d : seq (Z * V)) (k : Z) (v : V) :
  dict_item (dict_set d k v) k = Ok v.
Proof. by rw /dict_item dict_get_set Z.eqb_refl. Qed.

Lemma range_split (a k b : Z) :
  a <= k <= b -> range a b = range a k ++ range k b.
Proof.
  move=> [le_ak le_kb]; rw /range.
  have -> : Z.to_nat (b - a) = (Z.to_nat (k - a) + Z.to_nat (b - k))%N.
    by rw -plusE; lia.
  rw iotaD map_cat add0n; congr cat.
  rw -[Z.to_nat (k - a)]addn0 iotaDl -map_comp; apply: eq_map => i /=.
  by rw Nat2Z.inj_add; lia.
Qed.

Lemma range_at (a k b : Z) :
  a <= k < b -> range a b = range a k ++ k :: range (k + 1) b.
Proof.
  move=> [le_ak lt_kb]; rw (@range_split a k b); first lia.
  congr cat; rw (_ : b = k + Z.of_nat (Z.to_nat (b - k - 1)).+1); first lia.
  by rw range_cons; congr (_ :: range _ _); lia.
Qed.

Lemma harmonic_sum_decimal_value (prec q : Z) (st : context) :
  0 <= q -> valid_prec prec ->
  harmonic_sum_decimal q prec st = (Ok (decimal_sum prec q), Context prec).
Proof.
  move=> q_ge0 vp; rw harmonic_sum_decimalE // /decimal_sum.
  have [S] := @decimal_sum_total prec (Z.to_nat q) ltac:(case: vp; lia).
  by rw Z2Nat.id // => ->.
Qed.

(** The inner loop of the diagnostics fills the table of one precision. *)
Lemma diag_inner (Qr prec : Z) (ks : seq Z) (d : seq (Z * decimal))
    (st : context) :
  valid_prec prec ->
  for_eachM ks
    (fun at_prec k =>
       let q := Qr + k in
       if q <? 1 then retM at_prec
       else v <~ harmonic_sum_decimal q prec ;;
            retM (dict_set at_prec q v))
    d st
  = (Ok (sums_around Qr prec ks d),
     if has (fun k => 1 <=? Qr + k) ks then Context prec else st).
Proof.
  move=> vp; elim: ks d st => [|k ks IH] d st //=.
  rw /bindM; case: Z.ltb_spec => q_sign.
    have -> : (1 <=? Qr + k) = false by apply/Z.leb_gt.
    by rw /retM IH.
  rw harmonic_sum_decimal_value //; first lia.
  have -> : (1 <=? Qr + k) = true by apply/Z.leb_le.
  by rw /retM IH /=; case: (has _ ks).
Qed.

Lemma sums_around_keep (Qr prec : Z) (ks : seq Z) (d : seq (Z * decimal))
    (q : Z) :
  dict_get d q = Some (decimal_sum prec q) ->
  dict_get (sums_around Qr prec ks d) q = Some (decimal_sum prec q).
Proof.
  rw /sums_around; elim: ks d => [|k ks IH] d //= Eq; apply: IH.
  case: (Qr + k <? 1) => //; rw dict_get_set.
  by case: Z.eqb_spec => [->|].
Qed.

Lemma sums_around_get (Qr prec a b k : Z) (d : seq (Z * decimal)) :
  a <= k < b -> 1 <= Qr + k ->
  dict_get (sums_around Qr prec (range a b) d) (Qr + k)
  = Some (decimal_sum prec (Qr + k)).
Proof.
  move=> k_in q_ge1; rw (range_at k_in) /sums_around foldl_cat /=.
  have -> : (Qr + k <? 1) = false by apply/Z.ltb_ge.
  by apply: sums_around_keep; rw dict_get_set Z.eqb_refl.
Qed.

Lemma for_each_pure (A S : Type) (xs : seq A) (f : S -> A -> S) (s : S) :
  for_each xs (fun s x => Ok (f s x)) s = Ok (foldl f s xs).
Proof. by elim: xs s => [|x xs IH] s //=. Qed.

Lemma deltas_keep (Qr hi : Z) (n : nat) (a k : Z) (d : seq (Z * decimal)) :
  k < a ->
  dict_get (deltas_of Qr hi (range a (a + Z.of_nat n)) d) k = dict_get d k.
Proof.
  rw /deltas_of; elim: n a d => [|n IH] a d lt_k.
    by rw Z.add_0_r range_empty; [lia|].
  rw range_cons /= IH; first lia.
  by rw dict_get_set; case: Z.eqb_spec => //; lia.
Qed.

Lemma deltas_get (Qr hi kmax k : Z) :
  1 <= k <= kmax ->
  dict_get (deltas_of Qr hi (range 1 (kmax + 1)) [::]) k
  = Some (dadd hi (decimal_sum hi (Qr + k)) (dneg (decimal_sum hi (Qr + k - 1)))).
Proof.
  move=> k_in; rw (@range_at 1 k (kmax + 1)); first lia.
  rw /deltas_of foldl_cat /= -/(deltas_of Qr hi _ _) (range_nat (k + 1)).
  rw deltas_keep; first lia.
  by rw dict_get_set Z.eqb_refl.
Qed.

Lemma bindM_Ok (A B : Type) (m : M A) (f : A -> M B) (st st' : context)
    (a : A) :
  m st = (Ok a, st') -> bindM m f st = f a st'.
Proof. by rw /bindM => ->. Qed.

Lemma for_eachM_two (A S : Type) (x y : A) (body : S -> A -> M S) (s : S) :
  for_eachM [:: x; y] body s
  = (s' <~ body s x ;; s'' <~ body s' y ;; retM s'').
Proof. by []. Qed.

Lemma has_range (p : Z -> bool) (a k b : Z) :
  a <= k < b -> p k = true -> has p (range a b) = true.
Proof. by move=> k_in pk; rw (range_at k_in) has_cat /= pk orbT. Qed.

Lemma ddiv_total (prec : Z) (a b : decimal) :
  dcoeff b <> 0 -> exists q, ddiv prec a b = Ok q.
Proof.
  move=> /Z.eqb_neq nz; rw /ddiv nz.
  case: (dcoeff a =? 0); first by eexists.
  by case: (Z.div_eucl _ _) => q r; eexists.
Qed.

Lemma fifth_root_pos (N : Z) :
  1 <= N -> exists2 Qr, int_nth_root_floor N 5 = Ok Qr & 1 <= Qr.
Proof.
  move=> N_ge1.
  have [[Qr [-> Qr_ge0 [_ Q_hi] _]] _ _] :=
    @int_nth_root_floor_correct N 5 ltac:(lia) ltac:(lia).
  exists Qr => //.
  have [//|lt_Q] := Z.le_gt_cases 1 Qr.
  have : (Qr + 1) ^ 5 <= 1 ^ 5 by apply: Z.pow_le_mono_l; lia.
  by rw Z.pow_1_l; lia.
Qed.

Lemma strict_diagnostics_spec (N base_prec hi_prec kmax : Z)
    (st : context) :
  1 <= N -> valid_prec base_prec -> valid_prec hi_prec -> 0 <= kmax ->
  exists (d : diagnostics) (Qr : Z),
    [/\ strict_diagnostics N base_prec hi_prec kmax st
        = (Ok d, Context hi_prec),
        int_nth_root_floor N 5 = Ok Qr /\ dg_Q d = Qr,
        (harmonic_sum_decimal Qr base_prec st).1 = Ok (dg_S_decimal_base d)
        /\ (harmonic_sum_decimal Qr hi_prec st).1 = Ok (dg_S_decimal_hi d),
        harmonic_sum_fraction Qr = Ok (dg_S_fraction_Q d)
      & forall k, 1 <= k <= kmax ->
          exists a b : decimal,
            [/\ (harmonic_sum_decimal (Qr + k) hi_prec st).1 = Ok a,
                (harmonic_sum_decimal (Qr + k - 1) hi_prec st).1 = Ok b
              & dict_get (dg_monotone_deltas_hi_prec d) k
                = Some (dadd hi_prec a (dneg b))]].
Proof.
  move=> N_ge1 vpb vph kmax_ge0.
  have [Qr EQr Qr_ge1] := fifth_root_pos N_ge1.
  have [Fr EFr] : exists Fr, harmonic_sum_fraction Qr = Ok Fr.
    have := harmonic_sum_fraction_total (Z.to_nat Qr).
    by rw Z2Nat.id; first lia.
  set ks := range (- kmax) (kmax + 1).
  have has0 : has (fun k => 1 <=? Qr + k) ks = true.
    by apply: (@has_range _ _ 0); [lia|apply/Z.leb_le; lia].
  set d_b := sums_around Qr base_prec ks [::].
  set d_h := sums_around Qr hi_prec ks [::].
  set S_dec := dict_set (dict_set [::] base_prec d_b) hi_prec d_h.
  have get_h k : - kmax <= k <= kmax -> 1 <= Qr + k ->
      dict_item d_h (Qr + k) = Ok (decimal_sum hi_prec (Qr + k)).
    by move=> k_in q_ge1; rw /dict_item /d_h /ks sums_around_get //; lia.
  have get_b : exists2 t, dict_item S_dec base_prec = Ok t
      & dict_item t Qr = Ok (decimal_sum base_prec Qr).
    rw /dict_item /S_dec !dict_get_set Z.eqb_refl.
    have Eget p : dict_get (sums_around Qr p ks [::]) Qr = Some (decimal_sum p Qr).
      rw -{2 3}(Z.add_0_r Qr) /ks sums_around_get //; lia.
    case: Z.eqb_spec => [E|_].
      by exists d_h => //; rw /d_h E Eget.
    by exists d_b => //; rw /d_b Eget.
  have [quo Equo] := @ddiv_total hi_prec (Decimal (Qnum Fr))
    (Decimal (Zpos (Qden Fr))) ltac:(by []).
  pose diff := dadd hi_prec (decimal_sum hi_prec Qr) (dneg quo).
  pose adiff := dfix hi_prec (Dec (Z.abs (dcoeff diff)) (dexp diff)).
  exists (Diagnostics Qr (decimal_sum base_prec Qr) (decimal_sum hi_prec Qr)
            Fr adiff (deltas_of Qr hi_prec (range 1 (kmax + 1)) [::])), Qr.
  split=> //; last first.
  - move=> k k_in; exists (decimal_sum hi_prec (Qr + k)),
      (decimal_sum hi_prec (Qr + k - 1)).
    by rw !harmonic_sum_decimal_value ?deltas_get //; lia.
  - by rw !harmonic_sum_decimal_value //; lia.
  rw /strict_diagnostics.
  have -> : (N <=? 0) = false by apply/Z.leb_gt; lia.
  rw EQr (@bindM_Ok _ _ _ _ st st Qr) //.
  rw (@bindM_Ok _ _ _ _ _ (Context hi_prec) S_dec).
    rw for_eachM_two /bindM diag_inner // has0 /retM diag_inner // has0.
    by [].
  rw /retM EFr (@bindM_Ok _ _ _ _ _ (Context hi_prec) Fr) //.
  rw (@bindM_Ok _ _ _ _ _ (Context hi_prec)
        (deltas_of Qr hi_prec (range 1 (kmax + 1)) [::])).
    rw (@for_eachM_range _ _ _ _
          (fun d k => Ok (dict_set d k
             (dadd hi_prec (decimal_sum hi_prec (Qr + k))
                (dneg (decimal_sum hi_prec (Qr + k - 1))))))).
      move=> s k k_in; rw /bindM /liftM dict_item_set get_h; [lia|lia|].
      rw (_ : Qr + k - 1 = Qr + (k - 1)); first lia.
      by rw get_h; [lia|lia|].
    by rw for_each_pure.
  have [t Et Etq] := get_b.
  rw /bindM /liftM Et Etq dict_item_set.
  have := get_h 0; rw Z.add_0_r => ->; [lia|lia|].
  by rw /ctx_div /= Equo.
Qed.




(** ** What [compute_tail_margins] returns and what [main] leaves behind *)

Lemma small_N_no_result (F : float_ops) (Lb : float_lib F) (N : Z)
    (K S_floor C_W : F) (method : string) (prec : Z) (st : context)
    (r : tail_margins F) :
  N <= 31 ->
  (compute_tail_margins Lb N K S_floor C_W method prec st).1 <> Ok r.
Proof.
  move=> N_le; rw /compute_tail_margins.
  case: Z.leb_spec => [//|N_pos].
  rw /bindM /liftM fifth_root_small; first lia.
  case: (String.eqb method "fraction"); first by vm_compute.
  rw /S_harm_decimal /bindM /with_localcontext.
  have [vp|nvp] : valid_prec prec \/ ~ valid_prec prec by rw /valid_prec; lia.
    rw set_prec_valid //.
    have -> : (1 >? 1) = false by [].
    rw /retM /= harmonic_sum_decimalE //= harmonic_sum_decimalE //.
    have [S2 -> /=] : exists S,
        for_each (range 2 (1 + 1 + 1)) (decimal_step prec) (Decimal 0) = Ok S.
      by apply: (@decimal_sum_total prec 2); case: vp.
    by [].
  rw /set_prec; case: Z.leb_spec => [lo|//]; case: Z.leb_spec => [hi|//].
  by case: nvp.
Qed.

Lemma tail_margins_fields (F : float_ops) (Lb : float_lib F)
    (N : Z) (K S_floor C_W : F) (method : string) (prec : Z) (st : context)
    (r : tail_margins F) :
  (compute_tail_margins Lb N K S_floor C_W method prec st).1 = Ok r ->
  [/\ 32 <= N, 2 <= tm_Q r, tm_Q r ^ 5 <= N < (tm_Q r + 1) ^ 5,
      f_of_int F N = Ok (tm_N r) & flog Lb (tm_N r) = Ok (tm_logN r)].
Proof.
  move=> Er; have N_ge : 32 <= N.
    have [N_le|//] := Z.le_gt_cases N 31; last lia.
    by case: (small_N_no_result N_le Er).
  have [Qr [EQr Q_ge2 Q_in]] := fifth_root_large N_ge.
  move: Er; rw /compute_tail_margins.
  have -> : (N <=? 0) = false by apply/Z.leb_gt; lia.
  rw /bindM /liftM EQr.
  case: (if String.eqb method "fraction" then _ else _) => -[S_harm|e|] st1 //=.
  move=> H; unbind H N_float EN; unbind H L EL; unbind H R ER.
  unbind H E_u EEu; unbind H cw_r Ecw; unbind H cw_r' Ecw'.
  unbind H sk Esk; unbind H L2 EL2; unbind H share Esh.
  unbind H ratio_t Ert; unbind H ratio_u Eru.
  by case: H => <- /=.
Qed.

(** Property X14.  [compute_tail_margins] returns only for [N >= 32]; the
    [Q] of its record is then the integer fifth root of [N], at least [2],
    [N] is the float of the integer [N] and [logN] its logarithm. *)
Theorem compute_tail_margins_record (F : float_ops) (Lb : float_lib F)
    (N : Z) (K S_floor C_W : F) (method : string) (prec : Z) (st : context)
    (r : tail_margins F) :
  (compute_tail_margins Lb N K S_floor C_W method prec st).1 = Ok r ->
  [/\ 32 <= N, 2 <= tm_Q r, tm_Q r ^ 5 <= N < (tm_Q r + 1) ^ 5,
      f_of_int F N = Ok (tm_N r) & flog Lb (tm_N r) = Ok (tm_logN r)].
Proof. exact: tail_margins_fields. Qed.


Lemma compute_tail_margins_record_witness :
  exists r : tail_margins exact_arith,
    (compute_tail_margins plain_lib 32 (10 # 1)%Q (12 # 10)%Q (2 # 1)%Q
       "fraction" 50 (Context 28)).1 = Ok r /\
    [/\ 32 <= 32, 2 <= tm_Q r, tm_Q r ^ 5 <= 32 < (tm_Q r + 1) ^ 5,
        f_of_int exact_arith 32 = Ok (tm_N r)
      & flog plain_lib (tm_N r) = Ok (tm_logN r)].
Proof.
  case E: (compute_tail_margins plain_lib 32 (10 # 1)%Q (12 # 10)%Q (2 # 1)%Q
             "fraction" 50 (Context 28)).1 => [r| |].
  - by exists r; split; [|exact: (compute_tail_margins_record E)].
  - by vm_compute in E.
  - by vm_compute in E.
Defined.

(** Property X15.  When the margins are computed and [prec + 70] is a
    precision the context accepts, [main] leaves the process-wide decimal
    context as it found it without [--strict], and at the precision
    [max(120, prec + 70)] with [--strict], whatever the baseline check and
    the acceptance test then give. *)
Theorem main_context (F : float_ops) (Lb : float_lib F) (a : main_args F)
    (st : context) (r : tail_margins F) :
  (compute_tail_margins Lb (a_N_int a) (a_K a) (a_S_floor a) (a_C_W a)
     (a_method a) (a_prec a) st).1 = Ok r ->
  1 <= a_prec a + 70 <= MAX_PREC ->
  (main Lb a st).2
  = if a_strict a then Context (Z.max 120 (a_prec a + 70)) else st.
Proof.
  move=> Er prec_in.
  have [N_ge _ _ _ _] := tail_margins_fields Er.
  have := compute_tail_margins_frame Lb (a_N_int a) (a_K a) (a_S_floor a)
    (a_C_W a) (a_method a) (a_prec a) st.
  move: Er; rw /main /bindM /main_strict.
  case: (compute_tail_margins _ _ _ _ _ _ _ _) => r1 st1 /= -> ->.
  case: (a_strict a); last by rw /retM /liftM; case: (main_baseline a).
  have vpb : valid_prec (Z.max 50 (a_prec a)).
    by move: prec_in; rw /valid_prec /MAX_PREC; lia.
  have vph : valid_prec (Z.max 120 (a_prec a + 70)).
    by move: prec_in; rw /valid_prec /MAX_PREC; lia.
  have [d [Qr [Ed _ _ _ _]]] :=
    @strict_diagnostics_spec (a_N_int a) _ _ 5 st ltac:(lia) vpb vph
      ltac:(by []).
  by rw /bindM Ed /retM /liftM; case: (main_baseline a).
Qed.

Lemma main_context_witness :
  exists r : tail_margins exact_arith,
    ((compute_tail_margins plain_lib 32 (10 # 1)%Q (12 # 10)%Q (2 # 1)%Q
        "fraction" 50 (Context 28)).1 = Ok r /\
     1 <= 50 + 70 <= MAX_PREC) /\
    (main plain_lib
       (MainArgs (F := exact_arith) 32 (10 # 1)%Q (12 # 10)%Q (2 # 1)%Q
          "fraction" 50 true false) (Context 28)).2
    = Context (Z.max 120 (50 + 70)).
Proof.
  case E: (compute_tail_margins plain_lib 32 (10 # 1)%Q (12 # 10)%Q (2 # 1)%Q
             "fraction" 50 (Context 28)).1 => [r| |].
  - exists r; split; first by [].
    exact: (@main_context exact_arith plain_lib
              (MainArgs (F := exact_arith) 32 (10 # 1)%Q (12 # 10)%Q (2 # 1)%Q
                 "fraction" 50 true false) (Context 28) r E).
  - by vm_compute in E.
  - by vm_compute in E.
Defined.

(** Property X16.  Below [2] the trial-division [phi] returns its argument,
    also a negative one, and [harmonic_sum_phi] returns zero: neither
    raises, where [harmonic_sum_fraction] refuses a negative [Q]. *)
Theorem phi_below_two (F : float_ops) (n : Z) :
  n <= 1 -> phi n = Ok n /\ harmonic_sum_phi F n = Ok (f_lit F (0 # 1)).
Proof.
  move=> n_le; split.
    rw /phi phi_loopE (_ : (2 * 2 <=? n) = false); first by apply/Z.leb_gt; lia.
    rw bind_Ok.
    have -> : (n >? 1) = false by rw Z.gtb_ltb; apply/Z.ltb_ge; lia.
    by [].
  by rw /harmonic_sum_phi range_empty; [lia|].
Qed.

Lemma phi_below_two_witness :
  -5 <= 1 /\
  phi (-5) = Ok (-5)
  /\ harmonic_sum_phi exact_arith (-5) = Ok (f_lit exact_arith (0 # 1)).
Proof. by split; [lia|apply: phi_below_two; lia]. Defined.

(** ** The prime test of the sieve *)

(** The table when the outer loop of the sieve reaches [P + 1]. *)
Lemma sieve_prefix_table (Qn P : nat) :
  (0 < P)%N -> (P < Qn)%N ->
  exists2 A,
    for_each (range 2 (Z.of_nat P.+1)) (sieve_body (Z.of_nat Qn))
      (range 0 (Z.of_nat Qn + 1)) = Ok A
    & table Qn (entry P) A.
Proof.
  move=> P_gt0 lt_P.
  have -> : range 0 (Z.of_nat Qn + 1) = [seq Z.of_nat i | i <- iota 0 Qn.+1].
    have -> : Z.of_nat Qn + 1 = 0 + Z.of_nat Qn.+1 by lia.
    by rw range_from.
  have -> : range 2 (Z.of_nat P.+1) = [seq Z.of_nat i.+2 | i <- iota 0 P.-1].
    rw /range; have -> : Z.to_nat (Z.of_nat P.+1 - 2) = P.-1.
      by case: P P_gt0 {lt_P} => [|P] // _; rw -[RHS]Nat2Z.id; congr Z.to_nat; lia.
    by apply: eq_map => i; lia.
  have [||A -> tA] := @for_each_iota _ _ (fun i => table Qn (entry i.+1))
      (fun i => Z.of_nat i.+2) P.-1 (sieve_body (Z.of_nat Qn))
      [seq Z.of_nat i | i <- iota 0 Qn.+1].
  - split=> [|n le_n]; first by rw size_map size_iota.
    rw (nth_map 0%N) ?size_iota ?ltnS // nth_iota ?ltnS // add0n.
    by case: n le_n => // n _; rw /entry ptot1.
  - move=> i A lt_i; apply: sieve_body_table => //.
    have lt_iP : (i.+1 < P)%N by move: lt_i; case: (P) P_gt0.
    exact: ltn_trans lt_iP lt_P.
  - by exists A => //; rw prednK in tA.
Qed.

(** Property X17.  When the outer loop of [sieve_phi] reaches [p], the
    entry [phi[p]] still equals [p] exactly when [p] is prime: the test
    [phi[p] == p] strikes the multiples of the primes and of nothing
    else. *)
Theorem sieve_prime_test (Qz p : Z) :
  2 <= p <= Qz ->
  exists (A : seq Z) (v : Z),
    [/\ for_each (range 2 p) (sieve_body Qz) (range 0 (Qz + 1)) = Ok A,
        getitem A p = Ok v
      & v = p <-> prime (Z.to_nat p)].
Proof.
  move=> [p_ge2 p_le].
  have EQ : Z.of_nat (Z.to_nat Qz) = Qz by lia.
  have Ep : Z.of_nat (Z.to_nat (p - 1)).+1 = p by lia.
  have P_gt0 : (0 < Z.to_nat (p - 1))%N by apply/ltP; lia.
  have lt_P : (Z.to_nat (p - 1) < Z.to_nat Qz)%N by apply/ltP; lia.
  have [A EA tA] := sieve_prefix_table P_gt0 lt_P.
  rw Ep EQ in EA; exists A, (entry (Z.to_nat (p - 1)) (Z.to_nat (p - 1)).+1).
  split=> //; first by rw -{1}Ep (getitem_table tA).
  have -> : Z.to_nat p = (Z.to_nat (p - 1)).+1 by lia.
  rw -(ptot_test P_gt0) /entry; split=> [Ev|/eqP ->]; last exact: Ep.
  by apply/eqP/Nat2Z.inj; rw Ev Ep.
Qed.

Lemma sieve_prime_test_witness :
  2 <= 7 <= 12 /\
  exists (A : seq Z) (v : Z),
    [/\ for_each (range 2 7) (sieve_body 12) (range 0 (12 + 1)) = Ok A,
        getitem A 7 = Ok v
      & v = 7 <-> prime (Z.to_nat 7)].
Proof. by split; [lia|apply: sieve_prime_test; lia]. Defined.

(** ** The two modes of [compute_tail_margins] side by side *)





(** Property X20.  The [sum_q] of a record that [compute_tail_margins]
    returns is the float of the sum at the record's [Q] in the mode asked
    for: of [harmonic_sum_fraction Q] in fraction mode, of
    [harmonic_sum_decimal Q prec] otherwise. *)
Theorem compute_tail_margins_sum (F : float_ops) (Lb : float_lib F)
    (N : Z) (K S_floor C_W : F) (method : string) (prec : Z) (st : context)
    (r : tail_margins F) :
  (compute_tail_margins Lb N K S_floor C_W method prec st).1 = Ok r ->
  if String.eqb method "fraction"
  then exists2 S : Q, harmonic_sum_fraction (tm_Q r) = Ok S
         & f_of_fraction Lb S = Ok (tm_sum_q r)
  else exists2 D : decimal,
         (harmonic_sum_decimal (tm_Q r) prec st).1 = Ok D
         & tm_sum_q r = f_of_decimal Lb D.
Proof.
  move=> Er; have [N_ge _ _ _ _] := tail_margins_fields Er.
  have [Qr [EQr Q_ge2 Q_in]] := fifth_root_large N_ge.
  move: Er; rw /compute_tail_margins.
  have -> : (N <=? 0) = false by apply/Z.leb_gt; lia.
  rw /bindM /liftM EQr.
  have fields (S_harm : F) m :
      (N_float <- f_of_int F N ;;
       L <- flog Lb N_float ;;
       R <- fpow Lb N_float (f_lit F (6 # 10)) ;;
       let E_t := E_trivial N_float L in
       E_u <- E_uniform N_float L ;;
       cw_r <- py_fdiv C_W R ;;
       let EMA_t := fmul (fmul cw_r E_t) S_harm in
       cw_r' <- py_fdiv C_W R ;;
       let EMA_u := fmul (fmul cw_r' E_u) S_harm in
       sk <- py_fdiv S_floor (fmul (f_lit F (8 # 1)) K) ;;
       L2 <- fpow Lb L (f_lit F (2 # 1)) ;;
       share <- py_fdiv (fmul sk N_float) L2 ;;
       ratio_t <- py_fdiv EMA_t share ;;
       ratio_u <- py_fdiv EMA_u share ;;
       Ok (TailMargins N_float L Qr R S_harm EMA_t EMA_u share ratio_t
             ratio_u)) = Ok m ->
      tm_Q m = Qr /\ tm_sum_q m = S_harm.
    move=> H; unbind H N_float EN; unbind H L EL; unbind H R ER.
    unbind H E_u EEu; unbind H cw_r Ecw; unbind H cw_r' Ecw'.
    unbind H sk Esk; unbind H L2 EL2; unbind H share Esh.
    unbind H ratio_t Ert; unbind H ratio_u Eru.
    by case: H => <-.
  case: (String.eqb method "fraction").
    have [S ES ->] := S_harm_fraction_passes Lb Q_ge2.
    case EF: (f_of_fraction Lb S) => [x|e|] //= /fields [-> ->].
    by exists S.
  have [vp|nvp] : valid_prec prec \/ ~ valid_prec prec by rw /valid_prec; lia.
    have -> : S_harm_decimal Lb Qr prec st
        = if negb (dlt (decimal_sum prec (Qr - 1)) (decimal_sum prec Qr)
                   && dlt (decimal_sum prec Qr) (decimal_sum prec (Qr + 1)))
          then (Raise AssertionError, st)
          else (Ok (f_of_decimal Lb (decimal_sum prec Qr)), st).
      rw /S_harm_decimal /bindM /with_localcontext set_prec_valid //.
      have -> : (Qr >? 1) = true by apply/Z.gtb_lt; lia.
      rw !harmonic_sum_decimal_value; try lia; try by [].
      by rw /retM /=; case: (negb _).
    case: (negb _) => //= /fields [EQ ES].
    exists (decimal_sum prec Qr); last exact: ES.
    by rw EQ harmonic_sum_decimal_value //; lia.
  rw /S_harm_decimal /bindM /with_localcontext /set_prec.
  case: Z.leb_spec => [lo|//]; case: Z.leb_spec => [hi|//].
  by case: nvp.
Qed.

Lemma compute_tail_margins_sum_witness :
  exists r : tail_margins exact_arith,
    (compute_tail_margins plain_lib 32 (10 # 1)%Q (12 # 10)%Q (2 # 1)%Q
       "decimal" 50 (Context 28)).1 = Ok r /\
    exists2 D : decimal,
      (harmonic_sum_decimal (tm_Q r) 50 (Context 28)).1 = Ok D
      & tm_sum_q r = f_of_decimal plain_lib D.
Proof.
  have [r E] : exists r,
      (compute_tail_margins plain_lib 32 (10 # 1)%Q (12 # 10)%Q (2 # 1)%Q
         "decimal" 50 (Context 28)).1 = Ok r.
    by vm_compute; eexists.
  exists r; split; first exact: E.
  exact: (@compute_tail_margins_sum exact_arith plain_lib 32 _ _ _ "decimal"
            50 (Context 28) r E).
Defined.

(** ** The values of the repository's tests *)

Example fifth_root_baseline :
  int_nth_root_floor 4000000000000000000 5 = Ok 5253.
Proof. by vm_compute. Qed.

Example sieve_phi_12 :
  sieve_phi 12 = Ok [:: 0; 1; 1; 2; 2; 4; 2; 6; 4; 6; 4; 10; 4].
Proof. by vm_compute. Qed.

Example phi_12 :
  [seq phi n | n <- range 0 13]
  = [seq Ok v | v <- [:: 0; 1; 1; 2; 2; 4; 2; 6; 4; 6; 4; 10; 4]].
Proof. by vm_compute. Qed.

Example harmonic_sum_fraction_12 :
  harmonic_sum_fraction 12 = Ok (Qmake 350437 332640).
Proof. by vm_compute. Qed.
